(** * eosjs2-serialize: a shallow embedding of the binary serialization engine

  The development follows [src/eosjs2-serialize.ts].  JavaScript numbers
  are modelled by [Z] (the integer fragment), with the 32-bit wrap-around of
  the bit operators written out; a [Uint8Array] is a [list Z] of bytes;
  strings are [string]s of one-byte code units; thrown exceptions are the
  [Throw] outcome of a small error monad; loops that the source writes as
  [while (true)] or unbounded recursion take a fuel argument and report
  [OutOfFuel] when it is exhausted. *)

From Stdlib Require Import ZArith List String Ascii Bool Lia.
Import ListNotations.

Open Scope Z_scope.

(** ** Outcomes *)

(** The exceptions of the source, one constructor per [throw] site (or per
  family of platform exceptions). *)
Inductive error : Type :=
| BufferUnderrun                         (* 'Read past end of buffer' *)
| SizeMismatch                           (* 'Binary data has incorrect size' *)
| InvalidText                            (* fatal TextDecoder *)
| MalformedAsset                         (* 'Asset must begin with a number' *)
| InvalidSymbol                          (* 'Invalid symbol' *)
| UnknownType (name : string)            (* 'Unknown type: ' + name *)
| UnknownAction (name account : string)  (* 'Unknown action ... in contract ...' *)
| MissingField (owner field : string)    (* 'missing ' + this.name + '.' + field.name *)
| UnknownCodec (name : string)           (* "Don't know how to (de)serialize " + this.name *)
| JsTypeError                            (* platform TypeError *)
| JsRangeError                           (* platform RangeError *)
| ExternalError                          (* thrown by the numeric collaborator *)
| Unmodelled.                            (* the run leaves the modelled fragment *)

Inductive result (A : Type) : Type :=
| Ok (a : A)
| Throw (e : error)
| OutOfFuel.

Arguments Ok {A} a.
Arguments Throw {A} e.
Arguments OutOfFuel {A}.

Definition bind {A B : Type} (m : result A) (k : A -> result B) : result B :=
match m with
| Ok a => k a
| Throw e => Throw e
| OutOfFuel => OutOfFuel
end.

Notation "x <- m ;; k" := (bind m (fun x => k))
(at level 61, m at next level, right associativity).
Notation "' p <- m ;; k" := (bind m (fun p => k))
(at level 61, p pattern, m at next level, right associativity).

(** ** JavaScript 32-bit integer operators *)

Module JS.

Definition toUint32 (x : Z) : Z := x mod 2 ^ 32.
Definition toInt32 (x : Z) : Z := (x + 2 ^ 31) mod 2 ^ 32 - 2 ^ 31.
Definition toUint8 (x : Z) : Z := x mod 256.

(** [a << b], [a >> b], [a >>> b]: the shift count is taken modulo 32. *)
Definition shl (a b : Z) : Z := toInt32 (Z.shiftl (toInt32 a) (toUint32 b mod 32)).
Definition shr (a b : Z) : Z := Z.shiftr (toInt32 a) (toUint32 b mod 32).
Definition ushr (a b : Z) : Z := Z.shiftr (toUint32 a) (toUint32 b mod 32).

(** [a & b], [a | b], [a ^ b], [~a] *)
Definition band (a b : Z) : Z := Z.land (toInt32 a) (toInt32 b).
Definition bor (a b : Z) : Z := Z.lor (toInt32 a) (toInt32 b).
Definition bxor (a b : Z) : Z := Z.lxor (toInt32 a) (toInt32 b).
Definition bnot (a : Z) : Z := Z.lnot (toInt32 a).

(** Truthiness of a number (the integer fragment has no NaN). *)
Definition truthy (x : Z) : bool := negb (x =? 0).

End JS.

(** ** JavaScript strings *)

(** A string is a sequence of code units; the model has the code units
    0..255 ([ascii]). *)
Module JSString.

Definition code (c : ascii) : Z := Z.of_N (N_of_ascii c).

(** [String.fromCharCode(c)] for [0 <= c < 256]. *)
Definition fromCharCode (c : Z) : ascii := ascii_of_N (Z.to_N c).

Fixpoint codes (s : string) : list Z :=
  match s with
  | EmptyString => []
  | String c s' => code c :: codes s'
  end.

Fixpoint ofCodes (l : list Z) : string :=
  match l with
  | [] => EmptyString
  | c :: l' => String (fromCharCode c) (ofCodes l')
  end.

Definition len (s : string) : Z := Z.of_nat (String.length s).

(** [s.substr(start, len)]; [None] is an omitted length.  A negative start
    counts from the end; the result is clamped to the string. *)
Definition substr (s : string) (start : Z) (length : option Z) : string :=
  let n := len s in
  let st := if start <? 0 then Z.max (n + start) 0 else Z.min start n in
  let l := match length with
           | None => n - st
           | Some l => Z.min (Z.max l 0) (n - st)
           end in
  substring (Z.to_nat st) (Z.to_nat l) s.

(** [s.endsWith(suffix)] *)
Definition endsWith (s suffix : string) : bool :=
  let n := String.length s in
  let m := String.length suffix in
  if (m <=? n)%nat then String.eqb (substring (n - m) m s) suffix else false.

(** White space and line terminators among the code units 0..255. *)
Definition isWhiteSpace (c : ascii) : bool :=
  let x := code c in
  ((9 <=? x) && (x <=? 13)) || (x =? 32) || (x =? 160).

Fixpoint trimStart (s : string) : string :=
  match s with
  | EmptyString => EmptyString
  | String c s' => if isWhiteSpace c then trimStart s' else s
  end.

(** The string without its trailing white space: a character is kept when
    it is not white space or something is kept after it. *)
Fixpoint trimEnd (s : string) : string :=
  match s with
  | EmptyString => EmptyString
  | String c s' =>
      match trimEnd s' with
      | EmptyString => if isWhiteSpace c then EmptyString else String c EmptyString
      | t => String c t
      end
  end.

(** [s.trim()] *)
Definition trim (s : string) : string := trimEnd (trimStart s).

Definition isDigit (x : Z) : bool := (48 <=? x) && (x <=? 57).

(** The decimal numeral of a non-negative integer, most significant digit
    first, on top of [acc].  A number [n >= 1] has at most [log2 n + 1]
    digits. *)
Fixpoint decimal_loop (fuel : nat) (n : Z) (acc : string) : string :=
  match fuel with
  | O => acc
  | S fuel' =>
      let acc' := String (fromCharCode (48 + n mod 10)) acc in
      if n / 10 =? 0 then acc' else decimal_loop fuel' (n / 10) acc'
  end.

Definition decimal (n : Z) : string :=
  decimal_loop (S (Z.to_nat (Z.log2 n))) n EmptyString.

(** [String(n)] for an integer below 2^53 in magnitude. *)
Definition ofNumber (n : Z) : string :=
  if n <? 0 then String "-"%char (decimal (- n)) else decimal n.

(** The value of a string of decimal digits, [None] when a character is not
    a digit. *)
Fixpoint digitsValue (acc : Z) (l : list Z) : option Z :=
  match l with
  | [] => Some acc
  | c :: l' => if isDigit c then digitsValue (10 * acc + (c - 48)) l' else None
  end.

End JSString.

(** ** The platform's UTF-8 codec *)

(** [TextEncoder.encode]: a code unit below 128 is one byte, one in
    128..255 is two. *)
Definition utf8_encode_unit (c : Z) : list Z :=
  if c <? 128 then [c]
  else [Z.lor 192 (Z.shiftr c 6); Z.lor 128 (Z.land c 63)].

Definition textEncoder_encode (s : string) : list Z :=
  flat_map utf8_encode_unit (JSString.codes s).

(** UTF-8 decoding that fails on malformed input: bytes that cannot start
    a sequence, and a lead byte without its continuation, fail; a sequence
    for a code point above 255 leaves the modelled strings. *)
Fixpoint utf8_decode (bs : list Z) : result string :=
  match bs with
  | [] => Ok EmptyString
  | b :: rest =>
      if b <? 128 then
        s <- utf8_decode rest ;;
        Ok (String (JSString.fromCharCode b) s)
      else if (b =? 194) || (b =? 195) then
        match rest with
        | c :: rest' =>
            if (128 <=? c) && (c <? 192) then
              s <- utf8_decode rest' ;;
              Ok (String (JSString.fromCharCode ((b - 192) * 64 + (c - 128))) s)
            else Throw InvalidText
        | [] => Throw InvalidText
        end
      else if (b <? 194) || (244 <? b) then Throw InvalidText
      else Throw Unmodelled
  end.

(** [TextDecoder('utf-8', { fatal: true }).decode]: a byte order mark
    EF BB BF at the start is dropped ([ignoreBOM] is off), the rest is
    decoded. *)
Definition textDecoder_decode (bs : list Z) : result string :=
  match bs with
  | b0 :: b1 :: b2 :: rest =>
      if (b0 =? 239) && (b1 =? 187) && (b2 =? 191) then utf8_decode rest
      else utf8_decode bs
  | _ => utf8_decode bs
  end.

(** ** The arbitrary-precision codec (module [eosjs2-numeric]) *)

Module numeric.

(** Little-endian bytes of [v], [size] of them. *)
Fixpoint toBytes (size : nat) (v : Z) : list Z :=
  match size with
  | O => []
  | S n => v mod 256 :: toBytes n (v / 256)
  end.

Fixpoint ofBytes (bs : list Z) : Z :=
  match bs with
  | [] => 0
  | b :: bs' => b + 256 * ofBytes bs'
  end.

(** Modelled from the spec: the external arbitrary-precision decimal to
    binary conversion, unsigned: the decimal digits of a number into a
    fixed slot of [size] bytes, least significant byte first; a character
    that is not a digit, or a number that does not fit, is refused. *)
Definition decimalToBinary (size : nat) (s : string) : result (list Z) :=
  match JSString.digitsValue 0 (JSString.codes s) with
  | None => Throw ExternalError
  | Some v =>
      if v <? 256 ^ Z.of_nat size then Ok (toBytes size v)
      else Throw ExternalError
  end.

(** Modelled from the spec: the external signed big-integer codec: an
    optional leading minus sign, then digits, into a fixed slot of [size]
    bytes in two's complement. *)
Definition signedDecimalToBinary (size : nat) (s : string) : result (list Z) :=
  let negative := match s with String "-"%char _ => true | _ => false end in
  let digits := if negative then JSString.substr s 1 None else s in
  match JSString.digitsValue 0 (JSString.codes digits) with
  | None => Throw ExternalError
  | Some m =>
      let v := if negative then - m else m in
      if (- 2 ^ (8 * Z.of_nat size - 1) <=? v) && (v <? 2 ^ (8 * Z.of_nat size - 1))
      then Ok (toBytes size v)
      else Throw ExternalError
  end.

Definition padZeros (minDigits : nat) (s : string) : string :=
  JSString.ofCodes (repeat 48 (minDigits - String.length s)) ++ s.

(** Modelled from the spec: the external decoder of an unsigned slot to a
    decimal string of at least [minDigits] digits. *)
Definition binaryToDecimal (bignum : list Z) (minDigits : nat) : string :=
  padZeros minDigits (JSString.decimal (ofBytes bignum)).

(** Modelled from the spec: the external signed decoder: a slot whose top
    bit is set is a negative number, written with a leading minus sign. *)
Definition signedBinaryToDecimal (bignum : list Z) (minDigits : nat) : string :=
  let v := ofBytes bignum in
  if 2 ^ (8 * Z.of_nat (List.length bignum) - 1) <=? v
  then String "-"%char
         (padZeros minDigits (JSString.decimal (2 ^ (8 * Z.of_nat (List.length bignum)) - v)))
  else padZeros minDigits (JSString.decimal v).

End numeric.

(** ** The byte buffer *)

(** [TypedArray.prototype.set(src, offset)]: every element is converted with
  ToUint8; a source that does not fit raises RangeError. *)
Definition typed_set (dst src : list Z) (offset : nat) : result (list Z) :=
if (offset + List.length src <=? List.length dst)%nat
then Ok (firstn offset dst ++ map JS.toUint8 src
           ++ skipn (offset + List.length src) dst)
else Throw JsRangeError.

Module SerialBuffer.

Record t : Type := mk
  { length : nat;        (* bytes written *)
    array : list Z;      (* Uint8Array storage, capacity = its length *)
    readPos : nat }.     (* read cursor *)

(** [new SerialBuffer()] *)
Definition new : t := {| length := 0; array := repeat 0 1024; readPos := 0 |}.

(** [Math.ceil(l * 1.5)] *)
Definition grow (l : nat) : nat := ((3 * l + 1) / 2)%nat.

(** [while (this.length + size > l) l = Math.ceil(l * 1.5);] *)
Fixpoint reserve_loop (fuel need l : nat) : result nat :=
  match fuel with
  | O => OutOfFuel
  | S fuel' =>
      if (l <? need)%nat then reserve_loop fuel' need (grow l) else Ok l
  end.

Definition reserve (b : t) (size : nat) : result t :=
  if (length b + size <=? List.length (array b))%nat then Ok b
  else
    l <- reserve_loop (S (length b + size)) (length b + size)
           (List.length (array b)) ;;
    newArray <- typed_set (repeat 0 l) (array b) 0 ;;
    Ok {| length := length b; array := newArray; readPos := readPos b |}.

Definition pushArray (b : t) (v : list Z) : result t :=
  b1 <- reserve b (List.length v) ;;
  a <- typed_set (array b1) v (length b1) ;;
  Ok {| length := length b1 + List.length v; array := a;
        readPos := readPos b1 |}.

(** [push(...v)] *)
Definition push (b : t) (v : list Z) : result t := pushArray b v.

Definition get (b : t) : result (Z * t) :=
  if (readPos b <? length b)%nat
  then Ok (nth (readPos b) (array b) 0,
           {| length := length b; array := array b;
              readPos := S (readPos b) |})
  else Throw BufferUnderrun.

Definition pushUint8ArrayChecked (b : t) (v : list Z) (len : nat) : result t :=
  if negb (List.length v =? len)%nat then Throw SizeMismatch
  else pushArray b v.

Definition getUint8Array (b : t) (len : nat) : result (list Z * t) :=
  if (length b <? readPos b + len)%nat then Throw BufferUnderrun
  else Ok (firstn len (skipn (readPos b) (array b)),
           {| length := length b; array := array b;
              readPos := readPos b + len |}).

(** [pushVaruint32]: the [while (true)] loop.  [v >>> 7] is below 2^25
    after the first round and loses seven bits per round, so five rounds
    are always enough (lemma [pushVaruint32_total]). *)
Fixpoint pushVaruint32_loop (fuel : nat) (b : t) (v : Z) : result t :=
  match fuel with
  | O => OutOfFuel
  | S fuel' =>
      if JS.truthy (JS.ushr v 7) then
        b1 <- push b [JS.bor 0x80 (JS.band v 0x7f)] ;;
        pushVaruint32_loop fuel' b1 (JS.ushr v 7)
      else push b [v]
  end.

Definition pushVaruint32 (b : t) (v : Z) : result t :=
  pushVaruint32_loop 5 b v.

(** [getVaruint32]: each round reads one byte, so the number of unread
    bytes plus one bounds the rounds. *)
Fixpoint getVaruint32_loop (fuel : nat) (b : t) (v bit : Z) : result (Z * t) :=
  match fuel with
  | O => OutOfFuel
  | S fuel' =>
      '(byte, b1) <- get b ;;
      let v := JS.bor v (JS.shl (JS.band byte 0x7f) bit) in
      let bit := bit + 7 in
      if negb (JS.truthy (JS.band byte 0x80)) then Ok (JS.ushr v 0, b1)
      else getVaruint32_loop fuel' b1 v bit
  end.

Definition getVaruint32 (b : t) : result (Z * t) :=
  getVaruint32_loop (S (length b - readPos b)) b 0 0.

Definition pushVarint32 (b : t) (v : Z) : result t :=
  pushVaruint32 b (JS.bxor (JS.shl v 1) (JS.shr v 31)).

Definition getVarint32 (b : t) : result (Z * t) :=
  '(v, b1) <- getVaruint32 b ;;
  if JS.truthy (JS.band v 1)
  then Ok (JS.bor (JS.shr (JS.bnot v) 1) 0x80000000, b1)
  else Ok (JS.ushr v 1, b1).

(** *** Fixed-width integers *)

Definition pushUint16 (b : t) (v : Z) : result t :=
  push b [JS.band (JS.shr v 0) 0xff; JS.band (JS.shr v 8) 0xff].

Definition getUint16 (b : t) : result (Z * t) :=
  let v := 0 in
  '(x, b) <- get b ;;
  let v := JS.bor v (JS.shl x 0) in
  '(x, b) <- get b ;;
  let v := JS.bor v (JS.shl x 8) in
  Ok (v, b).

Definition pushUint32 (b : t) (v : Z) : result t :=
  push b [JS.band (JS.shr v 0) 0xff; JS.band (JS.shr v 8) 0xff;
          JS.band (JS.shr v 16) 0xff; JS.band (JS.shr v 24) 0xff].

Definition getUint32 (b : t) : result (Z * t) :=
  let v := 0 in
  '(x, b) <- get b ;;
  let v := JS.bor v (JS.shl x 0) in
  '(x, b) <- get b ;;
  let v := JS.bor v (JS.shl x 8) in
  '(x, b) <- get b ;;
  let v := JS.bor v (JS.shl x 16) in
  '(x, b) <- get b ;;
  let v := JS.bor v (JS.shl x 24) in
  Ok (JS.ushr v 0, b).

(** [pushNumberAsUint64], for an integer-valued number [v];
    [Math.floor(v / 0x100000000)] is the rounded-down quotient. *)
Definition pushNumberAsUint64 (b : t) (v : Z) : result t :=
  b <- pushUint32 b (JS.ushr v 0) ;;
  pushUint32 b (JS.ushr (v / 0x100000000) 0).

(** [getUint64AsNumber]: the sum is a JavaScript number, exact below 2^53;
    a larger one would be rounded and leaves the integer fragment. *)
Definition getUint64AsNumber (b : t) : result (Z * t) :=
  '(low, b) <- getUint32 b ;;
  '(high, b) <- getUint32 b ;;
  let r := JS.ushr high 0 * 0x100000000 + JS.ushr low 0 in
  if r <? 2 ^ 53 then Ok (r, b) else Throw Unmodelled.

(** *** Packed names *)

Definition charToSymbol (c : Z) : Z :=
  if (97 <=? c) && (c <=? 122) then (c - 97) + 6
  else if (49 <=? c) && (c <=? 53) then (c - 49) + 1
  else 0.

(** [a[i] = x] on a [Uint8Array]: the value is converted with ToUint8, a
    write outside the array is ignored. *)
Fixpoint typed_store (a : list Z) (i : nat) (x : Z) : list Z :=
  match a, i with
  | [], _ => []
  | _ :: a', O => JS.toUint8 x :: a'
  | y :: a', S i' => y :: typed_store a' i' x
  end.

(** One round of the inner loop of [pushName]:
    [if (bit >= 0) { a[Math.floor(bit / 8)] |= ((c >> j) & 1) << (bit % 8); --bit; }] *)
Definition pushName_bit (c : Z) (st : list Z * Z) (j : Z) : list Z * Z :=
  let '(a, bit) := st in
  if 0 <=? bit then
    let i := Z.to_nat (bit / 8) in
    (typed_store a i
       (JS.bor (nth i a 0) (JS.shl (JS.band (JS.shr c j) 1) (bit mod 8))),
     bit - 1)
  else st.

(** One round of the outer loop of [pushName], for the code unit [ch]. *)
Definition pushName_char (st : list Z * Z) (ch : Z) : list Z * Z :=
  let c := charToSymbol ch in
  let c := if snd st <? 5 then JS.shl c 1 else c in
  fold_left (pushName_bit c) [4; 3; 2; 1; 0] st.

Definition packName (s : string) : list Z :=
  fst (fold_left pushName_char (JSString.codes s) (repeat 0 8, 63)).

Definition pushName (b : t) (s : string) : result t :=
  pushArray b (packName s).

(** One round of the inner loop of [getName]:
    [if (bit >= 0) { c = (c << 1) | ((a[Math.floor(bit / 8)] >> (bit % 8)) & 1); --bit; }] *)
Definition getName_bit (a : list Z) (st : Z * Z) : Z * Z :=
  let '(c, bit) := st in
  if 0 <=? bit then
    (JS.bor (JS.shl c 1)
       (JS.band (JS.shr (nth (Z.to_nat (bit / 8)) a 0) (bit mod 8)) 1),
     bit - 1)
  else st.

Definition symbolToChar (c : Z) : ascii :=
  if 6 <=? c then JSString.fromCharCode (c + 97 - 6)
  else if 1 <=? c then JSString.fromCharCode (c + 49 - 1)
  else "."%char.

(** [for (let bit = 63; bit >= 0;) { ... }]: every round lowers [bit], so
    65 rounds of fuel are never used up (lemma [getName_loop_total]). *)
Fixpoint getName_loop (fuel : nat) (a : list Z) (bit : Z) (res : string)
  : result string :=
  match fuel with
  | O => OutOfFuel
  | S fuel' =>
      if 0 <=? bit then
        let '(c, bit') := Nat.iter 5 (getName_bit a) (0, bit) in
        getName_loop fuel' a bit' (res ++ String (symbolToChar c) EmptyString)
      else Ok res
  end.

(** [while (result.endsWith('.')) result = result.substr(0, result.length - 1);] *)
Fixpoint stripDots (fuel : nat) (res : string) : result string :=
  match fuel with
  | O => OutOfFuel
  | S fuel' =>
      if JSString.endsWith res "." then
        stripDots fuel' (JSString.substr res 0 (Some (JSString.len res - 1)))
      else Ok res
  end.

Definition unpackName (a : list Z) : result string :=
  res <- getName_loop 65 a 63 EmptyString ;;
  if String.eqb res "............." then Ok res
  else stripDots (S (String.length res)) res.

Definition getName (b : t) : result (string * t) :=
  '(a, b) <- getUint8Array b 8 ;;
  s <- unpackName a ;;
  Ok (s, b).

(** *** Bytes and strings *)

Definition pushBytes (b : t) (v : list Z) : result t :=
  b <- pushVaruint32 b (Z.of_nat (List.length v)) ;;
  pushArray b v.

Definition getBytes (b : t) : result (list Z * t) :=
  '(n, b) <- getVaruint32 b ;;
  getUint8Array b (Z.to_nat n).

Definition pushString (b : t) (v : string) : result t :=
  pushBytes b (textEncoder_encode v).

Definition getString (b : t) : result (string * t) :=
  '(bs, b) <- getBytes b ;;
  s <- textDecoder_decode bs ;;
  Ok (s, b).

(** *** Symbol codes, symbols and assets *)

(** [while (a.length < 8) a.push(0); ... a.slice(0, 8)] *)
Definition padTo8 (a : list Z) : list Z :=
  firstn 8 (a ++ repeat 0 (8 - List.length a)).

(** [for (len = 0; len < a.length; ++len) if (!a[len]) break;] and the view
    of the first [len] bytes. *)
Fixpoint untilZero (a : list Z) : list Z :=
  match a with
  | [] => []
  | x :: a' => if JS.truthy x then x :: untilZero a' else []
  end.

Definition pushSymbolCode (b : t) (name : string) : result t :=
  pushArray b (padTo8 (textEncoder_encode name)).

Definition getSymbolCode (b : t) : result (string * t) :=
  '(a, b) <- getUint8Array b 8 ;;
  name <- textDecoder_decode (untilZero a) ;;
  Ok (name, b).

Record Symbol : Type := mkSymbol { name : string; precision : Z }.

Definition pushSymbol (b : t) (s : Symbol) : result t :=
  pushArray b (padTo8 (JS.band (precision s) 0xff :: textEncoder_encode (name s))).

Definition getSymbol (b : t) : result (Symbol * t) :=
  '(precision, b) <- get b ;;
  '(a, b) <- getUint8Array b 7 ;;
  name <- textDecoder_decode (untilZero a) ;;
  Ok ({| name := name; precision := precision |}, b).

(** [while (pos < s.length && s.charCodeAt(pos) >= '0' && s.charCodeAt(pos) <= '9')]:
    the digits at the cursor and the rest of the string. *)
Fixpoint spanDigits (s : string) : string * string :=
  match s with
  | EmptyString => (EmptyString, EmptyString)
  | String c s' =>
      if JSString.isDigit (JSString.code c)
      then let '(d, r) := spanDigits s' in (String c d, r)
      else (EmptyString, s)
  end.

Definition pushAsset (b : t) (s : string) : result t :=
  let s := JSString.trim s in
  let '(amount, s) :=
    match s with
    | String "-"%char r => ("-"%string, r)
    | _ => (EmptyString, s)
    end in
  let '(digits, s) := spanDigits s in
  let foundDigit := negb (String.length digits =? 0)%nat in
  let amount := (amount ++ digits)%string in
  if negb foundDigit then Throw MalformedAsset
  else
    let '(fraction, s) :=
      match s with
      | String "."%char r => spanDigits r
      | _ => (EmptyString, s)
      end in
    let amount := (amount ++ fraction)%string in
    let precision := Z.of_nat (String.length fraction) in
    let name := JSString.trim s in
    bin <- numeric.signedDecimalToBinary 8 amount ;;
    b <- pushArray b bin ;;
    pushSymbol b {| name := name; precision := precision |}.

Definition getAsset (b : t) : result (string * t) :=
  '(amount, b) <- getUint8Array b 8 ;;
  '(sym, b) <- getSymbol b ;;
  let s := numeric.signedBinaryToDecimal amount (Z.to_nat (precision sym + 1)) in
  let s :=
    if JS.truthy (precision sym) then
      (JSString.substr s 0 (Some (JSString.len s - precision sym))
         ++ "." ++ JSString.substr s (JSString.len s - precision sym) None)%string
    else s in
  Ok ((s ++ " " ++ name sym)%string, b).

(** [asUint8Array()] *)
Definition asUint8Array (b : t) : list Z := firstn (length b) (array b).

(** The bytes not yet read. *)
Definition unread (b : t) : list Z :=
  skipn (readPos b) (asUint8Array b).

(** Class invariant: cursors are ordered and inside the storage, the
    storage is never empty (it starts at 1024 and only grows) and holds
    bytes. *)
Definition wf (b : t) : Prop :=
  (readPos b <= length b)%nat /\
  (length b <= List.length (array b))%nat /\
  (0 < List.length (array b))%nat /\
  Forall (fun x => 0 <= x < 256) (array b).

End SerialBuffer.

Module SB := SerialBuffer.

(** ** Notions used to state the properties *)

(** What "append-only" means for one write that took [n] bytes. *)
Definition appended (b b' : SB.t) (n : nat) : Prop :=
  (forall i, (i < SB.length b)%nat -> nth i (SB.array b') 0 = nth i (SB.array b) 0) /\
  SB.length b' = (SB.length b + n)%nat /\
  SB.readPos b' = SB.readPos b.

(** The buffer after [n] more bytes have been read. *)
Definition advance (b : SB.t) (n : nat) : SB.t :=
  {| SB.length := SB.length b; SB.array := SB.array b;
     SB.readPos := SB.readPos b + n |}.

(** The varuint32 wire form of [u]: seven payload bits per byte, least
    significant group first, bit 7 set on every byte but the last.  [n]
    bounds the number of bytes. *)
Fixpoint leb128 (n : nat) (u : Z) : list Z :=
  match n with
  | O => []
  | S n' => if u <? 128 then [u] else (128 + u mod 128) :: leb128 n' (u / 128)
  end.

(** [bs] is the shortest varuint form of [u]: every byte but the last carries
    the continuation flag, the last does not, and no shorter sequence of
    seven-bit groups can hold [u]. *)
Definition minimal_varuint (u : Z) (bs : list Z) : Prop :=
  bs <> [] /\
  0 <= last bs 0 < 128 /\
  Forall (fun x => 128 <= x < 256) (removelast bs) /\
  u < 2 ^ (7 * Z.of_nat (List.length bs)) /\
  ((1 < List.length bs)%nat -> 2 ^ (7 * (Z.of_nat (List.length bs) - 1)) <= u).

(** The zigzag image of a signed value, read as an unsigned word. *)
Definition zigzag (v : Z) : Z := JS.toUint32 (JS.bxor (JS.shl v 1) (JS.shr v 31)).

(** A read that stays inside the written part: the storage and the written
    length are untouched and the cursor moves forward, not past the end. *)
Definition read_within (b b' : SB.t) : Prop :=
  SB.length b' = SB.length b /\
  SB.array b' = SB.array b /\
  (SB.readPos b <= SB.readPos b' <= SB.length b)%nat.


(** Eight bytes. *)
Definition bytes8 (a : list Z) : Prop :=
  List.length a = 8%nat /\ Forall (fun x => 0 <= x < 256) a.

(** The codes packed in a 64-bit number [N], most significant first: [n]
    codes are left, the last of them in the low four bits, every other one
    in the five bits above. *)
Fixpoint codes_from (n : nat) (N : Z) : list Z :=
  match n with
  | O => []
  | S n' =>
      match n' with
      | O => [N mod 16]
      | S _ => (N / 2 ^ (5 * Z.of_nat n' - 1)) mod 32 :: codes_from n' N
      end
  end.

(** The thirteen codes of a packed name, the eight bytes read as a
    little-endian number. *)
Definition name_codes (a : list Z) : list Z :=
  codes_from 13 (numeric.ofBytes a).

(** Code 0 is [.], 1..5 are [1]..[5], 6..31 are [a]..[z]. *)
Definition code_char (c : Z) : ascii :=
  if c =? 0 then "."%char
  else if c <=? 5 then JSString.fromCharCode (48 + c)
  else JSString.fromCharCode (91 + c).

Fixpoint string_of_chars (l : list ascii) : string :=
  match l with
  | [] => EmptyString
  | c :: l' => String c (string_of_chars l')
  end.

(** The string without its trailing dots. *)
Fixpoint strip_dots (s : string) : string :=
  match s with
  | EmptyString => EmptyString
  | String c s' =>
      match strip_dots s' with
      | EmptyString => if Ascii.eqb c "."%char then EmptyString else String c EmptyString
      | t => String c t
      end
  end.

(** The text of a packed name as the specification words it: thirteen
    characters from the codes, trailing dots stripped, unless all thirteen
    are dots. *)
Definition name_text (a : list Z) : string :=
  let s := string_of_chars (map code_char (name_codes a)) in
  if String.eqb s "............." then s else strip_dots s.
(** ** Symbol and hex conversions *)

(** The value of [+m[1]] for a string of decimal digits is exact below
    2^53. *)
Definition stringToSymbol (s : string) : result SB.Symbol :=
  (* s.match(/^([0-9]+),([A-Z]+)$/) *)
  let '(digits, rest) := SB.spanDigits s in
  match rest with
  | String ","%char letters =>
      if negb (String.length digits =? 0)%nat
         && negb (String.length letters =? 0)%nat
         && forallb (fun c => (65 <=? c) && (c <=? 90)) (JSString.codes letters)
      then
        match JSString.digitsValue 0 (JSString.codes digits) with
        | Some p =>
            if p <? 2 ^ 53
            then Ok {| SB.name := letters; SB.precision := p |}
            else Throw Unmodelled
        | None => Throw InvalidSymbol
        end
      else Throw InvalidSymbol
  | _ => Throw InvalidSymbol
  end.

Definition symbolToString (s : SB.Symbol) : string :=
  JSString.ofNumber (SB.precision s) ++ "," ++ SB.name s.

(** The digit [d] of [x.toString(16)]. *)
Definition hexDigit (d : Z) : ascii :=
  JSString.fromCharCode (if d <? 10 then 48 + d else 97 + (d - 10)).

(** [x.toString(16)] for a non-negative integer. *)
Fixpoint toString16_loop (fuel : nat) (n : Z) (acc : string) : string :=
  match fuel with
  | O => acc
  | S fuel' =>
      let acc' := String (hexDigit (n mod 16)) acc in
      if n / 16 =? 0 then acc' else toString16_loop fuel' (n / 16) acc'
  end.

Definition toString16 (n : Z) : string :=
  toString16_loop (S (Z.to_nat (Z.log2 n))) n EmptyString.

(** [toUpperCase] on the letters a..z, the only ones a hex string has. *)
Definition toUpperCase (s : string) : string :=
  JSString.ofCodes
    (map (fun c => if (97 <=? c) && (c <=? 122) then c - 32 else c)
       (JSString.codes s)).

Definition arrayToHex (data : list Z) : string :=
  let result :=
    fold_left (fun result x =>
                 (result ++ JSString.substr ("00" ++ toString16 x) (-2) None)%string)
      data EmptyString in
  toUpperCase result.

Definition hexDigitValue (c : Z) : option Z :=
  if (48 <=? c) && (c <=? 57) then Some (c - 48)
  else if (97 <=? c) && (c <=? 102) then Some (c - 97 + 10)
  else if (65 <=? c) && (c <=? 70) then Some (c - 65 + 10)
  else None.

(** The longest prefix of hex digits, as a number; [None] when it is
    empty. *)
Fixpoint hexPrefix (acc : option Z) (l : list Z) : option Z :=
  match l with
  | [] => acc
  | c :: l' =>
      match hexDigitValue c with
      | Some d =>
          hexPrefix (Some (16 * match acc with Some a => a | None => 0 end + d)) l'
      | None => acc
      end
  end.

(** [parseInt(s, 16)]: leading white space, a sign, a [0x] prefix, then the
    longest run of hex digits; [None] is NaN. *)
Definition parseInt16 (s : string) : option Z :=
  let s := JSString.trimStart s in
  let '(sign, s) :=
    match s with
    | String "-"%char r => (-1, r)
    | String "+"%char r => (1, r)
    | _ => (1, s)
    end in
  let s :=
    match s with
    | String "0"%char (String "x"%char r) => r
    | String "0"%char (String "X"%char r) => r
    | _ => s
    end in
  match hexPrefix None (JSString.codes s) with
  | Some v => Some (sign * v)
  | None => None
  end.

(** [hexToUint8Array]: [hex.length / 2] elements (rounded down by the array
    constructor; the write of the odd last character falls outside the
    array); NaN is stored as 0. *)
Definition hexToUint8Array (hex : string) : list Z :=
  map (fun i =>
         JS.toUint8
           match parseInt16 (JSString.substr hex (Z.of_nat i * 2) (Some 2)) with
           | Some v => v
           | None => 0
           end)
    (seq 0 (String.length hex / 2)).

(** ** Values *)

(** The values handed to [serialize] and returned by [deserialize]: the
    JSON values, [undefined], and the built-in objects a property read can
    reach through the prototype of a plain object.  An object [VObj] is a
    plain object (its prototype is [Object.prototype]), given by the list of
    its own properties in insertion order.  [VBuiltin key] is the value of
    [Object.prototype[key]]: a built-in function, or for [__proto__] the
    prototype object itself. *)
#[warnings="-register-all"]
Inductive value : Type :=
| VUndefined
| VNull
| VBool (b : bool)
| VNum (n : Z)
| VStr (s : string)
| VArr (items : list value)
| VObj (props : list (string * value))
| VBuiltin (key : string).

(** The own property [key] of an object, if it has one. *)
Fixpoint prop_get (props : list (string * value)) (key : string) : option value :=
  match props with
  | [] => None
  | (k, v) :: props' => if String.eqb k key then Some v else prop_get props' key
  end.

(** The property names of [Object.prototype], which every plain object
    inherits. *)
Definition object_prototype_keys : list string :=
  ["constructor"; "__defineGetter__"; "__defineSetter__"; "hasOwnProperty";
   "__lookupGetter__"; "__lookupSetter__"; "isPrototypeOf";
   "propertyIsEnumerable"; "toString"; "valueOf"; "__proto__";
   "toLocaleString"]%string.

Definition inherited (key : string) : bool :=
  existsb (String.eqb key) object_prototype_keys.

(** [key in obj]: an own property or an inherited one. *)
Definition prop_in (props : list (string * value)) (key : string) : bool :=
  match prop_get props key with
  | Some _ => true
  | None => inherited key
  end.

(** [obj[key]]: the own property, else the inherited one, else
    [undefined]. *)
Definition prop_read (props : list (string * value)) (key : string) : value :=
  match prop_get props key with
  | Some v => v
  | None => if inherited key then VBuiltin key else VUndefined
  end.

(** An own property is set: an existing one keeps its place. *)
Fixpoint prop_set (props : list (string * value)) (key : string) (v : value)
  : list (string * value) :=
  match props with
  | [] => [(key, v)]
  | (k, v0) :: props' =>
      if String.eqb k key then (k, v) :: props'
      else (k, v0) :: prop_set props' key v
  end.

(** [obj[key] = v] on a plain object.  The properties of [Object.prototype]
    are writable data properties, which an assignment shadows with an own
    property, except [__proto__]: an accessor, whose setter does nothing
    for a primitive [v] and replaces the prototype for an object or [null],
    which gives an object that is not plain ([Unmodelled]). *)
Definition prop_assign (props : list (string * value)) (key : string) (v : value)
  : result (list (string * value)) :=
  match prop_get props key with
  | None =>
      if String.eqb key "__proto__" then
        match v with
        | VUndefined | VBool _ | VNum _ | VStr _ => Ok props
        | VNull | VArr _ | VObj _ | VBuiltin _ => Throw Unmodelled
        end
      else Ok (prop_set props key v)
  | Some _ => Ok (prop_set props key v)
  end.

(** Truthiness, as in [data ? 1 : 0]. *)
Definition value_truthy (v : value) : bool :=
  match v with
  | VUndefined | VNull => false
  | VBool b => b
  | VNum n => JS.truthy n
  | VStr s => negb (String.length s =? 0)%nat
  | VArr _ | VObj _ | VBuiltin _ => true
  end.

(** A value as an operand of the integer conversions ([>>], [>>>], [&],
    [<<], the store into a [Uint8Array]): its [ToNumber], with NaN, which
    each of these conversions takes to 0, represented by 0.  [undefined]
    and the built-in objects convert to NaN.  Strings, arrays and objects,
    whose conversion goes through the platform's number grammar and their
    [toString], are [Unmodelled]. *)
Definition intOperand (v : value) : result Z :=
  match v with
  | VNum n => Ok n
  | VBool b => Ok (if b then 1 else 0)
  | VNull => Ok 0
  | VUndefined | VBuiltin _ => Ok 0
  | VStr _ | VArr _ | VObj _ => Throw Unmodelled
  end.

(** ** Type objects *)

(** The primitive types of [createInitialTypes], in source order. *)
Inductive prim : Type :=
| P_bool | P_uint8 | P_int8 | P_uint16 | P_int16 | P_uint32 | P_uint64
| P_int64 | P_int32 | P_varuint32 | P_varint32 | P_uint128 | P_int128
| P_float32 | P_float64 | P_float128 | P_bytes | P_string | P_name
| P_time_point | P_time_point_sec | P_block_timestamp_type | P_symbol_code
| P_symbol | P_asset | P_checksum160 | P_checksum256 | P_checksum512
| P_public_key | P_private_key | P_signature.

Definition prim_name (p : prim) : string :=
  match p with
  | P_bool => "bool" | P_uint8 => "uint8" | P_int8 => "int8"
  | P_uint16 => "uint16" | P_int16 => "int16" | P_uint32 => "uint32"
  | P_uint64 => "uint64" | P_int64 => "int64" | P_int32 => "int32"
  | P_varuint32 => "varuint32" | P_varint32 => "varint32"
  | P_uint128 => "uint128" | P_int128 => "int128"
  | P_float32 => "float32" | P_float64 => "float64" | P_float128 => "float128"
  | P_bytes => "bytes" | P_string => "string" | P_name => "name"
  | P_time_point => "time_point" | P_time_point_sec => "time_point_sec"
  | P_block_timestamp_type => "block_timestamp_type"
  | P_symbol_code => "symbol_code" | P_symbol => "symbol" | P_asset => "asset"
  | P_checksum160 => "checksum160" | P_checksum256 => "checksum256"
  | P_checksum512 => "checksum512" | P_public_key => "public_key"
  | P_private_key => "private_key" | P_signature => "signature"
  end.

Definition all_prims : list prim :=
  [P_bool; P_uint8; P_int8; P_uint16; P_int16; P_uint32; P_uint64; P_int64;
   P_int32; P_varuint32; P_varint32; P_uint128; P_int128; P_float32;
   P_float64; P_float128; P_bytes; P_string; P_name; P_time_point;
   P_time_point_sec; P_block_timestamp_type; P_symbol_code; P_symbol;
   P_asset; P_checksum160; P_checksum256; P_checksum512; P_public_key;
   P_private_key; P_signature].

(** The functions a Type object can carry in its [serialize] and
    [deserialize] properties: the five named functions of the source and
    the methods written inline for each primitive. *)
Inductive serializer : Type :=
| serializeUnknown
| serializeStruct
| serializeArray
| serializeOptional
| serializePrim (p : prim).

Inductive deserializer : Type :=
| deserializeUnknown
| deserializeStruct
| deserializeArray
| deserializeOptional
| deserializePrim (p : prim).

(** Type objects are mutable and shared: they live in a heap and are
    referred to by address. *)
Definition ref : Type := nat.

Module Field.
Record t : Type := mk
  { name : string;
    typeName : string;
    type : option ref }.
End Field.

Module TypeObj.
Record t : Type := mk
  { name : string;
    aliasOfName : string;
    arrayOf : option ref;
    optionalOf : option ref;
    baseName : string;
    base : option ref;
    fields : list Field.t;
    serialize : serializer;
    deserialize : deserializer }.
End TypeObj.

Definition heap : Type := list TypeObj.t.

Definition deref (h : heap) (r : ref) : option TypeObj.t := nth_error h r.

(** A new object, at the first free address. *)
Definition alloc (h : heap) (t : TypeObj.t) : ref * heap :=
  (List.length h, h ++ [t]).

(** The heap with the object at [r] replaced. *)
Fixpoint store (h : heap) (r : ref) (t : TypeObj.t) : heap :=
  match h, r with
  | [], _ => []
  | _ :: h', O => t :: h'
  | x :: h', S r' => x :: store h' r' t
  end.

(** The attributes [createType] is called with. *)
Inductive attr : Type :=
| a_name (s : string)
| a_aliasOfName (s : string)
| a_arrayOf (r : ref)
| a_optionalOf (r : ref)
| a_baseName (s : string)
| a_base (r : ref)
| a_fields (l : list Field.t)
| a_serialize (f : serializer)
| a_deserialize (f : deserializer).

Definition apply_attr (t : TypeObj.t) (a : attr) : TypeObj.t :=
  let '(TypeObj.mk n al ar op bn b fs s d) := t in
  match a with
  | a_name x => TypeObj.mk x al ar op bn b fs s d
  | a_aliasOfName x => TypeObj.mk n x ar op bn b fs s d
  | a_arrayOf x => TypeObj.mk n al (Some x) op bn b fs s d
  | a_optionalOf x => TypeObj.mk n al ar (Some x) bn b fs s d
  | a_baseName x => TypeObj.mk n al ar op x b fs s d
  | a_base x => TypeObj.mk n al ar op bn (Some x) fs s d
  | a_fields x => TypeObj.mk n al ar op bn b x s d
  | a_serialize x => TypeObj.mk n al ar op bn b fs x d
  | a_deserialize x => TypeObj.mk n al ar op bn b fs s x
  end.

(** [createType(attrs)]: the defaults, overridden by [attrs]. *)
Definition createType (attrs : list attr) : TypeObj.t :=
  fold_left apply_attr attrs
    {| TypeObj.name := "<missing name>";
       TypeObj.aliasOfName := "";
       TypeObj.arrayOf := None;
       TypeObj.optionalOf := None;
       TypeObj.baseName := "";
       TypeObj.base := None;
       TypeObj.fields := [];
       TypeObj.serialize := serializeUnknown;
       TypeObj.deserialize := deserializeUnknown |}.

(** ** Registries *)

(** A [Map<string, Type>]: the entries in insertion order, keys unique. *)
Definition TypeMap : Type := list (string * ref).

Fixpoint map_get (m : TypeMap) (key : string) : option ref :=
  match m with
  | [] => None
  | (k, r) :: m' => if String.eqb k key then Some r else map_get m' key
  end.

(** [m.set(key, r)]: a key already present keeps its place. *)
Fixpoint map_set (m : TypeMap) (key : string) (r : ref) : TypeMap :=
  match m with
  | [] => [(key, r)]
  | (k, r0) :: m' =>
      if String.eqb k key then (k, r) :: m'
      else (k, r0) :: map_set m' key r
  end.

(** [createInitialTypes()]: one object per primitive, in source order, then
    the struct [extended_asset], whose fields refer to the objects of
    [asset] and [name]. *)
Definition createInitialTypes (h : heap) : TypeMap * heap :=
  let '(result, h) :=
    fold_left
      (fun '(result, h) p =>
         let '(r, h) :=
           alloc h (createType [a_name (prim_name p);
                                a_serialize (serializePrim p);
                                a_deserialize (deserializePrim p)]) in
         (map_set result (prim_name p) r, h))
      all_prims ([], h) in
  let '(r, h) :=
    alloc h (createType
               [a_name "extended_asset";
                a_baseName "";
                a_fields
                  [ {| Field.name := "quantity"; Field.typeName := "asset";
                       Field.type := map_get result "asset" |};
                    {| Field.name := "contract"; Field.typeName := "name";
                       Field.type := map_get result "name" |} ];
                a_serialize serializeStruct;
                a_deserialize deserializeStruct]) in
  (map_set result "extended_asset" r, h).

(** [getType(types, name)].  The recursion follows alias names and strips
    suffixes; an alias cycle never returns, which is the [OutOfFuel]
    outcome for every amount of fuel.  The synthesized array and optional
    types are new objects that no map refers to. *)
Fixpoint getType (fuel : nat) (h : heap) (types : TypeMap) (name : string)
  : result (ref * heap) :=
  match fuel with
  | O => OutOfFuel
  | S fuel' =>
      let type := match map_get types name with
                  | Some r => match deref h r with
                              | Some t => Some (r, t)
                              | None => None
                              end
                  | None => None
                  end in
      match type with
      | Some (r, t) =>
          if negb (String.length (TypeObj.aliasOfName t) =? 0)%nat
          then getType fuel' h types (TypeObj.aliasOfName t)
          else Ok (r, h)
      | None =>
          if JSString.endsWith name "[]" then
            '(inner, h) <- getType fuel' h types
                             (JSString.substr name 0 (Some (JSString.len name - 2))) ;;
            Ok (alloc h (createType [a_name name; a_arrayOf inner;
                                     a_serialize serializeArray;
                                     a_deserialize deserializeArray]))
          else if JSString.endsWith name "?" then
            '(inner, h) <- getType fuel' h types
                             (JSString.substr name 0 (Some (JSString.len name - 1))) ;;
            Ok (alloc h (createType [a_name name; a_optionalOf inner;
                                     a_serialize serializeOptional;
                                     a_deserialize deserializeOptional]))
          else Throw (UnknownType name)
      end
  end.

(** ** Schemas *)

Module Abi.
Record TypeDef : Type := mkTypeDef { new_type_name : string; type : string }.
Record FieldDef : Type := mkFieldDef { field_name : string; field_type : string }.
Record StructDef : Type := mkStructDef
  { name : string; base : string; fields : list FieldDef }.
Record t : Type := mk { types : list TypeDef; structs : list StructDef }.
End Abi.

(** [field.type = getType(types, field.typeName)] for the fields of the
    object at [r] from index [i] on. *)
Fixpoint resolveFields (fuel : nat) (types : TypeMap) (r : ref)
  (fs : list Field.t) (i : nat) (h : heap) : result heap :=
  match fs with
  | [] => Ok h
  | field :: fs' =>
      '(ft, h) <- getType fuel h types (Field.typeName field) ;;
      let h :=
        match deref h r with
        | Some t =>
            store h r
              (apply_attr t
                 (a_fields
                    (firstn i (TypeObj.fields t)
                       ++ {| Field.name := Field.name field;
                             Field.typeName := Field.typeName field;
                             Field.type := Some ft |}
                       :: skipn (S i) (TypeObj.fields t))))
        | None => h
        end in
      resolveFields fuel types r fs' (S i) h
  end.

(** The body of the last loop of [getTypesFromAbi], for one map entry. *)
Definition resolveEntry (fuel : nat) (types : TypeMap) (h : heap) (r : ref)
  : result heap :=
  match deref h r with
  | None => Throw JsTypeError
  | Some t =>
      h <- (if negb (String.length (TypeObj.baseName t) =? 0)%nat then
              '(b, h) <- getType fuel h types (TypeObj.baseName t) ;;
              match deref h r with
              | Some t => Ok (store h r (apply_attr t (a_base b)))
              | None => Ok h
              end
            else Ok h) ;;
      resolveFields fuel types r (TypeObj.fields t) 0 h
  end.

Fixpoint resolveEntries (fuel : nat) (types : TypeMap) (entries : TypeMap)
  (h : heap) : result heap :=
  match entries with
  | [] => Ok h
  | (_, r) :: entries' =>
      h <- resolveEntry fuel types h r ;;
      resolveEntries fuel types entries' h
  end.

(** [getTypesFromAbi(initialTypes, abi)]: [new Map(initialTypes)] has the
    entries of [initialTypes] and shares its Type objects. *)
Definition getTypesFromAbi (fuel : nat) (h : heap) (initialTypes : TypeMap)
  (abi : Abi.t) : result (TypeMap * heap) :=
  let types := initialTypes in
  let '(types, h) :=
    fold_left
      (fun '(types, h) d =>
         let '(r, h) :=
           alloc h (createType [a_name (Abi.new_type_name d);
                                a_aliasOfName (Abi.type d)]) in
         (map_set types (Abi.new_type_name d) r, h))
      (Abi.types abi) (types, h) in
  let '(types, h) :=
    fold_left
      (fun '(types, h) s =>
         let '(r, h) :=
           alloc h (createType
                      [a_name (Abi.name s);
                       a_baseName (Abi.base s);
                       a_fields
                         (map (fun f =>
                                 {| Field.name := Abi.field_name f;
                                    Field.typeName := Abi.field_type f;
                                    Field.type := None |})
                            (Abi.fields s));
                       a_serialize serializeStruct;
                       a_deserialize deserializeStruct]) in
         (map_set types (Abi.name s) r, h))
      (Abi.structs abi) (types, h) in
  h <- resolveEntries fuel types types h ;;
  Ok (types, h).

(** ** Encoding and decoding through Type objects *)

(** The inline [serialize] methods of the primitives.  [bool] takes any
    value and the integer types any value [intOperand] converts; each of the
    others is modelled on the kind of value it is written for.  A run that
    leaves this fragment is [Unmodelled]: another kind of value (coerced by
    the platform in ways the model does not follow), the floating-point
    types, the date types (the platform's [Date]) and the key types (the
    external key codec). *)
Definition serializePrimitive (p : prim) (b : SB.t) (data : value) : result SB.t :=
  match p, data with
  | P_bool, _ => SB.push b [if value_truthy data then 1 else 0]
  | P_uint8, _ => n <- intOperand data ;; SB.push b [n]
  | P_int8, _ => n <- intOperand data ;; SB.push b [n]
  | P_uint16, _ => n <- intOperand data ;; SB.pushUint16 b n
  | P_int16, _ => n <- intOperand data ;; SB.pushUint16 b n
  | P_uint32, _ => n <- intOperand data ;; SB.pushUint32 b n
  | P_int32, _ => n <- intOperand data ;; SB.pushUint32 b n
  | P_uint64, VStr s =>
      bin <- numeric.decimalToBinary 8 s ;; SB.pushArray b bin
  | P_uint64, VNum n =>
      if Z.abs n <? 2 ^ 53 then
        bin <- numeric.decimalToBinary 8 (JSString.ofNumber n) ;; SB.pushArray b bin
      else Throw Unmodelled
  | P_int64, VStr s =>
      bin <- numeric.signedDecimalToBinary 8 s ;; SB.pushArray b bin
  | P_int64, VNum n =>
      if Z.abs n <? 2 ^ 53 then
        bin <- numeric.signedDecimalToBinary 8 (JSString.ofNumber n) ;;
        SB.pushArray b bin
      else Throw Unmodelled
  | P_varuint32, _ => n <- intOperand data ;; SB.pushVaruint32 b n
  | P_varint32, _ => n <- intOperand data ;; SB.pushVarint32 b n
  | P_uint128, VStr s =>
      bin <- numeric.decimalToBinary 16 s ;; SB.pushArray b bin
  | P_int128, VStr s =>
      bin <- numeric.signedDecimalToBinary 16 s ;; SB.pushArray b bin
  | P_float128, VStr s => SB.pushUint8ArrayChecked b (hexToUint8Array s) 16
  | P_bytes, VStr s => SB.pushBytes b (hexToUint8Array s)
  | P_string, VStr s => SB.pushString b s
  | P_name, VStr s => SB.pushName b s
  | P_symbol_code, VStr s => SB.pushSymbolCode b s
  | P_symbol, VStr s => sym <- stringToSymbol s ;; SB.pushSymbol b sym
  | P_asset, VStr s => SB.pushAsset b s
  | P_checksum160, VStr s => SB.pushUint8ArrayChecked b (hexToUint8Array s) 20
  | P_checksum256, VStr s => SB.pushUint8ArrayChecked b (hexToUint8Array s) 32
  | P_checksum512, VStr s => SB.pushUint8ArrayChecked b (hexToUint8Array s) 64
  | _, _ => Throw Unmodelled
  end.

Definition deserializePrimitive (p : prim) (b : SB.t) : result (value * SB.t) :=
  match p with
  | P_bool => '(x, b) <- SB.get b ;; Ok (VBool (JS.truthy x), b)
  | P_uint8 => '(x, b) <- SB.get b ;; Ok (VNum x, b)
  | P_int8 => '(x, b) <- SB.get b ;; Ok (VNum (JS.shr (JS.shl x 24) 24), b)
  | P_uint16 => '(x, b) <- SB.getUint16 b ;; Ok (VNum x, b)
  | P_int16 => '(x, b) <- SB.getUint16 b ;; Ok (VNum (JS.shr (JS.shl x 16) 16), b)
  | P_uint32 => '(x, b) <- SB.getUint32 b ;; Ok (VNum x, b)
  | P_uint64 =>
      '(a, b) <- SB.getUint8Array b 8 ;; Ok (VStr (numeric.binaryToDecimal a 1), b)
  | P_int64 =>
      '(a, b) <- SB.getUint8Array b 8 ;;
      Ok (VStr (numeric.signedBinaryToDecimal a 1), b)
  | P_int32 => '(x, b) <- SB.getUint32 b ;; Ok (VNum (JS.bor x 0), b)
  | P_varuint32 => '(x, b) <- SB.getVaruint32 b ;; Ok (VNum x, b)
  | P_varint32 => '(x, b) <- SB.getVarint32 b ;; Ok (VNum x, b)
  | P_uint128 =>
      '(a, b) <- SB.getUint8Array b 16 ;; Ok (VStr (numeric.binaryToDecimal a 1), b)
  | P_int128 =>
      '(a, b) <- SB.getUint8Array b 16 ;;
      Ok (VStr (numeric.signedBinaryToDecimal a 1), b)
  | P_float128 => '(a, b) <- SB.getUint8Array b 16 ;; Ok (VStr (arrayToHex a), b)
  | P_bytes => '(a, b) <- SB.getBytes b ;; Ok (VStr (arrayToHex a), b)
  | P_string => '(s, b) <- SB.getString b ;; Ok (VStr s, b)
  | P_name => '(s, b) <- SB.getName b ;; Ok (VStr s, b)
  | P_symbol_code => '(s, b) <- SB.getSymbolCode b ;; Ok (VStr s, b)
  | P_symbol => '(s, b) <- SB.getSymbol b ;; Ok (VStr (symbolToString s), b)
  | P_asset => '(s, b) <- SB.getAsset b ;; Ok (VStr s, b)
  | P_checksum160 => '(a, b) <- SB.getUint8Array b 20 ;; Ok (VStr (arrayToHex a), b)
  | P_checksum256 => '(a, b) <- SB.getUint8Array b 32 ;; Ok (VStr (arrayToHex a), b)
  | P_checksum512 => '(a, b) <- SB.getUint8Array b 64 ;; Ok (VStr (arrayToHex a), b)
  | _ => Throw Unmodelled
  end.

(** [for (let field of this.fields) { ... }] of [serializeStruct], with
    [ser] the call [field.type.serialize].  The [in] test and the property
    read see the inherited properties of a plain object; on an array or a
    built-in object they depend on the platform's prototypes
    ([Unmodelled]). *)
Fixpoint serializeFields (ser : ref -> SB.t -> value -> result SB.t)
  (owner : string) (fs : list Field.t) (b : SB.t) (data : value) : result SB.t :=
  match fs with
  | [] => Ok b
  | field :: fs' =>
      match data with
      | VObj props =>
          if negb (prop_in props (Field.name field)) then
            (* the message reads field.type.name *)
            match Field.type field with
            | Some _ => Throw (MissingField owner (Field.name field))
            | None => Throw JsTypeError
            end
          else
            match Field.type field with
            | Some ft =>
                b <- ser ft b (prop_read props (Field.name field)) ;;
                serializeFields ser owner fs' b data
            | None => Throw JsTypeError
            end
      | VArr _ | VBuiltin _ => Throw Unmodelled
      | _ => Throw JsTypeError   (* [in] applied to a primitive *)
      end
  end.

(** [for (let item of data) this.arrayOf.serialize(buffer, item);] *)
Fixpoint serializeItems (ser : SB.t -> value -> result SB.t)
  (items : list value) (b : SB.t) : result SB.t :=
  match items with
  | [] => Ok b
  | item :: items' => b <- ser b item ;; serializeItems ser items' b
  end.

(** [type.serialize(buffer, data)] for the Type object at [r].  The depth
    of the calls is not bounded by the code (a struct can be its own base),
    hence the fuel. *)
Fixpoint serialize (fuel : nat) (h : heap) (r : ref) (b : SB.t) (data : value)
  : result SB.t :=
  match fuel with
  | O => OutOfFuel
  | S fuel' =>
      match deref h r with
      | None => Throw JsTypeError
      | Some t =>
          match TypeObj.serialize t with
          | serializeUnknown => Throw (UnknownCodec (TypeObj.name t))
          | serializeStruct =>
              b <- match TypeObj.base t with
                   | Some base => serialize fuel' h base b data
                   | None => Ok b
                   end ;;
              serializeFields (serialize fuel' h) (TypeObj.name t)
                (TypeObj.fields t) b data
          | serializeArray =>
              match data with
              | VArr items =>
                  b <- SB.pushVaruint32 b (Z.of_nat (List.length items)) ;;
                  match TypeObj.arrayOf t with
                  | Some inner => serializeItems (serialize fuel' h inner) items b
                  | None =>
                      match items with
                      | [] => Ok b
                      | _ => Throw JsTypeError
                      end
                  end
              | VUndefined | VNull => Throw JsTypeError
              | _ => Throw Unmodelled
              end
          | serializeOptional =>
              match data with
              | VNull | VUndefined => SB.push b [0]
              | _ =>
                  b <- SB.push b [1] ;;
                  match TypeObj.optionalOf t with
                  | Some inner => serialize fuel' h inner b data
                  | None => Throw JsTypeError
                  end
              end
          | serializePrim p => serializePrimitive p b data
          end
      end
  end.

(** [for (let field of this.fields) result[field.name] = field.type.deserialize(buffer);] *)
Fixpoint deserializeFields (des : ref -> SB.t -> result (value * SB.t))
  (fs : list Field.t) (res : value) (b : SB.t) : result (value * SB.t) :=
  match fs with
  | [] => Ok (res, b)
  | field :: fs' =>
      match Field.type field with
      | None => Throw JsTypeError
      | Some ft =>
          '(v, b) <- des ft b ;;
          match res with
          | VObj props =>
              props <- prop_assign props (Field.name field) v ;;
              deserializeFields des fs' (VObj props) b
          | VArr _ | VBuiltin _ => Throw Unmodelled
          | VBool _ | VNum _ | VStr _ =>
              (* strict mode: a property of a primitive cannot be created;
                 the inherited setter [__proto__] is called and does
                 nothing *)
              if String.eqb (Field.name field) "__proto__"
              then deserializeFields des fs' res b
              else Throw JsTypeError
          | VUndefined | VNull => Throw JsTypeError
          end
      end
  end.

(** [for (let i = 0; i < len; ++i) result.push(this.arrayOf.deserialize(buffer));] *)
Fixpoint deserializeItems (des : SB.t -> result (value * SB.t))
  (n : nat) (acc : list value) (b : SB.t) : result (list value * SB.t) :=
  match n with
  | O => Ok (acc, b)
  | S n' => '(v, b) <- des b ;; deserializeItems des n' (acc ++ [v]) b
  end.

Fixpoint deserialize (fuel : nat) (h : heap) (r : ref) (b : SB.t)
  : result (value * SB.t) :=
  match fuel with
  | O => OutOfFuel
  | S fuel' =>
      match deref h r with
      | None => Throw JsTypeError
      | Some t =>
          match TypeObj.deserialize t with
          | deserializeUnknown => Throw (UnknownCodec (TypeObj.name t))
          | deserializeStruct =>
              '(res, b) <- match TypeObj.base t with
                           | Some base => deserialize fuel' h base b
                           | None => Ok (VObj [], b)
                           end ;;
              deserializeFields (deserialize fuel' h) (TypeObj.fields t) res b
          | deserializeArray =>
              '(len, b) <- SB.getVaruint32 b ;;
              match TypeObj.arrayOf t with
              | Some inner =>
                  '(items, b) <- deserializeItems (deserialize fuel' h inner)
                                   (Z.to_nat len) [] b ;;
                  Ok (VArr items, b)
              | None => if len =? 0 then Ok (VArr [], b) else Throw JsTypeError
              end
          | deserializeOptional =>
              '(x, b) <- SB.get b ;;
              if JS.truthy x then
                match TypeObj.optionalOf t with
                | Some inner => deserialize fuel' h inner b
                | None => Throw JsTypeError
                end
              else Ok (VNull, b)
          | deserializePrim p => deserializePrimitive p b
          end
      end
  end.

(** ** Actions *)

Record Contract : Type := mkContract
  { actions : TypeMap;
    types : TypeMap }.

Record Authorization : Type := mkAuthorization
  { actor : string;
    permission : string }.

Module Action.
Record t : Type := mk
  { account : string;
    name : string;
    authorization : list Authorization;
    data : value }.
End Action.

Module SerializedAction.
Record t : Type := mk
  { account : string;
    name : string;
    authorization : list Authorization;
    data : string }.
End SerializedAction.

Definition serializeActionData (fuel : nat) (h : heap) (contract : Contract)
  (account name : string) (data : value) : result string :=
  match map_get (actions contract) name with
  | None => Throw (UnknownAction name account)
  | Some action =>
      let buffer := SB.new in
      buffer <- serialize fuel h action buffer data ;;
      Ok (arrayToHex (SB.asUint8Array buffer))
  end.

Definition serializeAction (fuel : nat) (h : heap) (contract : Contract)
  (account name : string) (authorization : list Authorization) (data : value)
  : result SerializedAction.t :=
  d <- serializeActionData fuel h contract account name data ;;
  Ok {| SerializedAction.account := account;
        SerializedAction.name := name;
        SerializedAction.authorization := authorization;
        SerializedAction.data := d |}.

(** The [data] argument of [deserializeActionData]: a hex string or a byte
    array. *)
Inductive payload : Type :=
| HexString (s : string)
| ByteArray (bytes : list Z).

Definition deserializeActionData (fuel : nat) (h : heap) (contract : Contract)
  (account name : string) (data : payload) : result value :=
  let action := map_get (actions contract) name in
  let data := match data with
              | HexString s => hexToUint8Array s
              | ByteArray bytes => bytes
              end in
  match action with
  | None => Throw (UnknownAction name account)
  | Some action =>
      let buffer := SB.new in
      buffer <- SB.pushArray buffer data ;;
      '(v, _) <- deserialize fuel h action buffer ;;
      Ok v
  end.

Definition deserializeAction (fuel : nat) (h : heap) (contract : Contract)
  (account name : string) (authorization : list Authorization) (data : payload)
  : result Action.t :=
  d <- deserializeActionData fuel h contract account name data ;;
  Ok {| Action.account := account;
        Action.name := name;
        Action.authorization := authorization;
        Action.data := d |}.

(** ** Notions used to state the properties of the codecs *)

(** With enough fuel, the Type object at [r] encodes [v] as the bytes [bs]:
    on every buffer it appends exactly [bs] and leaves the read cursor
    alone. *)
Definition encodes (h : heap) (r : ref) (v : value) (bs : list Z) : Prop :=
  exists n, forall fuel b, (n <= fuel)%nat -> SB.wf b ->
    exists b', serialize fuel h r b v = Ok b' /\
      SB.asUint8Array b' = SB.asUint8Array b ++ bs /\
      SB.readPos b' = SB.readPos b /\
      SB.wf b'.

(** With enough fuel, encoding [v] throws [e], on every buffer. *)
Definition encode_fails (h : heap) (r : ref) (v : value) (e : error) : Prop :=
  exists n, forall fuel b, (n <= fuel)%nat -> SB.wf b ->
    serialize fuel h r b v = Throw e.

(** With enough fuel, the Type object at [r] decodes the bytes [bs] at the
    read cursor to [v] and moves the cursor past them. *)
Definition decodes (h : heap) (r : ref) (bs : list Z) (v : value) : Prop :=
  exists n, forall fuel b rest, (n <= fuel)%nat -> SB.wf b ->
    SB.unread b = bs ++ rest ->
    deserialize fuel h r b = Ok (v, advance b (List.length bs)).

(** The encoding of the base of a struct: nothing when there is no base. *)
Definition base_encodes (h : heap) (base : option ref) (v : value) (bs : list Z) : Prop :=
  match base with
  | Some rb => encodes h rb v bs
  | None => bs = []
  end.

(** The decoding of the base of a struct: the empty object when there is no
    base. *)
Definition base_decodes (h : heap) (base : option ref) (bs : list Z)
  (props : list (string * value)) : Prop :=
  match base with
  | Some rb => decodes h rb bs (VObj props)
  | None => bs = [] /\ props = []
  end.

(** The field's name is a property of the object, own or inherited, and the
    field's type encodes the value read under that name as [bs]. *)
Definition field_encodes (h : heap) (props : list (string * value))
  (f : Field.t) (bs : list Z) : Prop :=
  exists ft, Field.type f = Some ft /\ prop_in props (Field.name f) = true /\
    encodes h ft (prop_read props (Field.name f)) bs.

(** A value that is neither an object nor [null]. *)
Definition primitive (v : value) : Prop :=
  match v with
  | VUndefined | VBool _ | VNum _ | VStr _ => True
  | VNull | VArr _ | VObj _ | VBuiltin _ => False
  end.

(** The type of the field decodes the bytes to the value; under the name
    [__proto__] the value is a primitive (an object there would become the
    prototype of the result). *)
Definition field_decodes (h : heap) (f : Field.t) (item : list Z * value) : Prop :=
  exists ft, Field.type f = Some ft /\ decodes h ft (fst item) (snd item) /\
    (Field.name f = "__proto__"%string -> primitive (snd item)).

Definition has_key (props : list (string * value)) (key : string) : Prop :=
  prop_get props key <> None.

(** The own properties after a primitive has been assigned under [key]:
    the name [__proto__] gets no key unless the object has one already. *)
Definition assigned (props : list (string * value)) (key : string) (v : value)
  : list (string * value) :=
  match prop_get props key with
  | None => if String.eqb key "__proto__" then props else prop_set props key v
  | Some _ => prop_set props key v
  end.

(** The object after [result[field.name] = value] for each field in turn. *)
Fixpoint set_fields (props : list (string * value)) (fs : list Field.t)
  (items : list (list Z * value)) : list (string * value) :=
  match fs, items with
  | f :: fs', item :: items' =>
      set_fields (assigned props (Field.name f) (snd item)) fs' items'
  | _, _ => props
  end.

(** [name] reaches the object at [r] through [n] alias entries. *)
Inductive alias_chain (h : heap) (types : TypeMap) : string -> ref -> nat -> Prop :=
| alias_chain_end name r t :
    map_get types name = Some r -> deref h r = Some t ->
    TypeObj.aliasOfName t = EmptyString ->
    alias_chain h types name r 0
| alias_chain_step name r t target n :
    map_get types name = Some r -> deref h r = Some t ->
    TypeObj.aliasOfName t <> EmptyString ->
    alias_chain h types (TypeObj.aliasOfName t) target n ->
    alias_chain h types name target (S n).

(** The bootstrap registry, on an empty heap, and the compilation of a
    schema against it. *)
Definition initialTypes : TypeMap * heap := createInitialTypes [].

Definition compile (fuel : nat) (abi : Abi.t) : result (TypeMap * heap) :=
  getTypesFromAbi fuel (snd initialTypes) (fst initialTypes) abi.

(** The fixed-width integer types of the registry: the range of values and
    the number of bytes. *)
Definition int_range (p : prim) : option (Z * Z * nat) :=
  match p with
  | P_uint8 => Some (0, 2 ^ 8, 1%nat)
  | P_int8 => Some (- 2 ^ 7, 2 ^ 7, 1%nat)
  | P_uint16 => Some (0, 2 ^ 16, 2%nat)
  | P_int16 => Some (- 2 ^ 15, 2 ^ 15, 2%nat)
  | P_uint32 => Some (0, 2 ^ 32, 4%nat)
  | P_int32 => Some (- 2 ^ 31, 2 ^ 31, 4%nat)
  | _ => None
  end.

(** [b'] is [b] with bytes appended: the earlier bytes and the read cursor
    are as they were and the class invariant holds. *)
Definition extends (b b' : SB.t) : Prop :=
  SB.wf b' /\
  SB.readPos b' = SB.readPos b /\
  exists bs, SB.asUint8Array b' = SB.asUint8Array b ++ bs.

(** The schema declares no alias and no struct under the name [n]. *)
Definition undeclared (abi : Abi.t) (n : string) : Prop :=
  Forall (fun d => Abi.new_type_name d <> n) (Abi.types abi) /\
  Forall (fun s => Abi.name s <> n) (Abi.structs abi).

(** A field whose [type] has been filled in with an object of the heap. *)
Definition field_resolved (h : heap) (f : Field.t) : Prop :=
  exists ft, Field.type f = Some ft /\ (ft < List.length h)%nat.

(** A Type object whose fields, and whose base when it names one, have been
    filled in. *)
Definition links_resolved (h : heap) (t : TypeObj.t) : Prop :=
  Forall (field_resolved h) (TypeObj.fields t) /\
  (TypeObj.baseName t <> EmptyString ->
   exists b, TypeObj.base t = Some b /\ (b < List.length h)%nat).

(** A string of decimal digits that reads as [n] after any digits read
    before it. *)
Definition numeral (ds : string) (n : Z) : Prop :=
  ds <> EmptyString /\
  Forall (fun c => JSString.isDigit c = true) (JSString.codes ds) /\
  forall a, JSString.digitsValue a (JSString.codes ds)
            = Some (a * 10 ^ Z.of_nat (String.length ds) + n).

(** The character code of the upper-case hex digit [d], for [d] in 0..15. *)
Definition upper_hex_digit (d : Z) : Z :=
  if d <? 10 then 48 + d else 65 + (d - 10).

(** The hex text of a byte array: two upper-case digits per byte, the high
    digit first. *)
Definition hex_text (data : list Z) : string :=
  JSString.ofCodes
    (flat_map (fun x => [upper_hex_digit (x / 16); upper_hex_digit (x mod 16)]) data).
(** ** Example schemas *)




(** A schema that declares a struct under the bootstrap name [asset]. *)
Definition abi_shadow : Abi.t :=
  {| Abi.types := [];
     Abi.structs := [ {| Abi.name := "asset"; Abi.base := ""; Abi.fields := [] |} ] |}.

(** [typedef Y X; typedef uint8 Y;] *)
Definition abi_alias : Abi.t :=
  {| Abi.types := [ {| Abi.new_type_name := "X"; Abi.type := "Y" |};
                    {| Abi.new_type_name := "Y"; Abi.type := "uint8" |} ];
     Abi.structs := [] |}.

(** The address of the bootstrap object [extended_asset]: it is allocated
    after the 31 primitives. *)
Definition extended_asset_ref : ref := 31%nat.

(** The objects the fields of the Type object at [r] refer to. *)
Definition field_types (h : heap) (r : ref) : list (option ref) :=
  match deref h r with
  | Some t => map Field.type (TypeObj.fields t)
  | None => []
  end.

(** [struct point { uint8 x; uint8 y; }] *)
Definition abi_point : Abi.t :=
  {| Abi.types := [];
     Abi.structs :=
       [ {| Abi.name := "point"; Abi.base := "";
            Abi.fields := [ {| Abi.field_name := "x"; Abi.field_type := "uint8" |};
                            {| Abi.field_name := "y"; Abi.field_type := "uint8" |} ] |} ] |}.





(** The registry and heap a compilation returned (empty if it failed). *)
Definition compiled (abi : Abi.t) : TypeMap * heap :=
  match compile 4 abi with
  | Ok p => p
  | _ => ([], [])
  end.

(** The object and heap a resolution against the bootstrap registry
    returned. *)
Definition resolved (name : string) : ref * heap :=
  match getType 4 (snd initialTypes) (fst initialTypes) name with
  | Ok p => p
  | _ => (0%nat, [])
  end.

(** The object at address [r] (a default object when the address is
    free). *)
Definition object_at (h : heap) (r : ref) : TypeObj.t := nth r h (createType []).
(* ================================================================== *)
(** * Properties *)

Lemma In_skipn_incl {A} (n : nat) (l : list A) x : In x (skipn n l) -> In x l.
Proof.
  intros H. rewrite <- (firstn_skipn n l). apply in_or_app. right. exact H.
Qed.

Lemma In_firstn_incl {A} (n : nat) (l : list A) x : In x (firstn n l) -> In x l.
Proof.
  intros H. rewrite <- (firstn_skipn n l). apply in_or_app. left. exact H.
Qed.

Lemma toUint8_range x : 0 <= JS.toUint8 x < 256.
Proof. unfold JS.toUint8. apply Z.mod_pos_bound. lia. Qed.

Lemma toUint8_id x : 0 <= x < 256 -> JS.toUint8 x = x.
Proof. intros. unfold JS.toUint8. apply Z.mod_small. lia. Qed.

Lemma Forall_byte_map_toUint8 v : Forall (fun x => 0 <= x < 256) (map JS.toUint8 v).
Proof. induction v; simpl; constructor; auto using toUint8_range. Qed.

Lemma grow_gt l : (1 <= l)%nat -> (l < SB.grow l)%nat.
Proof.
  intros H. unfold SB.grow.
  apply Nat.div_le_lower_bound with (b := 2%nat) (q := S l); lia.
Qed.

Lemma reserve_loop_ok fuel : forall need l,
  (1 <= l)%nat -> (need - l < fuel)%nat ->
  exists l', SB.reserve_loop fuel need l = Ok l' /\ (need <= l')%nat /\ (l <= l')%nat.
Proof.
  induction fuel as [|fuel IH]; intros need l Hl Hf; [lia|].
  simpl. destruct (Nat.ltb_spec l need) as [Hlt|Hge].
  - pose proof (grow_gt l Hl) as Hg.
    destruct (IH need (SB.grow l)) as (l' & E & H1 & H2); try lia.
    exists l'. repeat split; auto; lia.
  - exists l. repeat split; auto.
Qed.

Lemma reserve_ok b size : SB.wf b ->
  exists b', SB.reserve b size = Ok b' /\
    SB.length b' = SB.length b /\ SB.readPos b' = SB.readPos b /\
    (SB.length b + size <= List.length (SB.array b'))%nat /\
    firstn (SB.length b) (SB.array b') = firstn (SB.length b) (SB.array b) /\
    SB.wf b'.
Proof.
  intros (Hr & Hl & Hc & Hb). unfold SB.reserve.
  destruct (Nat.leb_spec (SB.length b + size) (List.length (SB.array b))) as [Hfit|Hno].
  - exists b. repeat split; auto.
  - destruct (reserve_loop_ok (S (SB.length b + size)) (SB.length b + size)
                (List.length (SB.array b))) as (l & E & H1 & H2); try lia.
    rewrite E. simpl. unfold typed_set. rewrite repeat_length. simpl.
    destruct (Nat.leb_spec (List.length (SB.array b)) l) as [_|Hbad]; [|lia].
    simpl. eexists. split; [reflexivity|]. simpl.
    assert (Hlen : List.length (map JS.toUint8 (SB.array b)
                     ++ skipn (List.length (SB.array b)) (repeat 0 l)) = l).
    { rewrite length_app, length_map, length_skipn, repeat_length. lia. }
    assert (Hid : map JS.toUint8 (SB.array b) = SB.array b).
    { clear -Hb. induction Hb; simpl; auto. rewrite toUint8_id, IHHb; auto. }
    split; [reflexivity|]. split; [reflexivity|].
    split; [rewrite Hlen; lia|].
    split.
    { rewrite Hid, firstn_app.
      replace (SB.length b - List.length (SB.array b))%nat with 0%nat by lia.
      simpl. rewrite app_nil_r. reflexivity. }
    unfold SB.wf; simpl. rewrite Hlen.
    split; [lia|]. split; [lia|]. split; [lia|].
    apply Forall_app. split; [apply Forall_byte_map_toUint8|].
    apply Forall_forall. intros x Hx.
    apply In_skipn_incl in Hx. apply repeat_spec in Hx. lia.
Qed.

Lemma pushArray_ok b v : SB.wf b ->
  exists b', SB.pushArray b v = Ok b' /\
    SB.length b' = (SB.length b + List.length v)%nat /\
    SB.readPos b' = SB.readPos b /\
    SB.asUint8Array b' = SB.asUint8Array b ++ map JS.toUint8 v /\
    SB.wf b'.
Proof.
  intros Hwf. unfold SB.pushArray.
  destruct (reserve_ok b (List.length v) Hwf)
    as (b1 & E & Hl1 & Hr1 & Hcap & Hpre & (W1 & W2 & W3 & W4)).
  rewrite E. simpl. unfold typed_set.
  destruct (Nat.leb_spec (SB.length b1 + List.length v) (List.length (SB.array b1)))
    as [Hfit|Hbad]; [|lia].
  simpl. eexists. split; [reflexivity|]. simpl.
  assert (Hf : List.length (firstn (SB.length b1) (SB.array b1)) = SB.length b1)
    by (rewrite length_firstn; lia).
  split; [lia|]. split; [exact Hr1|]. split.
  - unfold SB.asUint8Array. simpl.
    rewrite app_assoc, firstn_app.
    rewrite length_app, length_map, Hf.
    replace (SB.length b1 + List.length v - (SB.length b1 + List.length v))%nat
      with 0%nat by lia.
    simpl. rewrite app_nil_r.
    rewrite firstn_all2 by (rewrite length_app, length_map, Hf; lia).
    rewrite Hl1, Hpre. reflexivity.
  - unfold SB.wf; simpl.
    rewrite !length_app, length_map, Hf, length_skipn.
    split; [lia|]. split; [lia|]. split; [lia|].
    apply Forall_app. split.
    + apply Forall_forall. intros x Hx. apply In_firstn_incl in Hx.
      rewrite Forall_forall in W4. auto.
    + apply Forall_app. split; [apply Forall_byte_map_toUint8|].
      apply Forall_forall. intros x Hx. apply In_skipn_incl in Hx.
      rewrite Forall_forall in W4. auto.
Qed.

Lemma asUint8Array_nth b i :
  (i < SB.length b)%nat -> nth i (SB.asUint8Array b) 0 = nth i (SB.array b) 0.
Proof.
  intros H. unfold SB.asUint8Array. rewrite nth_firstn.
  destruct (Nat.ltb_spec i (SB.length b)); [reflexivity|lia].
Qed.

Lemma asUint8Array_length b :
  (SB.length b <= List.length (SB.array b))%nat ->
  List.length (SB.asUint8Array b) = SB.length b.
Proof. intros H. unfold SB.asUint8Array. rewrite length_firstn. lia. Qed.

Lemma pushArray_appended b v b' :
  SB.wf b -> SB.pushArray b v = Ok b' -> appended b b' (List.length v).
Proof.
  intros Hwf E.
  destruct (pushArray_ok b v Hwf) as (b2 & E2 & Hl & Hr & Hv & Hwf2).
  rewrite E in E2. injection E2 as <-.
  split; [|split; assumption].
  intros i Hi.
  rewrite <- asUint8Array_nth by lia.
  rewrite <- (asUint8Array_nth b) by lia.
  rewrite Hv. apply app_nth1.
  rewrite asUint8Array_length; [lia|]. apply Hwf.
Qed.

(** C10. Every write of [SerialBuffer] is append-only.  On a buffer that
    satisfies the class invariant, [pushArray], [push] (one byte or several)
    and a [pushUint8ArrayChecked] whose size check passes all return normally;
    the bytes below the previous written length are unchanged, the written
    length grows by exactly the number of bytes pushed and the read cursor
    stays where it was.  A failed size check raises SizeMismatch before the
    buffer is touched. *)
Theorem C10_push_append_only :
  forall (b : SB.t) (v : list Z) (x : Z) (len : nat),
    SB.wf b ->
    (exists b', SB.pushArray b v = Ok b' /\ appended b b' (List.length v) /\ SB.wf b') /\
    (exists b', SB.push b [x] = Ok b' /\ appended b b' 1 /\ SB.wf b') /\
    (exists b', SB.push b v = Ok b' /\ appended b b' (List.length v) /\ SB.wf b') /\
    (List.length v = len ->
       exists b', SB.pushUint8ArrayChecked b v len = Ok b' /\
                  appended b b' len /\ SB.wf b') /\
    (List.length v <> len -> SB.pushUint8ArrayChecked b v len = Throw SizeMismatch).
Proof.
  intros b v x len Hwf.
  assert (P : forall w, exists b', SB.pushArray b w = Ok b' /\
                                   appended b b' (List.length w) /\ SB.wf b').
  { intros w. destruct (pushArray_ok b w Hwf) as (b' & E & _ & _ & _ & W).
    exists b'. split; [exact E|]. split; [|exact W].
    apply pushArray_appended; assumption. }
  split; [apply P|]. split; [apply (P [x])|]. split; [apply P|].
  unfold SB.pushUint8ArrayChecked. split.
  - intros <-. rewrite Nat.eqb_refl. simpl. apply P.
  - intros Hne. apply Nat.eqb_neq in Hne. rewrite Hne. reflexivity.
Qed.

Lemma new_wf : SB.wf SB.new.
Proof.
  unfold SB.wf, SB.new; simpl length; cbn [SB.readPos SB.length SB.array].
  rewrite repeat_length.
  split; [lia|]. split; [lia|]. split; [lia|].
  apply Forall_forall. intros y Hy. apply repeat_spec in Hy. lia.
Qed.

Lemma C10_push_append_only_witness :
  SB.wf SB.new /\
  exists b', SB.push SB.new [7] = Ok b' /\ appended SB.new b' 1 /\ SB.wf b'.
Proof.
  split; [exact new_wf|].
  exact (proj1 (proj2 (C10_push_append_only SB.new [1; 2] 7 2%nat new_wf))).
Defined.

(** ** Arithmetic of the 32-bit operators *)

Lemma toInt32_eqm x : exists k, JS.toInt32 x = x + k * 2 ^ 32.
Proof.
  unfold JS.toInt32. exists (- ((x + 2 ^ 31) / 2 ^ 32)).
  pose proof (Z.div_mod (x + 2 ^ 31) (2 ^ 32)). lia.
Qed.

Lemma toUint32_eqm x : exists k, JS.toUint32 x = x + k * 2 ^ 32.
Proof.
  unfold JS.toUint32. exists (- (x / 2 ^ 32)).
  pose proof (Z.div_mod x (2 ^ 32)). lia.
Qed.

Lemma toUint32_range x : 0 <= JS.toUint32 x < 2 ^ 32.
Proof. unfold JS.toUint32. apply Z.mod_pos_bound. lia. Qed.

Lemma toInt32_range x : - 2 ^ 31 <= JS.toInt32 x < 2 ^ 31.
Proof.
  unfold JS.toInt32. pose proof (Z.mod_pos_bound (x + 2 ^ 31) (2 ^ 32)). lia.
Qed.

Lemma toUint32_small x : 0 <= x < 2 ^ 32 -> JS.toUint32 x = x.
Proof. intros. unfold JS.toUint32. apply Z.mod_small. lia. Qed.

Lemma toInt32_small x : - 2 ^ 31 <= x < 2 ^ 31 -> JS.toInt32 x = x.
Proof. intros. unfold JS.toInt32. rewrite Z.mod_small; lia. Qed.

Lemma toUint32_add_mul x k : JS.toUint32 (x + k * 2 ^ 32) = JS.toUint32 x.
Proof. unfold JS.toUint32. apply Z_mod_plus_full. Qed.

Lemma toUint32_toInt32 x : JS.toUint32 (JS.toInt32 x) = JS.toUint32 x.
Proof. destruct (toInt32_eqm x) as (k & ->). apply toUint32_add_mul. Qed.

Lemma toInt32_toUint32 x : JS.toInt32 (JS.toUint32 x) = JS.toInt32 x.
Proof.
  destruct (toUint32_eqm x) as (k & ->). unfold JS.toInt32.
  replace (x + k * 2 ^ 32 + 2 ^ 31) with (x + 2 ^ 31 + k * 2 ^ 32) by lia.
  rewrite Z_mod_plus_full. reflexivity.
Qed.

Lemma toInt32_mod128 x : JS.toInt32 x mod 128 = x mod 128.
Proof.
  destruct (toInt32_eqm x) as (k & ->).
  replace (x + k * 2 ^ 32) with (x + (k * 2 ^ 25) * 128) by lia.
  apply Z_mod_plus_full.
Qed.

Lemma toUint32_mod128 x : JS.toUint32 x mod 128 = x mod 128.
Proof.
  destruct (toUint32_eqm x) as (k & ->).
  replace (x + k * 2 ^ 32) with (x + (k * 2 ^ 25) * 128) by lia.
  apply Z_mod_plus_full.
Qed.

Lemma toUint32_mod256 x : JS.toUint32 x mod 256 = x mod 256.
Proof.
  destruct (toUint32_eqm x) as (k & ->).
  replace (x + k * 2 ^ 32) with (x + (k * 2 ^ 24) * 256) by lia.
  apply Z_mod_plus_full.
Qed.

Lemma land_disjoint a c n : 0 <= n -> 0 <= a < 2 ^ n -> Z.land a (c * 2 ^ n) = 0.
Proof.
  intros Hn Ha. apply Z.bits_inj'. intros i Hi.
  rewrite Z.land_spec, Z.bits_0.
  destruct (Z.lt_ge_cases i n) as [Hlt|Hge].
  - rewrite Z.mul_pow2_bits_low by lia. apply andb_false_r.
  - rewrite <- (Z.mod_small a (2 ^ n)) by lia.
    rewrite Z.mod_pow2_bits_high by lia. reflexivity.
Qed.

Lemma lor_disjoint a c n : 0 <= n -> 0 <= a < 2 ^ n -> Z.lor a (c * 2 ^ n) = a + c * 2 ^ n.
Proof.
  intros Hn Ha. pose proof (Z.add_lor_land a (c * 2 ^ n)) as H.
  rewrite land_disjoint in H by assumption. lia.
Qed.

Lemma toUint32_lor x y :
  JS.toUint32 (Z.lor x y) = Z.lor (JS.toUint32 x) (JS.toUint32 y).
Proof.
  unfold JS.toUint32. rewrite <- !Z.land_ones by lia.
  apply Z.land_lor_distr_l.
Qed.

Lemma toUint32_bor x y :
  JS.toUint32 (JS.bor x y) = Z.lor (JS.toUint32 x) (JS.toUint32 y).
Proof. unfold JS.bor. rewrite toUint32_lor, !toUint32_toInt32. reflexivity. Qed.

Lemma toUint32_shl x k : 0 <= k < 32 -> JS.toUint32 (JS.shl x k) = JS.toUint32 (x * 2 ^ k).
Proof.
  intros Hk. unfold JS.shl. rewrite toUint32_toInt32.
  rewrite (toUint32_small k) by lia. rewrite (Z.mod_small k 32) by lia.
  rewrite Z.shiftl_mul_pow2 by lia.
  destruct (toInt32_eqm x) as (j & ->).
  replace ((x + j * 2 ^ 32) * 2 ^ k) with (x * 2 ^ k + (j * 2 ^ k) * 2 ^ 32) by lia.
  apply toUint32_add_mul.
Qed.

Lemma ushr_7 v : JS.ushr v 7 = JS.toUint32 v / 128.
Proof.
  unfold JS.ushr. change (JS.toUint32 7 mod 32) with 7.
  rewrite Z.shiftr_div_pow2 by lia. reflexivity.
Qed.

Lemma ushr_0 v : JS.ushr v 0 = JS.toUint32 v.
Proof.
  unfold JS.ushr. change (JS.toUint32 0 mod 32) with 0.
  rewrite Z.shiftr_0_r. reflexivity.
Qed.

Lemma band_7f v : JS.band v 0x7f = v mod 128.
Proof.
  unfold JS.band. change (JS.toInt32 127) with (Z.ones 7).
  rewrite Z.land_ones by lia. apply toInt32_mod128.
Qed.

(** Facts about one byte are settled by running through the 256 bytes. *)
Lemma byte_forall (P : Z -> bool) :
  forallb P (map Z.of_nat (seq 0 256)) = true ->
  forall x, 0 <= x < 256 -> P x = true.
Proof.
  intros H x Hx. rewrite forallb_forall in H. apply H.
  apply in_map_iff. exists (Z.to_nat x). split; [lia|].
  apply in_seq. lia.
Qed.

Lemma bor_80 x : 0 <= x < 128 -> JS.bor 0x80 x = 128 + x.
Proof.
  intros Hx.
  assert (H : (128 <=? x) || (JS.bor 128 x =? 128 + x) = true)
    by (apply (byte_forall (fun x => (128 <=? x) || (JS.bor 128 x =? 128 + x)));
        [vm_compute; reflexivity | lia]).
  apply orb_true_iff in H. destruct H as [H|H]; [apply Z.leb_le in H; lia|].
  apply Z.eqb_eq in H. exact H.
Qed.

Lemma band_80 x : 0 <= x < 256 -> JS.truthy (JS.band x 0x80) = (128 <=? x).
Proof.
  intros Hx.
  assert (H : Bool.eqb (JS.truthy (JS.band x 128)) (128 <=? x) = true)
    by (apply (byte_forall (fun x => Bool.eqb (JS.truthy (JS.band x 128)) (128 <=? x)));
        [vm_compute; reflexivity | lia]).
  apply Bool.eqb_prop in H. exact H.
Qed.

(** ** Reading: the unread bytes as a list *)

Lemma skipn_cons_nth {A} (d : A) : forall (l : list A) (n : nat),
  (n < List.length l)%nat -> skipn n l = nth n l d :: skipn (S n) l.
Proof.
  induction l as [|a l IH]; intros n H; simpl in H; [lia|].
  destruct n as [|n]; [reflexivity|].
  simpl. apply IH. lia.
Qed.

Lemma unread_length b : SB.wf b ->
  List.length (SB.unread b) = (SB.length b - SB.readPos b)%nat.
Proof.
  intros (H1 & H2 & _). unfold SB.unread.
  rewrite length_skipn, asUint8Array_length; lia.
Qed.

Lemma advance_wf b n : SB.wf b -> (SB.readPos b + n <= SB.length b)%nat ->
  SB.wf (advance b n).
Proof.
  intros (H1 & H2 & H3 & H4) H. unfold SB.wf, advance; simpl.
  repeat split; auto; lia.
Qed.

Lemma unread_advance b n : SB.unread (advance b n) = skipn n (SB.unread b).
Proof.
  unfold SB.unread, advance, SB.asUint8Array; simpl.
  rewrite skipn_skipn. f_equal. lia.
Qed.


Lemma get_cons b x rest : SB.wf b -> SB.unread b = x :: rest ->
  SB.get b = Ok (x, advance b 1) /\ SB.unread (advance b 1) = rest /\
  SB.wf (advance b 1) /\ 0 <= x < 256.
Proof.
  intros Hwf He. pose proof (unread_length b Hwf) as Hl. rewrite He in Hl.
  simpl in Hl. unfold SB.get.
  destruct (Nat.ltb_spec (SB.readPos b) (SB.length b)) as [Hlt|]; [|lia].
  assert (Hx : nth (SB.readPos b) (SB.array b) 0 = x).
  { rewrite <- asUint8Array_nth by lia.
    unfold SB.unread in He.
    rewrite (skipn_cons_nth 0) in He
      by (rewrite asUint8Array_length; [lia|apply Hwf]).
    injection He as E _. exact E. }
  rewrite Hx. split.
  - f_equal. f_equal. unfold advance. f_equal. lia.
  - split; [rewrite unread_advance, He; reflexivity|].
    split; [apply advance_wf; [assumption|lia]|].
    destruct Hwf as (_ & Hcap & _ & Hb). rewrite Forall_forall in Hb.
    apply Hb. rewrite <- Hx. apply nth_In. lia.
Qed.

Lemma pushArray_unread b v b' : SB.wf b -> SB.pushArray b v = Ok b' ->
  SB.unread b' = SB.unread b ++ map JS.toUint8 v.
Proof.
  intros Hwf E.
  destruct (pushArray_ok b v Hwf) as (b2 & E2 & Hl & Hr & Hv & Hwf2).
  rewrite E in E2. injection E2 as <-.
  unfold SB.unread. rewrite Hv, Hr. rewrite skipn_app.
  replace (SB.readPos b - List.length (SB.asUint8Array b))%nat with 0%nat.
  - reflexivity.
  - rewrite asUint8Array_length; destruct Hwf as (? & ? & _); lia.
Qed.

(** ** varuint32 *)

Lemma pow7_succ n : 0 <= n -> 2 ^ (7 * (n + 1)) = 128 * 2 ^ (7 * n).
Proof.
  intros. replace (7 * (n + 1)) with (7 + 7 * n) by lia.
  rewrite Z.pow_add_r by lia. reflexivity.
Qed.

Lemma pushVaruint32_loop_spec n : forall b v,
  SB.wf b -> JS.toUint32 v < 2 ^ (7 * (Z.of_nat n + 1)) ->
  exists b', SB.pushVaruint32_loop (S n) b v = Ok b' /\
    SB.asUint8Array b' = SB.asUint8Array b ++ leb128 (S n) (JS.toUint32 v) /\
    SB.readPos b' = SB.readPos b /\ SB.wf b'.
Proof.
  induction n as [|n IH]; intros b v Hwf Hv;
    pose proof (toUint32_range v) as Hu;
    cbn [SB.pushVaruint32_loop leb128];
    rewrite ushr_7; unfold JS.truthy;
    destruct (Z.ltb_spec (JS.toUint32 v) 128) as [Hlt|Hge].
  - rewrite Z.div_small by lia. simpl negb. cbv iota.
    destruct (pushArray_ok b [v] Hwf) as (b' & E & _ & Hr & Hb & W).
    exists b'. unfold SB.push. rewrite E. repeat split; try apply W; auto.
    rewrite Hb. simpl. unfold JS.toUint8.
    rewrite <- toUint32_mod256, Z.mod_small by lia. reflexivity.
  - exfalso. change (2 ^ (7 * (Z.of_nat 0 + 1))) with 128 in Hv. lia.
  - rewrite Z.div_small by lia. simpl negb. cbv iota.
    destruct (pushArray_ok b [v] Hwf) as (b' & E & _ & Hr & Hb & W).
    exists b'. unfold SB.push. rewrite E. repeat split; try apply W; auto.
    rewrite Hb. simpl. unfold JS.toUint8.
    rewrite <- toUint32_mod256, Z.mod_small by lia. reflexivity.
  - assert (Hq : 1 <= JS.toUint32 v / 128)
      by (apply Z.div_le_lower_bound; lia).
    destruct (Z.eqb_spec (JS.toUint32 v / 128) 0) as [H0|_]; [lia|].
    simpl negb. cbv iota.
    rewrite band_7f, bor_80 by (apply Z.mod_pos_bound; lia).
    pose proof (Z.mod_pos_bound v 128 ltac:(lia)) as Hm.
    destruct (pushArray_ok b [128 + v mod 128] Hwf) as (b1 & E & _ & Hr & Hb & W).
    unfold SB.push. rewrite E. cbn [bind].
    rewrite Nat2Z.inj_succ, <- Z.add_1_r, pow7_succ in Hv by lia.
    assert (Hq2 : JS.toUint32 v / 128 < 2 ^ (7 * (Z.of_nat n + 1)))
      by (apply Z.div_lt_upper_bound; lia).
    assert (Hsm : JS.toUint32 (JS.toUint32 v / 128) = JS.toUint32 v / 128).
    { apply toUint32_small. split; [lia|].
      apply Z.div_lt_upper_bound; lia. }
    destruct (IH b1 (JS.toUint32 v / 128) W) as (b' & E' & Hb' & Hr' & W');
      [rewrite Hsm; exact Hq2|].
    exists b'. split; [exact E'|]. split; [|split; [congruence|exact W']].
    rewrite Hb', Hb, Hsm, <- app_assoc. cbn [map app leb128].
    destruct (Z.ltb_spec (JS.toUint32 v) 128); [lia|].
    rewrite toUint8_id by lia. rewrite toUint32_mod128. reflexivity.
Qed.

Lemma leb128_nonempty n u : leb128 (S n) u <> [].
Proof. simpl. destruct (u <? 128); discriminate. Qed.

Lemma leb128_S n u :
  leb128 (S n) u = if u <? 128 then [u] else (128 + u mod 128) :: leb128 n (u / 128).
Proof. reflexivity. Qed.

Lemma leb128_minimal n : forall u,
  0 <= u < 2 ^ (7 * (Z.of_nat n + 1)) -> minimal_varuint u (leb128 (S n) u).
Proof.
  induction n as [|n IH]; intros u Hu; rewrite leb128_S;
    destruct (Z.ltb_spec u 128) as [Hlt|Hge].
  - unfold minimal_varuint; simpl.
    split; [discriminate|]. split; [lia|]. split; [constructor|].
    split; [change (2 ^ 7) with 128; lia|lia].
  - exfalso. change (2 ^ (7 * (Z.of_nat 0 + 1))) with 128 in Hu. lia.
  - unfold minimal_varuint; simpl.
    split; [discriminate|]. split; [lia|]. split; [constructor|].
    split; [change (2 ^ 7) with 128; lia|lia].
  - rewrite Nat2Z.inj_succ, <- Z.add_1_r, pow7_succ in Hu by lia.
    assert (Hq : 1 <= u / 128) by (apply Z.div_le_lower_bound; lia).
    assert (Hq2 : u / 128 < 2 ^ (7 * (Z.of_nat n + 1)))
      by (apply Z.div_lt_upper_bound; lia).
    destruct (IH (u / 128)) as (Hne & Hlast & Hall & Hup & Hlow); [lia|].
    pose proof (Z.mod_pos_bound u 128 ltac:(lia)) as Hm.
    pose proof (Z.div_mod u 128 ltac:(lia)) as Hdm.
    remember (leb128 (S n) (u / 128)) as rest eqn:Hrest.
    destruct rest as [|y rest]; [congruence|].
    unfold minimal_varuint.
    split; [discriminate|].
    split; [exact Hlast|].
    split; [constructor; [lia|exact Hall]|].
    set (L := Z.of_nat (List.length (y :: rest))) in *.
    assert (HL : Z.of_nat (List.length ((128 + u mod 128) :: y :: rest)) = L + 1)
      by (unfold L; simpl List.length; lia).
    assert (HLpos : 1 <= L) by (unfold L; simpl List.length; lia).
    rewrite HL. split.
    + rewrite pow7_succ by lia. lia.
    + intros _. replace (L + 1 - 1) with ((L - 1) + 1) by lia.
      rewrite pow7_succ by lia.
      destruct (Z.eq_dec L 1) as [->|HnL].
      * change (2 ^ (7 * (1 - 1))) with 1. lia.
      * assert (2 ^ (7 * (L - 1)) <= u / 128)
          by (apply Hlow; unfold L in *; simpl List.length in *; lia).
        lia.
Qed.

Lemma accumulate_step acc p k :
  0 <= k <= 4 -> 0 <= p -> p * 2 ^ (7 * k) < 2 ^ 32 ->
  0 <= JS.toUint32 acc < 2 ^ (7 * k) ->
  JS.toUint32 (JS.bor acc (JS.shl p (7 * k))) = JS.toUint32 acc + p * 2 ^ (7 * k).
Proof.
  intros Hk Hp Hlt Hacc.
  assert (Hpos : 0 < 2 ^ (7 * k)) by (apply Z.pow_pos_nonneg; lia).
  rewrite toUint32_bor, toUint32_shl by lia.
  rewrite (toUint32_small (p * _)) by nia.
  apply lor_disjoint; lia.
Qed.

Lemma getVaruint32_loop_leb n : forall u k fuel b acc rest,
  SB.wf b -> SB.unread b = leb128 (S n) u ++ rest ->
  0 <= u < 2 ^ (7 * (Z.of_nat n + 1)) ->
  0 <= k <= 4 -> u * 2 ^ (7 * k) < 2 ^ 32 ->
  0 <= JS.toUint32 acc < 2 ^ (7 * k) ->
  (List.length (leb128 (S n) u) <= fuel)%nat ->
  SB.getVaruint32_loop fuel b acc (7 * k) =
    Ok (JS.toUint32 acc + u * 2 ^ (7 * k),
        advance b (List.length (leb128 (S n) u))) /\
  SB.wf (advance b (List.length (leb128 (S n) u))).
Proof.
  induction n as [|n IH]; intros u k fuel b acc rest Hwf Hun Hu Hk Hlt Hacc Hfuel;
    rewrite leb128_S in *;
    assert (Hpos : 0 < 2 ^ (7 * k)) by (apply Z.pow_pos_nonneg; lia);
    destruct (Z.ltb_spec u 128) as [Hs|Hb];
    (destruct fuel as [|fuel]; [simpl in Hfuel; lia|]);
    cbn [SB.getVaruint32_loop];
    destruct (get_cons b _ _ Hwf Hun) as (Eg & Hun1 & Hwf1 & Hx);
    rewrite Eg; cbn [bind].
  - rewrite band_7f, band_80, Z.mod_small by lia.
    destruct (Z.leb_spec 128 u); [lia|]. cbn [negb].
    rewrite ushr_0, accumulate_step by lia. split; [reflexivity|exact Hwf1].
  - exfalso. change (2 ^ (7 * (Z.of_nat 0 + 1))) with 128 in Hu. lia.
  - rewrite band_7f, band_80, Z.mod_small by lia.
    destruct (Z.leb_spec 128 u); [lia|]. cbn [negb].
    rewrite ushr_0, accumulate_step by lia. split; [reflexivity|exact Hwf1].
  - pose proof (Z.mod_pos_bound u 128 ltac:(lia)) as Hm.
    pose proof (Z.div_mod u 128 ltac:(lia)) as Hdm.
    rewrite band_7f, band_80 by lia.
    destruct (Z.leb_spec 128 (128 + u mod 128)); [|lia]. cbn [negb].
    replace ((128 + u mod 128) mod 128) with (u mod 128)
      by (replace (128 + u mod 128) with (u mod 128 + 1 * 128) by lia;
          rewrite Z_mod_plus_full, Z.mod_mod by lia; reflexivity).
    assert (Hk3 : k <= 3).
    { destruct (Z.eq_dec k 4) as [->|]; [|lia].
      change (2 ^ (7 * 4)) with 268435456 in Hlt.
      change (2 ^ 32) with 4294967296 in Hlt. lia. }
    assert (Hq : 0 <= u / 128) by (apply Z.div_pos; lia).
    rewrite Nat2Z.inj_succ, <- Z.add_1_r, pow7_succ in Hu by lia.
    assert (Hq2 : u / 128 < 2 ^ (7 * (Z.of_nat n + 1)))
      by (apply Z.div_lt_upper_bound; lia).
    replace (7 * k + 7) with (7 * (k + 1)) by lia.
    assert (Hnext : u / 128 * 2 ^ (7 * (k + 1)) < 2 ^ 32)
      by (rewrite pow7_succ by lia; nia).
    assert (Hacc' : JS.toUint32 (JS.bor acc (JS.shl (u mod 128) (7 * k)))
                    = JS.toUint32 acc + u mod 128 * 2 ^ (7 * k))
      by (apply accumulate_step; try lia; nia).
    cbn [List.length] in Hfuel.
    assert (Hr' : 0 <= JS.toUint32 (JS.bor acc (JS.shl (u mod 128) (7 * k)))
                  < 2 ^ (7 * (k + 1)))
      by (rewrite Hacc', pow7_succ by lia; nia).
    destruct (IH (u / 128) (k + 1) fuel (advance b 1)
                (JS.bor acc (JS.shl (u mod 128) (7 * k))) rest
                Hwf1 Hun1 (conj Hq Hq2) ltac:(lia) Hnext Hr' ltac:(lia))
      as (E & W).
    replace (advance b (List.length ((128 + u mod 128) :: leb128 (S n) (u / 128))))
      with (advance (advance b 1) (List.length (leb128 (S n) (u / 128))))
      by (unfold advance; simpl; f_equal; lia).
    split; [|exact W].
    rewrite E, Hacc', pow7_succ by lia.
    f_equal. f_equal. nia.
Qed.

Lemma pushVaruint32_spec b v : SB.wf b ->
  exists b', SB.pushVaruint32 b v = Ok b' /\
    SB.asUint8Array b' = SB.asUint8Array b ++ leb128 5 (JS.toUint32 v) /\
    SB.unread b' = SB.unread b ++ leb128 5 (JS.toUint32 v) /\
    SB.readPos b' = SB.readPos b /\ SB.wf b'.
Proof.
  intros Hwf. pose proof (toUint32_range v) as Hu.
  destruct (pushVaruint32_loop_spec 4 b v Hwf) as (b' & E & Hb & Hr & W).
  { change (2 ^ (7 * (Z.of_nat 4 + 1))) with (2 ^ 32 * 8). lia. }
  exists b'. split; [exact E|]. split; [exact Hb|]. split; [|split; assumption].
  unfold SB.unread. rewrite Hb, Hr, skipn_app.
  replace (SB.readPos b - List.length (SB.asUint8Array b))%nat with 0%nat.
  - reflexivity.
  - rewrite asUint8Array_length; destruct Hwf as (? & ? & _); lia.
Qed.

(** [pushVaruint32] never exhausts its five rounds. *)
Lemma pushVaruint32_total b v : SB.wf b -> exists b', SB.pushVaruint32 b v = Ok b'.
Proof.
  intros Hwf. destruct (pushVaruint32_spec b v Hwf) as (b' & E & _).
  exists b'. exact E.
Qed.

Lemma getVaruint32_leb b u rest :
  SB.wf b -> SB.unread b = leb128 5 u ++ rest -> 0 <= u < 2 ^ 32 ->
  SB.getVaruint32 b = Ok (u, advance b (List.length (leb128 5 u))) /\
  SB.wf (advance b (List.length (leb128 5 u))) /\
  SB.unread (advance b (List.length (leb128 5 u))) = rest.
Proof.
  intros Hwf Hun Hu. unfold SB.getVaruint32.
  pose proof (unread_length b Hwf) as Hl. rewrite Hun, length_app in Hl.
  assert (H1 : 0 <= u < 2 ^ (7 * (Z.of_nat 4 + 1)))
    by (change (2 ^ (7 * (Z.of_nat 4 + 1))) with (2 ^ 32 * 8); lia).
  assert (H2 : u * 2 ^ (7 * 0) < 2 ^ 32)
    by (change (2 ^ (7 * 0)) with 1; lia).
  assert (H3 : 0 <= JS.toUint32 0 < 2 ^ (7 * 0))
    by (change (JS.toUint32 0) with 0; change (2 ^ (7 * 0)) with 1; lia).
  destruct (getVaruint32_loop_leb 4 u 0 (S (SB.length b - SB.readPos b)) b 0 rest
              Hwf Hun H1 ltac:(lia) H2 H3 ltac:(lia)) as (E & W).
  change (7 * 0) with 0 in E. rewrite E.
  change (JS.toUint32 0) with 0. change (2 ^ 0) with 1.
  split; [do 2 f_equal; lia|]. split; [exact W|].
  rewrite unread_advance, Hun, skipn_app, skipn_all, Nat.sub_diag.
  reflexivity.
Qed.

(** ** varint32 (zigzag) *)

Lemma shl_1 v : JS.shl v 1 = JS.toInt32 (2 * JS.toInt32 v).
Proof.
  unfold JS.shl. change (JS.toUint32 1 mod 32) with 1.
  rewrite Z.shiftl_mul_pow2 by lia. f_equal. change (2 ^ 1) with 2. lia.
Qed.

Lemma shr_31 v : JS.shr v 31 = JS.toInt32 v / 2 ^ 31.
Proof.
  unfold JS.shr. change (JS.toUint32 31 mod 32) with 31.
  apply Z.shiftr_div_pow2. lia.
Qed.

Lemma toUint32_double_toInt32 x : JS.toUint32 (- JS.toInt32 (2 * x) - 1) = JS.toUint32 (- 2 * x - 1).
Proof.
  destruct (toInt32_eqm (2 * x)) as (k & ->).
  replace (- (2 * x + k * 2 ^ 32) - 1) with (- 2 * x - 1 + (- k) * 2 ^ 32) by lia.
  apply toUint32_add_mul.
Qed.

Lemma zigzag_nonneg v : 0 <= v < 2 ^ 31 -> zigzag v = 2 * v.
Proof.
  intros Hv. unfold zigzag, JS.bxor.
  rewrite shl_1, shr_31, (toInt32_small v) by lia.
  rewrite (Z.div_small v) by lia.
  change (JS.toInt32 0) with 0. rewrite Z.lxor_0_r.
  rewrite !toUint32_toInt32. apply toUint32_small. lia.
Qed.

Lemma zigzag_neg v : - 2 ^ 31 <= v < 0 -> zigzag v = - 2 * v - 1.
Proof.
  intros Hv. unfold zigzag, JS.bxor.
  rewrite shl_1, shr_31, (toInt32_small v) by lia.
  replace (v / 2 ^ 31) with (-1)
    by (apply Z.div_unique with (r := v + 2 ^ 31); lia).
  change (JS.toInt32 (-1)) with (-1). rewrite Z.lxor_m1_r.
  unfold Z.lnot. rewrite Z.sub_1_r, <- Z.sub_1_r.
  rewrite (toInt32_small (JS.toInt32 _)) by apply toInt32_range.
  rewrite toUint32_double_toInt32. apply toUint32_small. lia.
Qed.

Lemma zigzag_range v : 0 <= zigzag v < 2 ^ 32.
Proof. apply toUint32_range. Qed.

Lemma band_1 u : JS.band u 1 = u mod 2.
Proof.
  unfold JS.band. change (JS.toInt32 1) with (Z.ones 1).
  rewrite Z.land_ones by lia. change (2 ^ 1) with 2.
  destruct (toInt32_eqm u) as (k & ->).
  replace (u + k * 2 ^ 32) with (u + (k * 2 ^ 31) * 2) by lia.
  apply Z_mod_plus_full.
Qed.

Lemma lor_sign v : - 2 ^ 31 <= v < 0 -> Z.lor v (- 2 ^ 31) = v.
Proof.
  intros Hv.
  assert (E : v = Z.lor (v + 2 ^ 31) (- 2 ^ 31)).
  { replace (- 2 ^ 31) with ((-1) * 2 ^ 31) by lia.
    rewrite lor_disjoint by lia. lia. }
  rewrite E at 1. rewrite <- Z.lor_assoc, Z.lor_diag. symmetry. exact E.
Qed.

Lemma unzigzag v : - 2 ^ 31 <= v < 2 ^ 31 ->
  (if JS.truthy (JS.band (zigzag v) 1)
   then JS.bor (JS.shr (JS.bnot (zigzag v)) 1) 0x80000000
   else JS.ushr (zigzag v) 1) = v.
Proof.
  intros Hv. rewrite band_1. unfold JS.truthy.
  destruct (Z.lt_ge_cases v 0) as [Hneg|Hpos].
  - rewrite zigzag_neg by lia.
    replace ((- 2 * v - 1) mod 2) with 1
      by (apply Z.mod_unique with (q := - v - 1); lia).
    cbn [Z.eqb negb].
    unfold JS.bor, JS.shr, JS.bnot, Z.lnot.
    change (JS.toUint32 1 mod 32) with 1.
    change (JS.toInt32 2147483648) with (- 2 ^ 31).
    rewrite Z.shiftr_div_pow2 by lia. change (2 ^ 1) with 2.
    destruct (Z.lt_ge_cases v (- 2 ^ 30)) as [Hlow|Hhigh].
    + replace (JS.toInt32 (- 2 * v - 1)) with (- 2 * v - 1 - 2 ^ 32)
        by (unfold JS.toInt32; symmetry;
            replace (- 2 * v - 1 + 2 ^ 31) with (- 2 * v - 1 - 2 ^ 31 + 1 * 2 ^ 32) by lia;
            rewrite Z_mod_plus_full, Z.mod_small; lia).
      replace (Z.pred (- (- 2 * v - 1 - 2 ^ 32))) with (2 * (v + 2 ^ 31)) by lia.
      rewrite (toInt32_small (2 * _)) by lia.
      rewrite Z.mul_comm, Z.div_mul by lia.
      rewrite toInt32_small by lia.
      replace (- 2 ^ 31) with ((-1) * 2 ^ 31) by lia.
      rewrite lor_disjoint by lia. lia.
    + rewrite (toInt32_small (- 2 * v - 1)) by lia.
      replace (Z.pred (- (- 2 * v - 1))) with (2 * v) by lia.
      rewrite (toInt32_small (2 * _)) by lia.
      rewrite Z.mul_comm, Z.div_mul by lia.
      rewrite toInt32_small by lia.
      apply lor_sign. lia.
  - rewrite zigzag_nonneg by lia.
    rewrite Z.mul_comm, Z.mod_mul by lia. cbn [Z.eqb negb].
    unfold JS.ushr. change (JS.toUint32 1 mod 32) with 1.
    rewrite Z.shiftr_div_pow2 by lia. change (2 ^ 1) with 2.
    rewrite toUint32_small by lia. apply Z.div_mul. lia.
Qed.

(** C2. For every unsigned 32-bit [v], pushing [v] as a varuint32 onto a
    buffer whose earlier contents have been read and reading a varuint32 back
    yields [v]; for every signed 32-bit [v], the same holds for
    [pushVarint32]/[getVarint32]; in both cases the bytes written are the
    shortest varuint form (of [v], respectively of its zigzag image): the
    last byte has no continuation flag, all others have it, and no shorter
    sequence of seven-bit groups holds the value. *)
Theorem C2_varint_roundtrip_minimal (b : SB.t) :
  SB.wf b -> SB.unread b = [] ->
  (forall v, 0 <= v < 2 ^ 32 ->
     exists b1 bs,
       SB.pushVaruint32 b v = Ok b1 /\
       SB.asUint8Array b1 = SB.asUint8Array b ++ bs /\
       minimal_varuint v bs /\
       SB.getVaruint32 b1 = Ok (v, advance b1 (List.length bs))) /\
  (forall v, - 2 ^ 31 <= v < 2 ^ 31 ->
     exists b1 bs,
       SB.pushVarint32 b v = Ok b1 /\
       SB.asUint8Array b1 = SB.asUint8Array b ++ bs /\
       minimal_varuint (zigzag v) bs /\
       SB.getVarint32 b1 = Ok (v, advance b1 (List.length bs))).
Proof.
  intros Hwf Hun. split; intros v Hv.
  - destruct (pushVaruint32_spec b v Hwf) as (b1 & E & Hb & Hu & _ & W).
    rewrite (toUint32_small v Hv) in *. rewrite Hun, app_nil_l in Hu.
    exists b1, (leb128 5 v). split; [exact E|]. split; [exact Hb|].
    split.
    + apply (leb128_minimal 4).
      change (2 ^ (7 * (Z.of_nat 4 + 1))) with (2 ^ 32 * 8). lia.
    + apply (getVaruint32_leb b1 v []); auto. rewrite app_nil_r. exact Hu.
  - unfold SB.pushVarint32, SB.getVarint32.
    destruct (pushVaruint32_spec b (JS.bxor (JS.shl v 1) (JS.shr v 31)) Hwf)
      as (b1 & E & Hb & Hu & _ & W).
    fold (zigzag v) in Hb, Hu. rewrite Hun, app_nil_l in Hu.
    exists b1, (leb128 5 (zigzag v)). split; [exact E|]. split; [exact Hb|].
    pose proof (zigzag_range v) as Hz.
    split.
    + apply (leb128_minimal 4).
      change (2 ^ (7 * (Z.of_nat 4 + 1))) with (2 ^ 32 * 8). lia.
    + destruct (getVaruint32_leb b1 (zigzag v) []) as (G & _); auto.
      { rewrite app_nil_r. exact Hu. }
      rewrite G. cbn [bind].
      pose proof (unzigzag v Hv) as U.
      destruct (JS.truthy (JS.band (zigzag v) 1)); rewrite U; reflexivity.
Qed.

Lemma C2_varint_roundtrip_minimal_witness :
  (exists b1 bs,
     SB.pushVaruint32 SB.new 300 = Ok b1 /\
     SB.asUint8Array b1 = SB.asUint8Array SB.new ++ bs /\
     minimal_varuint 300 bs /\
     SB.getVaruint32 b1 = Ok (300, advance b1 (List.length bs))) /\
  (exists b1 bs,
     SB.pushVarint32 SB.new (-3) = Ok b1 /\
     SB.asUint8Array b1 = SB.asUint8Array SB.new ++ bs /\
     minimal_varuint (zigzag (-3)) bs /\
     SB.getVarint32 b1 = Ok (-3, advance b1 (List.length bs))).
Proof.
  split.
  - apply (proj1 (C2_varint_roundtrip_minimal SB.new new_wf eq_refl) 300). lia.
  - apply (proj2 (C2_varint_roundtrip_minimal SB.new new_wf eq_refl) (-3)). lia.
Defined.

(** ** Reads stay inside the written part *)

(** Case analysis on the first computation of a [bind] that returned. *)
Ltac bind_ok H :=
  match type of H with
  | bind ?m _ = Ok _ =>
      let E := fresh "E" in
      destruct m as [?| |] eqn:E; cbn [bind] in H;
      [|discriminate H|discriminate H]
  end.

Lemma read_within_refl b : (SB.readPos b <= SB.length b)%nat -> read_within b b.
Proof. intros H. unfold read_within. repeat split; auto. Qed.

Lemma read_within_trans b1 b2 b3 :
  read_within b1 b2 -> read_within b2 b3 -> read_within b1 b3.
Proof.
  intros (L1 & A1 & P1) (L2 & A2 & P2). unfold read_within.
  rewrite L2, A2, L1, A1. repeat split; lia.
Qed.

Lemma get_within b x b' : SB.get b = Ok (x, b') -> read_within b b'.
Proof.
  unfold SB.get. destruct (Nat.ltb_spec (SB.readPos b) (SB.length b)); [|discriminate].
  intros E. injection E as _ <-. unfold read_within; simpl. repeat split; lia.
Qed.

Lemma getUint8Array_within b n a b' :
  SB.getUint8Array b n = Ok (a, b') -> read_within b b'.
Proof.
  unfold SB.getUint8Array.
  destruct (Nat.ltb_spec (SB.length b) (SB.readPos b + n)); [discriminate|].
  intros E. injection E as _ <-. unfold read_within; simpl. repeat split; lia.
Qed.

Lemma getVaruint32_loop_within fuel : forall b v bit x b',
  SB.getVaruint32_loop fuel b v bit = Ok (x, b') -> read_within b b'.
Proof.
  induction fuel as [|fuel IH]; intros b v bit x b' H; [discriminate|].
  cbn [SB.getVaruint32_loop] in H. bind_ok H. destruct a as [byte b1].
  apply get_within in E.
  destruct (negb (JS.truthy (JS.band byte 128))).
  - injection H as _ <-. exact E.
  - eapply read_within_trans; [exact E|]. eapply IH; exact H.
Qed.

Lemma getVaruint32_within b x b' :
  SB.getVaruint32 b = Ok (x, b') -> read_within b b'.
Proof. apply getVaruint32_loop_within. Qed.

Lemma getVarint32_within b x b' :
  SB.getVarint32 b = Ok (x, b') -> read_within b b'.
Proof.
  unfold SB.getVarint32. intros H. bind_ok H. destruct a as [v b1].
  apply getVaruint32_within in E.
  destruct (JS.truthy (JS.band v 1)); injection H as _ <-; exact E.
Qed.

Lemma getUint16_within b x b' :
  SB.getUint16 b = Ok (x, b') -> read_within b b'.
Proof.
  unfold SB.getUint16. intros H.
  bind_ok H. destruct a as [x0 b0]. apply get_within in E.
  bind_ok H. destruct a as [x1 b1]. apply get_within in E0.
  injection H as _ <-. eapply read_within_trans; eassumption.
Qed.

Lemma getUint32_within b x b' :
  SB.getUint32 b = Ok (x, b') -> read_within b b'.
Proof.
  unfold SB.getUint32. intros H.
  bind_ok H. destruct a as [x0 b0]. apply get_within in E.
  bind_ok H. destruct a as [x1 b1]. apply get_within in E0.
  bind_ok H. destruct a as [x2 b2]. apply get_within in E1.
  bind_ok H. destruct a as [x3 b3]. apply get_within in E2.
  injection H as _ <-.
  eapply read_within_trans; [eassumption|].
  eapply read_within_trans; [eassumption|].
  eapply read_within_trans; eassumption.
Qed.


Lemma getName_within b s b' :
  SB.getName b = Ok (s, b') -> read_within b b'.
Proof.
  unfold SB.getName. intros H.
  bind_ok H. destruct a as [a b0]. apply getUint8Array_within in E.
  bind_ok H. injection H as _ <-. exact E.
Qed.

Lemma getBytes_within b a b' :
  SB.getBytes b = Ok (a, b') -> read_within b b'.
Proof.
  unfold SB.getBytes. intros H.
  bind_ok H. destruct a0 as [n b0]. apply getVaruint32_within in E.
  apply getUint8Array_within in H. eapply read_within_trans; eassumption.
Qed.

Lemma getString_within b s b' :
  SB.getString b = Ok (s, b') -> read_within b b'.
Proof.
  unfold SB.getString. intros H.
  bind_ok H. destruct a as [bs b0]. apply getBytes_within in E.
  bind_ok H. injection H as _ <-. exact E.
Qed.

Lemma getSymbolCode_within b s b' :
  SB.getSymbolCode b = Ok (s, b') -> read_within b b'.
Proof.
  unfold SB.getSymbolCode. intros H.
  bind_ok H. destruct a as [a b0]. apply getUint8Array_within in E.
  bind_ok H. injection H as _ <-. exact E.
Qed.

Lemma getSymbol_within b s b' :
  SB.getSymbol b = Ok (s, b') -> read_within b b'.
Proof.
  unfold SB.getSymbol. intros H.
  bind_ok H. destruct a as [p b0]. apply get_within in E.
  bind_ok H. destruct a as [a b1]. apply getUint8Array_within in E0.
  bind_ok H. injection H as _ <-. eapply read_within_trans; eassumption.
Qed.

Lemma getAsset_within b s b' :
  SB.getAsset b = Ok (s, b') -> read_within b b'.
Proof.
  unfold SB.getAsset. intros H.
  bind_ok H. destruct a as [a b0]. apply getUint8Array_within in E.
  bind_ok H. destruct a0 as [sym b1]. apply getSymbol_within in E0.
  injection H as _ <-. eapply read_within_trans; eassumption.
Qed.

(** *** varuint32 decoding always ends *)



(** ** Packed names *)

Lemma range_forall (n : nat) (P : Z -> bool) :
  forallb P (map Z.of_nat (seq 0 n)) = true ->
  forall x, 0 <= x < Z.of_nat n -> P x = true.
Proof.
  intros H x Hx. rewrite forallb_forall in H. apply H.
  apply in_map_iff. exists (Z.to_nat x). split; [lia|].
  apply in_seq. lia.
Qed.

Lemma ofBytes_range a : Forall (fun x => 0 <= x < 256) a ->
  0 <= numeric.ofBytes a < 256 ^ Z.of_nat (List.length a).
Proof.
  induction 1 as [|x a Hx Ha IH]; [simpl; lia|].
  cbn [numeric.ofBytes List.length]. rewrite Nat2Z.inj_succ, Z.pow_succ_r by lia.
  lia.
Qed.

Lemma testbit_ofBytes a : Forall (fun x => 0 <= x < 256) a ->
  forall k, 0 <= k ->
  Z.testbit (numeric.ofBytes a) k = Z.testbit (nth (Z.to_nat (k / 8)) a 0) (k mod 8).
Proof.
  induction 1 as [|x a Hx Ha IH]; intros k Hk.
  - simpl. destruct (Z.to_nat (k / 8)); rewrite !Z.testbit_0_l; reflexivity.
  - cbn [numeric.ofBytes].
    destruct (Z.lt_ge_cases k 8) as [Hlt|Hge].
    + rewrite Z.div_small, Z.mod_small by lia. cbn [Z.to_nat nth].
      rewrite <- (Z.mod_pow2_bits_low (x + 256 * numeric.ofBytes a) 8 k) by lia.
      f_equal. change (2 ^ 8) with 256.
      replace (x + 256 * numeric.ofBytes a) with (x + numeric.ofBytes a * 256) by lia.
      rewrite Z_mod_plus_full. apply Z.mod_small. lia.
    + replace k with ((k - 8) + 8) at 1 by lia.
      rewrite <- Z.div_pow2_bits by lia.
      change (2 ^ 8) with 256.
      replace ((x + 256 * numeric.ofBytes a) / 256) with (numeric.ofBytes a)
        by (replace (x + 256 * numeric.ofBytes a) with (x + numeric.ofBytes a * 256) by lia;
            rewrite Z.div_add by lia; rewrite (Z.div_small x) by lia; lia).
      rewrite IH by lia.
      replace (Z.to_nat (k / 8)) with (S (Z.to_nat ((k - 8) / 8))).
      * cbn [nth]. f_equal.
        replace k with ((k - 8) + 1 * 8) at 2 by lia.
        rewrite Z_mod_plus_full. reflexivity.
      * replace k with ((k - 8) + 1 * 8) at 2 by lia.
        rewrite Z.div_add by lia.
        assert (0 <= (k - 8) / 8) by (apply Z.div_pos; lia). lia.
Qed.

Lemma band_shr_bit x m : 0 <= x < 256 -> 0 <= m < 8 ->
  JS.band (JS.shr x m) 1 = Z.b2z (Z.testbit x m).
Proof.
  intros Hx Hm.
  assert (H : forallb (fun m => JS.band (JS.shr x m) 1 =? Z.b2z (Z.testbit x m))
                (map Z.of_nat (seq 0 8)) = true).
  { apply (byte_forall (fun x => forallb (fun m => JS.band (JS.shr x m) 1 =? Z.b2z (Z.testbit x m))
                (map Z.of_nat (seq 0 8)))); [vm_compute; reflexivity|exact Hx]. }
  apply Z.eqb_eq.
  apply (range_forall 8 (fun m => JS.band (JS.shr x m) 1 =? Z.b2z (Z.testbit x m)) H).
  lia.
Qed.
Lemma nth_byte a i : Forall (fun x => 0 <= x < 256) a -> 0 <= nth i a 0 < 256.
Proof.
  intros H. destruct (Nat.lt_ge_cases i (List.length a)) as [Hlt|Hge].
  - rewrite Forall_forall in H. apply H. apply nth_In. exact Hlt.
  - rewrite nth_overflow by exact Hge. lia.
Qed.

Lemma bor_shl_1 c v : 0 <= c < 2 ^ 30 -> 0 <= v < 2 -> JS.bor (JS.shl c 1) v = 2 * c + v.
Proof.
  intros Hc Hv. rewrite shl_1. unfold JS.bor.
  rewrite (toInt32_small c) by lia.
  rewrite (toInt32_small (2 * c)) by lia.
  rewrite (toInt32_small (2 * c)) by lia.
  rewrite (toInt32_small v) by lia.
  rewrite Z.lor_comm.
  replace (2 * c) with (c * 2 ^ 1) by lia.
  rewrite lor_disjoint by lia. lia.
Qed.

Lemma getName_bit_spec a c p :
  Forall (fun x => 0 <= x < 256) a -> 0 <= p -> 0 <= c < 2 ^ 30 ->
  SB.getName_bit a (c, p) =
    (2 * c + Z.b2z (Z.testbit (numeric.ofBytes a) p), p - 1).
Proof.
  intros Ha Hp Hc. unfold SB.getName_bit.
  destruct (Z.leb_spec 0 p) as [_|]; [|lia].
  rewrite band_shr_bit
    by (try apply nth_byte; try apply Z.mod_pos_bound; auto; lia).
  rewrite <- testbit_ofBytes by auto.
  rewrite bor_shl_1; [reflexivity|lia|].
  destruct (Z.testbit _ _); simpl; lia.
Qed.

Lemma b2z_range (b : bool) : 0 <= Z.b2z b < 2.
Proof. destruct b; simpl; lia. Qed.

Lemma b2z_testbit N k : 0 <= k -> Z.b2z (Z.testbit N k) = (N / 2 ^ k) mod 2.
Proof. intros Hk. apply Z.testbit_spec'. exact Hk. Qed.

Lemma div_pow2_add N q j : 0 <= q -> 0 <= j -> N / 2 ^ (q + j) = N / 2 ^ q / 2 ^ j.
Proof.
  intros Hq Hj. rewrite Z.pow_add_r by lia.
  assert (0 < 2 ^ q) by (apply Z.pow_pos_nonneg; lia).
  assert (0 < 2 ^ j) by (apply Z.pow_pos_nonneg; lia).
  rewrite Z.div_div by lia. reflexivity.
Qed.

Lemma getName_group5 a p :
  Forall (fun x => 0 <= x < 256) a -> 4 <= p ->
  Nat.iter 5 (SB.getName_bit a) (0, p) =
    ((numeric.ofBytes a / 2 ^ (p - 4)) mod 32, p - 5).
Proof.
  intros Ha Hp.
  change (Nat.iter 5 (SB.getName_bit a) (0, p)) with
    (SB.getName_bit a (SB.getName_bit a (SB.getName_bit a
       (SB.getName_bit a (SB.getName_bit a (0, p)))))).
  set (N := numeric.ofBytes a).
  rewrite (getName_bit_spec a 0 p) by (auto; lia). fold N.
  pose proof (b2z_range (Z.testbit N p)).
  rewrite getName_bit_spec by (auto; lia). fold N.
  pose proof (b2z_range (Z.testbit N (p - 1))).
  rewrite getName_bit_spec by (auto; lia). fold N.
  pose proof (b2z_range (Z.testbit N (p - 1 - 1))).
  rewrite getName_bit_spec by (auto; lia). fold N.
  pose proof (b2z_range (Z.testbit N (p - 1 - 1 - 1))).
  rewrite getName_bit_spec by (auto; lia). fold N.
  f_equal; [|lia].
  rewrite !b2z_testbit by lia.
  replace p with ((p - 4) + 4) at 1 by lia.
  replace (p - 1) with ((p - 4) + 3) by lia.
  replace (p - 4 + 3 - 1) with ((p - 4) + 2) by lia.
  replace (p - 4 + 2 - 1) with ((p - 4) + 1) by lia.
  replace (p - 4 + 1 - 1) with ((p - 4) + 0) by lia.
  rewrite !div_pow2_add by lia.
  generalize (N / 2 ^ (p - 4)). intros M.
  change (2 ^ 4) with 16. change (2 ^ 3) with 8. change (2 ^ 2) with 4.
  change (2 ^ 1) with 2. change (2 ^ 0) with 1.
  Z.div_mod_to_equations. lia.
Qed.

Lemma getName_group4 a :
  Forall (fun x => 0 <= x < 256) a ->
  Nat.iter 5 (SB.getName_bit a) (0, 3) = (numeric.ofBytes a mod 16, -1).
Proof.
  intros Ha.
  change (Nat.iter 5 (SB.getName_bit a) (0, 3)) with
    (SB.getName_bit a (SB.getName_bit a (SB.getName_bit a
       (SB.getName_bit a (SB.getName_bit a (0, 3)))))).
  set (N := numeric.ofBytes a).
  rewrite (getName_bit_spec a 0 3) by (auto; lia). fold N.
  pose proof (b2z_range (Z.testbit N 3)).
  rewrite getName_bit_spec by (auto; lia). fold N.
  pose proof (b2z_range (Z.testbit N (3 - 1))).
  rewrite getName_bit_spec by (auto; lia). fold N.
  pose proof (b2z_range (Z.testbit N (3 - 1 - 1))).
  rewrite getName_bit_spec by (auto; lia). fold N.
  change (3 - 1 - 1 - 1 - 1) with (-1).
  unfold SB.getName_bit at 1. cbn [Z.leb Z.compare].
  f_equal.
  rewrite !b2z_testbit by lia.
  change (3 - 1 - 1 - 1) with 0. change (3 - 1 - 1) with 1. change (3 - 1) with 2.
  change (2 ^ 3) with 8. change (2 ^ 2) with 4.
  change (2 ^ 1) with 2. change (2 ^ 0) with 1.
  Z.div_mod_to_equations. lia.
Qed.
Lemma append_nil_r (s : string) : (s ++ "")%string = s.
Proof. induction s as [|c s IH]; simpl; [reflexivity|rewrite IH; reflexivity]. Qed.

Lemma append_assoc (s1 s2 s3 : string) :
  ((s1 ++ s2) ++ s3)%string = (s1 ++ (s2 ++ s3))%string.
Proof. induction s1 as [|c s1 IH]; simpl; [reflexivity|rewrite IH; reflexivity]. Qed.

Lemma length_append (s1 s2 : string) :
  String.length (s1 ++ s2) = (String.length s1 + String.length s2)%nat.
Proof. induction s1 as [|c s1 IH]; simpl; [reflexivity|rewrite IH; reflexivity]. Qed.

Lemma symbolToChar_code_char c : 0 <= c -> SB.symbolToChar c = code_char c.
Proof.
  intros Hc. unfold SB.symbolToChar, code_char.
  destruct (Z.leb_spec 6 c), (Z.eqb_spec c 0), (Z.leb_spec c 5), (Z.leb_spec 1 c);
    try lia; try reflexivity; f_equal; lia.
Qed.

Lemma codes_from_range n N : Forall (fun c => 0 <= c < 32) (codes_from n N).
Proof.
  induction n as [|n IH]; [constructor|].
  cbn [codes_from]. destruct n as [|n].
  - constructor; [|constructor]. pose proof (Z.mod_pos_bound N 16). lia.
  - constructor; [|exact IH]. apply Z.mod_pos_bound. lia.
Qed.

Lemma codes_from_length n N : List.length (codes_from n N) = n.
Proof.
  induction n as [|n IH]; [reflexivity|].
  cbn [codes_from]. destruct n as [|n]; [reflexivity|].
  cbn [List.length]. rewrite IH. reflexivity.
Qed.

Lemma getName_loop_spec a : Forall (fun x => 0 <= x < 256) a ->
  forall n fuel res, (n < fuel)%nat ->
  SB.getName_loop fuel a (5 * Z.of_nat n - 2) res =
    Ok (res ++ string_of_chars (map code_char (codes_from n (numeric.ofBytes a))))%string.
Proof.
  intros Ha. induction n as [|n IH]; intros fuel res Hf;
    (destruct fuel as [|fuel]; [lia|]); cbn [SB.getName_loop].
  - cbn [Z.of_nat Z.mul Z.sub Z.add Z.opp Z.pos_sub Z.leb Z.compare codes_from map string_of_chars].
    rewrite append_nil_r. reflexivity.
  - destruct (Z.leb_spec 0 (5 * Z.of_nat (S n) - 2)) as [_|]; [|lia].
    destruct n as [|n].
    + change (5 * Z.of_nat 1 - 2) with 3.
      rewrite getName_group4 by exact Ha.
      destruct fuel as [|fuel]; [lia|]. cbn [SB.getName_loop Z.leb Z.compare].
      cbn [codes_from map string_of_chars].
      rewrite symbolToChar_code_char
        by (pose proof (Z.mod_pos_bound (numeric.ofBytes a) 16); lia).
      reflexivity.
    + rewrite getName_group5 by (auto; lia).
      replace (5 * Z.of_nat (S (S n)) - 2 - 5) with (5 * Z.of_nat (S n) - 2) by lia.
      rewrite IH by lia.
      replace (5 * Z.of_nat (S (S n)) - 2 - 4) with (5 * Z.of_nat (S n) - 1) by lia.
      change (codes_from (S (S n)) (numeric.ofBytes a)) with
        ((numeric.ofBytes a / 2 ^ (5 * Z.of_nat (S n) - 1)) mod 32
           :: codes_from (S n) (numeric.ofBytes a)).
      cbn [map string_of_chars].
      rewrite symbolToChar_code_char by (apply Z.mod_pos_bound; lia).
      rewrite append_assoc. reflexivity.
Qed.

(** Strings and their last character *)

Lemma endsWith_dot_cons c s :
  JSString.endsWith (String c s) "." =
    match s with
    | EmptyString => Ascii.eqb c "."%char
    | _ => JSString.endsWith s "."
    end.
Proof.
  unfold JSString.endsWith. cbn [String.length].
  destruct s as [|c' s].
  - simpl. destruct (Ascii.eqb c "."%char) eqn:E; reflexivity.
  - cbn [String.length Nat.leb Nat.sub].
    change (String.length "." <=? S (String.length s))%nat with true. cbn iota.
    replace (S (String.length s) - String.length ".")%nat with (String.length s)
      by (simpl; lia).
    rewrite Nat.sub_0_r. reflexivity.
Qed.
Lemma substr_init s :
  JSString.substr s 0 (Some (JSString.len s - 1)) =
    substring 0 (String.length s - 1) s.
Proof.
  unfold JSString.substr, JSString.len. cbn [Z.ltb Z.compare].
  rewrite Z.min_l by lia. cbn [Z.to_nat].
  f_equal. lia.
Qed.

Lemma init_cons c c' s :
  substring 0 (String.length (String c (String c' s)) - 1) (String c (String c' s)) =
    String c (substring 0 (String.length (String c' s) - 1) (String c' s)).
Proof. cbn [String.length Nat.sub]. rewrite !Nat.sub_0_r. reflexivity. Qed.

Lemma strip_dots_init s : JSString.endsWith s "." = true ->
  strip_dots (substring 0 (String.length s - 1) s) = strip_dots s /\
  (String.length (substring 0 (String.length s - 1) s) < String.length s)%nat.
Proof.
  induction s as [|c s IH]; [discriminate|].
  rewrite endsWith_dot_cons. destruct s as [|c' s].
  - intros E. cbn. rewrite E. split; [reflexivity|lia].
  - intros E. destruct (IH E) as (IH1 & IH2).
    rewrite init_cons. cbn [strip_dots] in IH1 |- *. rewrite IH1.
    split; [reflexivity|]. cbn [String.length] in IH2 |- *. lia.
Qed.

Lemma strip_dots_id s : JSString.endsWith s "." = false -> strip_dots s = s.
Proof.
  induction s as [|c s IH]; [reflexivity|].
  rewrite endsWith_dot_cons. destruct s as [|c' s].
  - intros E. cbn. rewrite E. reflexivity.
  - intros E. cbn [strip_dots] in IH |- *. rewrite (IH E). reflexivity.
Qed.

Lemma stripDots_spec fuel : forall s, (String.length s < fuel)%nat ->
  SB.stripDots fuel s = Ok (strip_dots s).
Proof.
  induction fuel as [|fuel IH]; intros s Hf; [lia|].
  cbn [SB.stripDots]. destruct (JSString.endsWith s ".") eqn:E.
  - rewrite substr_init. destruct (strip_dots_init s E) as (H1 & H2).
    rewrite IH by lia. rewrite H1. reflexivity.
  - rewrite (strip_dots_id s E). reflexivity.
Qed.

Lemma strip_dots_pad s :
  exists k, s = (strip_dots s ++ string_of_chars (repeat "."%char k))%string.
Proof.
  induction s as [|c s (k & IH)]; [exists 0%nat; reflexivity|].
  cbn [strip_dots]. destruct (strip_dots s) as [|c' t] eqn:E.
  - destruct (Ascii.eqb_spec c "."%char) as [->|Hne].
    + exists (S k). cbn. rewrite IH at 1. reflexivity.
    + exists k. cbn. rewrite IH at 1. reflexivity.
  - exists k. cbn. rewrite IH at 1. reflexivity.
Qed.

Lemma strip_dots_length s : (String.length (strip_dots s) <= String.length s)%nat.
Proof.
  destruct (strip_dots_pad s) as (k & E). rewrite E at 2.
  rewrite length_append. lia.
Qed.

Lemma string_of_chars_length l : String.length (string_of_chars l) = List.length l.
Proof. induction l as [|c l IH]; simpl; [reflexivity|rewrite IH; reflexivity]. Qed.

Lemma unpackName_spec a : Forall (fun x => 0 <= x < 256) a ->
  SB.unpackName a = Ok (name_text a).
Proof.
  intros Ha. unfold SB.unpackName.
  change 63 with (5 * Z.of_nat 13 - 2).
  rewrite (getName_loop_spec a Ha 13 65 EmptyString) by lia.
  cbn [bind append].
  unfold name_text, name_codes.
  destruct (String.eqb _ _); [reflexivity|].
  apply stripDots_spec. lia.
Qed.
(** Writing bits into the eight bytes *)

Lemma typed_store_length a : forall i y, List.length (SB.typed_store a i y) = List.length a.
Proof.
  induction a as [|x a IH]; intros [|i] y; simpl; auto.
Qed.

Lemma typed_store_bytes a : Forall (fun x => 0 <= x < 256) a ->
  forall i y, Forall (fun x => 0 <= x < 256) (SB.typed_store a i y).
Proof.
  induction 1 as [|x a Hx Ha IH]; intros [|i] y; simpl; constructor; auto.
  apply toUint8_range.
Qed.

Lemma typed_store_nth a : forall i j y, (i < List.length a)%nat ->
  nth j (SB.typed_store a i y) 0 = if (j =? i)%nat then JS.toUint8 y else nth j a 0.
Proof.
  induction a as [|x a IH]; intros i j y Hi; simpl in Hi; [lia|].
  destruct i as [|i], j as [|j]; simpl; auto.
  apply IH. lia.
Qed.

Lemma typed_store_same a : Forall (fun x => 0 <= x < 256) a ->
  forall i, SB.typed_store a i (nth i a 0) = a.
Proof.
  induction 1 as [|x a Hx Ha IH]; intros [|i]; simpl; auto.
  - rewrite toUint8_id by lia. reflexivity.
  - rewrite IH. reflexivity.
Qed.

Lemma store_bit_byte x m v t : 0 <= x < 256 -> 0 <= m < 8 -> 0 <= v < 2 -> 0 <= t < 8 ->
  Z.testbit (JS.toUint8 (JS.bor x (JS.shl v m))) t =
    Z.testbit x t || ((t =? m) && (v =? 1)).
Proof.
  intros Hx Hm Hv Ht.
  pose (P := fun x => forallb (fun m => forallb (fun v => forallb (fun t =>
    Bool.eqb (Z.testbit (JS.toUint8 (JS.bor x (JS.shl v m))) t)
             (Z.testbit x t || ((t =? m) && (v =? 1))))
    (map Z.of_nat (seq 0 8))) (map Z.of_nat (seq 0 2))) (map Z.of_nat (seq 0 8))).
  assert (H : P x = true) by (apply byte_forall; [vm_compute; reflexivity|exact Hx]).
  unfold P in H.
  pose proof (range_forall 8 _ H m ltac:(lia)) as H1. cbv beta in H1.
  pose proof (range_forall 2 _ H1 v ltac:(lia)) as H2. cbv beta in H2.
  pose proof (range_forall 8 _ H2 t ltac:(lia)) as H3. cbv beta in H3.
  apply Bool.eqb_prop in H3. exact H3.
Qed.

Lemma div8_eq k p : 0 <= k -> 0 <= p ->
  (Z.to_nat (k / 8) =? Z.to_nat (p / 8))%nat && (k mod 8 =? p mod 8) = (k =? p).
Proof.
  intros Hk Hp.
  assert (0 <= k / 8) by (apply Z.div_pos; lia).
  assert (0 <= p / 8) by (apply Z.div_pos; lia).
  destruct (Z.eqb_spec k p) as [->|Hne].
  - rewrite Nat.eqb_refl, Z.eqb_refl. reflexivity.
  - destruct (Nat.eqb_spec (Z.to_nat (k / 8)) (Z.to_nat (p / 8))) as [E|]; [|reflexivity].
    destruct (Z.eqb_spec (k mod 8) (p mod 8)) as [E2|]; [|reflexivity].
    exfalso. apply Hne.
    rewrite (Z.div_mod k 8), (Z.div_mod p 8) by lia. lia.
Qed.

Lemma pushName_bit_spec c a p j v :
  bytes8 a -> 0 <= p < 64 -> JS.band (JS.shr c j) 1 = v -> 0 <= v < 2 ->
  exists a', SB.pushName_bit c (a, p) j = (a', p - 1) /\ bytes8 a' /\
    forall k, 0 <= k ->
      Z.testbit (numeric.ofBytes a') k =
        Z.testbit (numeric.ofBytes a) k || ((k =? p) && (v =? 1)).
Proof.
  intros (Hl & Ha) Hp Hv Hv2. unfold SB.pushName_bit.
  destruct (Z.leb_spec 0 p) as [_|]; [|lia].
  rewrite Hv. eexists. split; [reflexivity|].
  assert (Hi : (Z.to_nat (p / 8) < 8)%nat).
  { assert (p / 8 < 8) by (apply Z.div_lt_upper_bound; lia).
    assert (0 <= p / 8) by (apply Z.div_pos; lia). lia. }
  split.
  - split; [rewrite typed_store_length; exact Hl|apply typed_store_bytes; exact Ha].
  - intros k Hk.
    rewrite !testbit_ofBytes by (auto using typed_store_bytes).
    rewrite typed_store_nth by lia.
    rewrite <- (div8_eq k p) by lia.
    destruct (Nat.eqb_spec (Z.to_nat (k / 8)) (Z.to_nat (p / 8))) as [E|Hne].
    + rewrite store_bit_byte
        by (try apply nth_byte; try apply Z.mod_pos_bound; auto; lia).
      rewrite E. reflexivity.
    + cbn [andb]. rewrite orb_false_r. reflexivity.
Qed.

Lemma pushName_bit_neg c a p j : p < 0 -> SB.pushName_bit c (a, p) j = (a, p).
Proof.
  intros Hp. unfold SB.pushName_bit.
  destruct (Z.leb_spec 0 p); [lia|reflexivity].
Qed.

Lemma charToSymbol_range ch : 0 <= SB.charToSymbol ch < 32.
Proof.
  unfold SB.charToSymbol.
  destruct (Z.leb_spec 97 ch), (Z.leb_spec ch 122), (Z.leb_spec 49 ch), (Z.leb_spec ch 53);
    cbn [andb]; lia.
Qed.

Lemma code_bit c j : 0 <= c < 64 -> 0 <= j < 5 ->
  0 <= JS.band (JS.shr c j) 1 < 2 /\
  (JS.band (JS.shr c j) 1 =? 1) = Z.testbit c j.
Proof.
  intros Hc Hj.
  pose (P := fun c => forallb (fun j =>
     (0 <=? JS.band (JS.shr c j) 1) && (JS.band (JS.shr c j) 1 <? 2) &&
     Bool.eqb (JS.band (JS.shr c j) 1 =? 1) (Z.testbit c j)) (map Z.of_nat (seq 0 5))).
  assert (H : forallb P (map Z.of_nat (seq 0 64)) = true) by (vm_compute; reflexivity).
  pose proof (range_forall 64 _ H c ltac:(lia)) as H1. unfold P in H1.
  pose proof (range_forall 5 _ H1 j ltac:(lia)) as H2. cbv beta in H2.
  apply andb_true_iff in H2 as [H2 H3]. apply andb_true_iff in H2 as [H2 H4].
  apply Bool.eqb_prop in H3. split; [lia|exact H3].
Qed.
Ltac eqb_cases :=
  repeat match goal with
    | |- context [?x =? ?y] => destruct (Z.eqb_spec x y); try lia
    | |- context [?x <=? ?y] => destruct (Z.leb_spec x y); try lia
    | |- context [?x <? ?y] => destruct (Z.ltb_spec x y); try lia
    end.

Lemma pushName_char_group5 a p ch :
  bytes8 a -> 5 <= p < 64 ->
  exists a', SB.pushName_char (a, p) ch = (a', p - 5) /\ bytes8 a' /\
    forall k, 0 <= k ->
      Z.testbit (numeric.ofBytes a') k =
        Z.testbit (numeric.ofBytes a) k
        || ((p - 4 <=? k) && (k <=? p) && Z.testbit (SB.charToSymbol ch) (k - (p - 4))).
Proof.
  intros Ha Hp. unfold SB.pushName_char. cbn [snd].
  destruct (Z.ltb_spec p 5) as [|_]; [lia|].
  pose proof (charToSymbol_range ch) as Hc.
  set (c := SB.charToSymbol ch) in *.
  cbn [fold_left].
  destruct (code_bit c 4 ltac:(lia) ltac:(lia)) as (R4 & V4).
  destruct (code_bit c 3 ltac:(lia) ltac:(lia)) as (R3 & V3).
  destruct (code_bit c 2 ltac:(lia) ltac:(lia)) as (R2 & V2).
  destruct (code_bit c 1 ltac:(lia) ltac:(lia)) as (R1 & V1).
  destruct (code_bit c 0 ltac:(lia) ltac:(lia)) as (R0 & V0).
  destruct (pushName_bit_spec c a p 4 _ Ha ltac:(lia) eq_refl R4) as (a1 & E1 & B1 & T1).
  rewrite E1.
  destruct (pushName_bit_spec c a1 (p - 1) 3 _ B1 ltac:(lia) eq_refl R3) as (a2 & E2 & B2 & T2).
  rewrite E2.
  destruct (pushName_bit_spec c a2 (p - 1 - 1) 2 _ B2 ltac:(lia) eq_refl R2) as (a3 & E3 & B3 & T3).
  rewrite E3.
  destruct (pushName_bit_spec c a3 (p - 1 - 1 - 1) 1 _ B3 ltac:(lia) eq_refl R1) as (a4 & E4 & B4 & T4).
  rewrite E4.
  destruct (pushName_bit_spec c a4 (p - 1 - 1 - 1 - 1) 0 _ B4 ltac:(lia) eq_refl R0) as (a5 & E5 & B5 & T5).
  rewrite E5.
  exists a5. split; [f_equal; lia|]. split; [exact B5|].
  intros k Hk. rewrite T5, T4, T3, T2, T1 by lia.
  rewrite V4, V3, V2, V1, V0.
  destruct (Z.testbit (numeric.ofBytes a) k); [reflexivity|]. cbn [orb].
  eqb_cases; cbn [andb orb]; rewrite ?orb_false_r; try reflexivity; f_equal; lia.
Qed.

Lemma shifted_code_bit c j : 0 <= c < 32 -> 1 <= j < 5 ->
  0 <= JS.band (JS.shr (JS.shl c 1) j) 1 < 2 /\
  (JS.band (JS.shr (JS.shl c 1) j) 1 =? 1) = Z.testbit c (j - 1).
Proof.
  intros Hc Hj.
  pose (P := fun c => forallb (fun j =>
     (j =? 0) ||
     ((0 <=? JS.band (JS.shr (JS.shl c 1) j) 1) && (JS.band (JS.shr (JS.shl c 1) j) 1 <? 2) &&
      Bool.eqb (JS.band (JS.shr (JS.shl c 1) j) 1 =? 1) (Z.testbit c (j - 1))))
     (map Z.of_nat (seq 0 5))).
  assert (H : forallb P (map Z.of_nat (seq 0 32)) = true) by (vm_compute; reflexivity).
  pose proof (range_forall 32 _ H c ltac:(lia)) as H1. unfold P in H1.
  pose proof (range_forall 5 _ H1 j ltac:(lia)) as H2. cbv beta in H2.
  apply orb_true_iff in H2 as [H2|H2]; [apply Z.eqb_eq in H2; lia|].
  apply andb_true_iff in H2 as [H2 H3]. apply andb_true_iff in H2 as [H2 H4].
  apply Bool.eqb_prop in H3. split; [lia|exact H3].
Qed.

Lemma pushName_char_group4 a ch :
  bytes8 a ->
  exists a', SB.pushName_char (a, 3) ch = (a', -1) /\ bytes8 a' /\
    forall k, 0 <= k ->
      Z.testbit (numeric.ofBytes a') k =
        Z.testbit (numeric.ofBytes a) k
        || ((k <=? 3) && Z.testbit (SB.charToSymbol ch) k).
Proof.
  intros Ha. unfold SB.pushName_char. cbn [snd]. change (3 <? 5) with true. cbv iota.
  pose proof (charToSymbol_range ch) as Hc.
  set (c := SB.charToSymbol ch) in *.
  cbn [fold_left].
  destruct (shifted_code_bit c 4 ltac:(lia) ltac:(lia)) as (R4 & V4).
  destruct (shifted_code_bit c 3 ltac:(lia) ltac:(lia)) as (R3 & V3).
  destruct (shifted_code_bit c 2 ltac:(lia) ltac:(lia)) as (R2 & V2).
  destruct (shifted_code_bit c 1 ltac:(lia) ltac:(lia)) as (R1 & V1).
  destruct (pushName_bit_spec (JS.shl c 1) a 3 4 _ Ha ltac:(lia) eq_refl R4) as (a1 & E1 & B1 & T1).
  rewrite E1.
  destruct (pushName_bit_spec (JS.shl c 1) a1 (3 - 1) 3 _ B1 ltac:(lia) eq_refl R3) as (a2 & E2 & B2 & T2).
  rewrite E2.
  destruct (pushName_bit_spec (JS.shl c 1) a2 (3 - 1 - 1) 2 _ B2 ltac:(lia) eq_refl R2) as (a3 & E3 & B3 & T3).
  rewrite E3.
  destruct (pushName_bit_spec (JS.shl c 1) a3 (3 - 1 - 1 - 1) 1 _ B3 ltac:(lia) eq_refl R1) as (a4 & E4 & B4 & T4).
  rewrite E4.
  rewrite pushName_bit_neg by lia.
  exists a4. split; [reflexivity|]. split; [exact B4|].
  intros k Hk. rewrite T4, T3, T2, T1 by lia.
  rewrite V4, V3, V2, V1.
  destruct (Z.testbit (numeric.ofBytes a) k); [reflexivity|]. cbn [orb].
  eqb_cases; cbn [andb orb]; rewrite ?orb_false_r; try reflexivity; f_equal; lia.
Qed.

Lemma pushName_char_done a p ch : p < 0 -> SB.pushName_char (a, p) ch = (a, p).
Proof.
  intros Hp. unfold SB.pushName_char. cbn [fold_left].
  rewrite !pushName_bit_neg by lia. reflexivity.
Qed.
Lemma charToSymbol_code_char c : 0 <= c < 32 ->
  SB.charToSymbol (JSString.code (code_char c)) = c.
Proof.
  intros Hc. apply Z.eqb_eq.
  apply (range_forall 32 (fun c => SB.charToSymbol (JSString.code (code_char c)) =? c));
    [vm_compute; reflexivity|lia].
Qed.

Lemma testbit_group N q t : 0 <= q -> 0 <= t < 5 ->
  Z.testbit ((N / 2 ^ q) mod 32) t = Z.testbit N (t + q).
Proof.
  intros Hq Ht. change 32 with (2 ^ 5).
  rewrite Z.mod_pow2_bits_low by lia. apply Z.div_pow2_bits; lia.
Qed.

Lemma testbit_low4 N t : 0 <= t < 4 -> Z.testbit (N mod 16) t = Z.testbit N t.
Proof. intros Ht. change 16 with (2 ^ 4). apply Z.mod_pow2_bits_low. lia. Qed.

Lemma packName_fold N : forall n a0, (n <= 13)%nat -> bytes8 a0 ->
  exists a' p',
    fold_left SB.pushName_char
      (JSString.codes (string_of_chars (map code_char (codes_from n N))))
      (a0, 5 * Z.of_nat n - 2) = (a', p') /\
    bytes8 a' /\
    forall k, 0 <= k ->
      Z.testbit (numeric.ofBytes a') k =
        Z.testbit (numeric.ofBytes a0) k
        || ((k <? 5 * Z.of_nat n - 1) && Z.testbit N k).
Proof.
  induction n as [|n IH]; intros a0 Hn Ha0.
  - exists a0, (5 * Z.of_nat 0 - 2). cbn [codes_from map string_of_chars JSString.codes fold_left].
    split; [reflexivity|]. split; [exact Ha0|].
    intros k Hk. destruct (Z.ltb_spec k (5 * Z.of_nat 0 - 1)); [lia|].
    cbn [andb]. rewrite orb_false_r. reflexivity.
  - destruct n as [|n].
    + change (codes_from 1 N) with [N mod 16].
      cbn [map string_of_chars JSString.codes fold_left].
      change (5 * Z.of_nat 1 - 2) with 3.
      destruct (pushName_char_group4 a0 (JSString.code (code_char (N mod 16))) Ha0)
        as (a1 & E1 & B1 & T1).
      rewrite E1. exists a1, (-1). split; [reflexivity|]. split; [exact B1|].
      intros k Hk. rewrite T1 by lia.
      rewrite charToSymbol_code_char by (pose proof (Z.mod_pos_bound N 16); lia).
      change (5 * Z.of_nat 1 - 1) with 4.
      destruct (Z.leb_spec k 3), (Z.ltb_spec k 4); try lia; cbn [andb]; [|reflexivity].
      rewrite testbit_low4 by lia. reflexivity.
    + change (codes_from (S (S n)) N) with
        ((N / 2 ^ (5 * Z.of_nat (S n) - 1)) mod 32 :: codes_from (S n) N).
      cbn [map string_of_chars JSString.codes fold_left].
      set (p := 5 * Z.of_nat (S (S n)) - 2).
      assert (Hp : 8 <= p < 64) by (unfold p; lia).
      replace (5 * Z.of_nat (S n) - 1) with (p - 4) by (unfold p; lia).
      destruct (pushName_char_group5 a0 p
                  (JSString.code (code_char ((N / 2 ^ (p - 4)) mod 32))) Ha0 ltac:(lia))
        as (a1 & E1 & B1 & T1).
      rewrite E1.
      replace (p - 5) with (5 * Z.of_nat (S n) - 2) by (unfold p; lia).
      destruct (IH a1 ltac:(lia) B1) as (a' & p' & E' & B' & T').
      rewrite E'.
      exists a', p'. split; [reflexivity|]. split; [exact B'|].
      intros k Hk. rewrite T', T1 by lia.
      rewrite charToSymbol_code_char by (apply Z.mod_pos_bound; lia).
      replace (5 * Z.of_nat (S n) - 1) with (p - 4) by (unfold p; lia).
      replace (5 * Z.of_nat (S (S n)) - 1) with (p + 1) by (unfold p; lia).
      destruct (Z.testbit (numeric.ofBytes a0) k); [reflexivity|]. cbn [orb].
      destruct (Z.leb_spec (p - 4) k), (Z.leb_spec k p), (Z.ltb_spec k (p - 4)),
        (Z.ltb_spec k (p + 1)); try lia; cbn [andb orb]; rewrite ?orb_false_r;
        try reflexivity.
      rewrite testbit_group by lia. f_equal. lia.
Qed.

Lemma ofBytes_inj a : forall b,
  Forall (fun x => 0 <= x < 256) a -> Forall (fun x => 0 <= x < 256) b ->
  List.length a = List.length b -> numeric.ofBytes a = numeric.ofBytes b -> a = b.
Proof.
  induction a as [|x a IH]; intros [|y b] Ha Hb Hl E; try discriminate; [reflexivity|].
  apply Forall_cons_iff in Ha as [Hx Ha]. apply Forall_cons_iff in Hb as [Hy Hb].
  cbn [numeric.ofBytes] in E. injection Hl as Hl.
  assert (x = y /\ numeric.ofBytes a = numeric.ofBytes b) as [-> E2] by lia.
  f_equal. apply IH; auto.
Qed.

Lemma codes_app s1 s2 :
  JSString.codes (s1 ++ s2) = JSString.codes s1 ++ JSString.codes s2.
Proof. induction s1 as [|c s1 IH]; simpl; [reflexivity|rewrite IH; reflexivity]. Qed.

Lemma pushName_bit_bytes c a p j :
  Forall (fun x => 0 <= x < 256) a ->
  Forall (fun x => 0 <= x < 256) (fst (SB.pushName_bit c (a, p) j)).
Proof.
  intros Ha. unfold SB.pushName_bit. destruct (0 <=? p); cbn [fst]; auto.
  apply typed_store_bytes. exact Ha.
Qed.

Lemma pushName_char_bytes st ch :
  Forall (fun x => 0 <= x < 256) (fst st) ->
  Forall (fun x => 0 <= x < 256) (fst (SB.pushName_char st ch)).
Proof.
  intros Ha. unfold SB.pushName_char.
  generalize (if snd st <? 5 then JS.shl (SB.charToSymbol ch) 1 else SB.charToSymbol ch).
  intros c. cbn [fold_left]. destruct st as [a p]. cbn [fst] in Ha.
  repeat match goal with
    | |- Forall _ (fst (SB.pushName_bit ?c ?st ?j)) =>
        let a := fresh "a" in let p := fresh "p" in let E := fresh "E" in
        destruct st as [a p] eqn:E; apply pushName_bit_bytes;
        match type of E with ?t = _ => replace a with (fst t) by (rewrite E; reflexivity) end
    end.
  exact Ha.
Qed.

Lemma pushName_fold_bytes l : forall st,
  Forall (fun x => 0 <= x < 256) (fst st) ->
  Forall (fun x => 0 <= x < 256) (fst (fold_left SB.pushName_char l st)).
Proof.
  induction l as [|ch l IH]; intros st H; cbn [fold_left]; auto.
  apply IH. apply pushName_char_bytes. exact H.
Qed.

Lemma pushName_bit_zero a p j m : Forall (fun x => 0 <= x < 256) a ->
  JS.band (JS.shr m j) 1 = 0 ->
  fst (SB.pushName_bit m (a, p) j) = a.
Proof.
  intros Ha Hz. unfold SB.pushName_bit. destruct (0 <=? p); [|reflexivity].
  cbn [fst]. rewrite Hz.
  replace (JS.shl 0 (p mod 8)) with 0
    by (unfold JS.shl; change (JS.toInt32 0) with 0; rewrite Z.shiftl_0_l; reflexivity).
  replace (JS.bor (nth (Z.to_nat (p / 8)) a 0) 0) with (nth (Z.to_nat (p / 8)) a 0).
  - apply typed_store_same. exact Ha.
  - unfold JS.bor. change (JS.toInt32 0) with 0. rewrite Z.lor_0_r.
    rewrite toInt32_small; [reflexivity|].
    pose proof (nth_byte a (Z.to_nat (p / 8)) Ha). lia.
Qed.
Lemma pushName_char_dot a p : Forall (fun x => 0 <= x < 256) a ->
  fst (SB.pushName_char (a, p) 46) = a.
Proof.
  intros Ha. unfold SB.pushName_char.
  change (SB.charToSymbol 46) with 0. change (JS.shl 0 1) with 0.
  replace (if snd (a, p) <? 5 then 0 else 0) with 0 by (destruct (_ <? _); reflexivity).
  cbn [fold_left].
  assert (Z4 : JS.band (JS.shr 0 4) 1 = 0) by reflexivity.
  assert (Z3 : JS.band (JS.shr 0 3) 1 = 0) by reflexivity.
  assert (Z2 : JS.band (JS.shr 0 2) 1 = 0) by reflexivity.
  assert (Z1 : JS.band (JS.shr 0 1) 1 = 0) by reflexivity.
  assert (Z0 : JS.band (JS.shr 0 0) 1 = 0) by reflexivity.
  destruct (SB.pushName_bit 0 (a, p) 4) as [a1 p1] eqn:E1.
  assert (A1 : a1 = a)
    by (change a1 with (fst (a1, p1)); rewrite <- E1; apply pushName_bit_zero; auto).
  subst a1.
  destruct (SB.pushName_bit 0 (a, p1) 3) as [a2 p2] eqn:E2.
  assert (A2 : a2 = a)
    by (change a2 with (fst (a2, p2)); rewrite <- E2; apply pushName_bit_zero; auto).
  subst a2.
  destruct (SB.pushName_bit 0 (a, p2) 2) as [a3 p3] eqn:E3.
  assert (A3 : a3 = a)
    by (change a3 with (fst (a3, p3)); rewrite <- E3; apply pushName_bit_zero; auto).
  subst a3.
  destruct (SB.pushName_bit 0 (a, p3) 1) as [a4 p4] eqn:E4.
  assert (A4 : a4 = a)
    by (change a4 with (fst (a4, p4)); rewrite <- E4; apply pushName_bit_zero; auto).
  subst a4.
  apply pushName_bit_zero; auto.
Qed.

Lemma pushName_fold_dots k : forall st,
  Forall (fun x => 0 <= x < 256) (fst st) ->
  fst (fold_left SB.pushName_char
         (JSString.codes (string_of_chars (repeat "."%char k))) st) = fst st.
Proof.
  induction k as [|k IH]; intros [a p] Ha; [reflexivity|].
  cbn [repeat string_of_chars JSString.codes fold_left].
  change (JSString.code "."%char) with 46.
  cbn [fst] in Ha.
  rewrite IH by (apply pushName_char_bytes; exact Ha).
  apply pushName_char_dot. exact Ha.
Qed.

Lemma zeros_bytes8 : bytes8 (repeat 0 8).
Proof. split; [reflexivity|]. repeat constructor; lia. Qed.

Lemma packName_name_text a : bytes8 a -> SB.packName (name_text a) = a.
Proof.
  intros Ha. pose proof Ha as (Hl & Hb).
  set (s := string_of_chars (map code_char (name_codes a))).
  assert (Hpad : exists k, s = (name_text a ++ string_of_chars (repeat "."%char k))%string).
  { unfold name_text. fold s. destruct (String.eqb s ".............").
    - exists 0%nat. cbn [repeat string_of_chars]. rewrite append_nil_r. reflexivity.
    - apply strip_dots_pad. }
  destruct Hpad as (k & Hpad).
  destruct (packName_fold (numeric.ofBytes a) 13 (repeat 0 8) ltac:(lia) zeros_bytes8)
    as (a' & p' & E & B' & T).
  fold (name_codes a) in E. fold s in E. change (5 * Z.of_nat 13 - 2) with 63 in E.
  assert (Ea : a' = a).
  { destruct B' as (Hl' & Hb').
    apply ofBytes_inj; auto; [congruence|].
    apply Z.bits_inj'. intros n Hn. rewrite T by exact Hn.
    change (numeric.ofBytes (repeat 0 8)) with 0. rewrite Z.testbit_0_l. cbn [orb].
    change (5 * Z.of_nat 13 - 1) with 64.
    destruct (Z.ltb_spec n 64) as [Hlt|Hge]; [reflexivity|]. cbn [andb].
    rewrite testbit_ofBytes by auto.
    rewrite nth_overflow; [rewrite Z.testbit_0_l; reflexivity|].
    rewrite Hl. assert (8 <= n / 8) by (apply Z.div_le_lower_bound; lia). lia. }
  subst a'. unfold SB.packName.
  rewrite Hpad, codes_app, fold_left_app in E.
  rewrite <- (pushName_fold_dots k
                (fold_left SB.pushName_char (JSString.codes (name_text a)) (repeat 0 8, 63))).
  - rewrite E. reflexivity.
  - apply pushName_fold_bytes. apply zeros_bytes8.
Qed.

Lemma name_text_length a : (String.length (name_text a) <= 13)%nat.
Proof.
  unfold name_text.
  set (s := string_of_chars (map code_char (name_codes a))).
  assert (Hs : String.length s = 13%nat).
  { unfold s, name_codes. rewrite string_of_chars_length, length_map, codes_from_length.
    reflexivity. }
  destruct (String.eqb s "............."); [lia|].
  pose proof (strip_dots_length s). lia.
Qed.

Lemma getUint8Array_spec b a rest : SB.wf b -> SB.unread b = a ++ rest ->
  SB.getUint8Array b (List.length a) = Ok (a, advance b (List.length a)) /\
  SB.wf (advance b (List.length a)) /\
  SB.unread (advance b (List.length a)) = rest.
Proof.
  intros Hwf Hun. pose proof (unread_length b Hwf) as Hl.
  pose proof Hwf as (W1 & W2 & _).
  rewrite Hun, length_app in Hl. unfold SB.getUint8Array.
  destruct (Nat.ltb_spec (SB.length b) (SB.readPos b + List.length a)) as [|Hle]; [lia|].
  split; [|split].
  - f_equal. f_equal.
    rewrite firstn_skipn_comm.
    replace (firstn (SB.readPos b + List.length a) (SB.array b))
      with (firstn (SB.readPos b + List.length a) (SB.asUint8Array b))
      by (unfold SB.asUint8Array; rewrite firstn_firstn; f_equal; lia).
    rewrite <- firstn_skipn_comm. fold (SB.unread b). rewrite Hun.
    rewrite firstn_app, firstn_all, Nat.sub_diag. cbn [firstn]. apply app_nil_r.
  - apply advance_wf; [exact Hwf|lia].
  - rewrite unread_advance, Hun, skipn_app, skipn_all, Nat.sub_diag. reflexivity.
Qed.

(** C4. For every eight bytes [a]: [getName] returns [name_text a], the
    thirteen codes of the 64-bit value (five bits each from the top, the
    last four bits for the thirteenth) mapped to characters, with trailing
    dots stripped unless all thirteen are dots; the text has at most 13
    characters; [pushName] of that text writes the original eight bytes
    back, for the 13-dot text too; and decoding the re-encoded text gives
    the same text again. *)
Theorem C4_name_roundtrip (a : list Z) :
  bytes8 a ->
  (forall b rest, SB.wf b -> SB.unread b = a ++ rest ->
     SB.getName b = Ok (name_text a, advance b 8)) /\
  (String.length (name_text a) <= 13)%nat /\
  (forall b, SB.wf b ->
     exists b', SB.pushName b (name_text a) = Ok b' /\
       SB.asUint8Array b' = SB.asUint8Array b ++ a) /\
  SB.unpackName (SB.packName (name_text a)) = Ok (name_text a).
Proof.
  intros Ha. pose proof Ha as (Hl & Hb).
  split; [|split; [|split]].
  - intros b rest Hwf Hun. unfold SB.getName.
    destruct (getUint8Array_spec b a rest Hwf Hun) as (G & _).
    rewrite Hl in G. rewrite G. cbn [bind].
    rewrite unpackName_spec by exact Hb. reflexivity.
  - apply name_text_length.
  - intros b Hwf. unfold SB.pushName. rewrite packName_name_text by exact Ha.
    destruct (pushArray_ok b a Hwf) as (b' & E & _ & _ & Hv & _).
    exists b'. split; [exact E|]. rewrite Hv. f_equal.
    clear - Hb. induction Hb as [|x a Hx Ha IH]; [reflexivity|].
    cbn [map]. rewrite toUint8_id by lia. rewrite IH. reflexivity.
  - rewrite packName_name_text by exact Ha. apply unpackName_spec. exact Hb.
Qed.

Lemma C4_name_roundtrip_witness :
  SB.unpackName (SB.packName (name_text [0; 0; 0; 0; 0; 92; 115; 85])) =
    Ok (name_text [0; 0; 0; 0; 0; 92; 115; 85]).
Proof.
  refine (proj2 (proj2 (proj2
            (C4_name_roundtrip [0; 0; 0; 0; 0; 92; 115; 85] _)))).
  split; [reflexivity|]. repeat constructor; lia.
Defined.

(** ** Assets *)

Lemma pushSymbol_spec b s : SB.wf b ->
  exists b', SB.pushSymbol b s = Ok b' /\
    SB.asUint8Array b' = SB.asUint8Array b ++
      map JS.toUint8 (SB.padTo8 (JS.band (SB.precision s) 255 :: textEncoder_encode (SB.name s))) /\
    SB.unread b' = SB.unread b ++
      map JS.toUint8 (SB.padTo8 (JS.band (SB.precision s) 255 :: textEncoder_encode (SB.name s))) /\
    SB.wf b'.
Proof.
  intros Hwf. unfold SB.pushSymbol.
  destruct (pushArray_ok b (SB.padTo8 (JS.band (SB.precision s) 255 :: textEncoder_encode (SB.name s))) Hwf)
    as (b' & E & _ & _ & Hv & W).
  exists b'. split; [exact E|]. split; [exact Hv|]. split; [|exact W].
  apply pushArray_unread; assumption.
Qed.

Lemma asset_example b (s : string) (bin : list Z) (name : string) (precision : Z) (sym : list Z) :
  SB.wf b -> SB.unread b = [] ->
  (forall b, SB.pushAsset b s =
     (b1 <- SB.pushArray b bin ;;
      SB.pushSymbol b1 {| SB.name := name; SB.precision := precision |})) ->
  List.length bin = 8%nat -> map JS.toUint8 bin = bin ->
  map JS.toUint8 (SB.padTo8 (JS.band precision 255 :: textEncoder_encode name)) = sym ->
  exists b1, SB.pushAsset b s = Ok b1 /\
    SB.asUint8Array b1 = SB.asUint8Array b ++ bin ++ sym /\
    SB.unread b1 = bin ++ sym /\ SB.wf b1.
Proof.
  intros Hwf Hun Hp Hl Hb Hs. rewrite Hp.
  destruct (pushArray_ok b bin Hwf) as (b1 & E1 & _ & _ & Hv1 & W1).
  pose proof (pushArray_unread b bin b1 Hwf E1) as Hu1.
  rewrite E1. cbn [bind].
  destruct (pushSymbol_spec b1 {| SB.name := name; SB.precision := precision |} W1)
    as (b2 & E2 & Hv2 & Hu2 & W2).
  cbn [SB.name SB.precision] in Hv2, Hu2. rewrite Hs in Hv2, Hu2.
  exists b2. split; [exact E2|].
  rewrite Hv2, Hu2, Hv1, Hu1, Hun, Hb, <- app_assoc. auto.
Qed.

Lemma getSymbol_spec b p (a : list Z) rest : SB.wf b ->
  SB.unread b = p :: a ++ rest -> List.length a = 7%nat ->
  SB.getSymbol b =
    (name <- textDecoder_decode (SB.untilZero a) ;;
     Ok ({| SB.name := name; SB.precision := p |}, advance b 8)).
Proof.
  intros Hwf Hun Hl. unfold SB.getSymbol.
  destruct (get_cons b p (a ++ rest) Hwf Hun) as (G & Hr & W & _).
  rewrite G. cbn [bind].
  destruct (getUint8Array_spec (advance b 1) a rest W Hr) as (G2 & _).
  rewrite Hl in G2. rewrite G2. cbn [bind].
  replace (advance (advance b 1) 7) with (advance b 8)
    by (unfold advance; simpl; f_equal; lia).
  reflexivity.
Qed.

Lemma getAsset_spec b (amount : list Z) p (a : list Z) rest : SB.wf b ->
  SB.unread b = amount ++ p :: a ++ rest ->
  List.length amount = 8%nat -> List.length a = 7%nat ->
  SB.getAsset b =
    (name <- textDecoder_decode (SB.untilZero a) ;;
     let s := numeric.signedBinaryToDecimal amount (Z.to_nat (p + 1)) in
     let s :=
       if JS.truthy p then
         (JSString.substr s 0 (Some (JSString.len s - p))
            ++ "." ++ JSString.substr s (JSString.len s - p) None)%string
       else s in
     Ok ((s ++ " " ++ name)%string, advance b 16)).
Proof.
  intros Hwf Hun Hl Hl7. unfold SB.getAsset.
  destruct (getUint8Array_spec b amount _ Hwf Hun) as (G & W & Hr).
  rewrite Hl in G, W, Hr. rewrite G. cbn [bind].
  rewrite (getSymbol_spec (advance b 8) p a rest W Hr Hl7).
  destruct (textDecoder_decode (SB.untilZero a)); cbn [bind]; try reflexivity.
  cbn [SB.name SB.precision].
  replace (advance (advance b 8) 8) with (advance b 16)
    by (unfold advance; simpl; f_equal; lia).
  reflexivity.
Qed.

(** C6. On a buffer whose earlier contents have been read: pushing the asset
    "1.2500 SYS" and reading an asset back returns "1.2500 SYS"; "-5 SYS"
    comes back as "-5 SYS" (sign kept, no decimal point); and pushing
    ".5 SYS" fails with MalformedAsset. *)
Theorem C6_asset_examples (b : SB.t) :
  SB.wf b -> SB.unread b = [] ->
  (exists b1, SB.pushAsset b "1.2500 SYS" = Ok b1 /\
     SB.getAsset b1 = Ok ("1.2500 SYS"%string, advance b1 16)) /\
  (exists b1, SB.pushAsset b "-5 SYS" = Ok b1 /\
     SB.getAsset b1 = Ok ("-5 SYS"%string, advance b1 16)) /\
  SB.pushAsset b ".5 SYS" = Throw MalformedAsset.
Proof.
  intros Hwf Hun. split; [|split].
  - destruct (asset_example b "1.2500 SYS" [212; 48; 0; 0; 0; 0; 0; 0] "SYS" 4
                [4; 83; 89; 83; 0; 0; 0; 0] Hwf Hun)
      as (b1 & E & _ & Hu & W); try reflexivity.
    exists b1. split; [exact E|].
    rewrite (getAsset_spec b1 [212; 48; 0; 0; 0; 0; 0; 0] 4 [83; 89; 83; 0; 0; 0; 0] []
               W Hu eq_refl eq_refl).
    reflexivity.
  - destruct (asset_example b "-5 SYS" [251; 255; 255; 255; 255; 255; 255; 255] "SYS" 0
                [0; 83; 89; 83; 0; 0; 0; 0] Hwf Hun)
      as (b1 & E & _ & Hu & W); try reflexivity.
    exists b1. split; [exact E|].
    rewrite (getAsset_spec b1 [251; 255; 255; 255; 255; 255; 255; 255] 0
               [83; 89; 83; 0; 0; 0; 0] [] W Hu eq_refl eq_refl).
    reflexivity.
  - reflexivity.
Qed.

Lemma C6_asset_examples_witness :
  SB.pushAsset SB.new ".5 SYS" = Throw MalformedAsset.
Proof.
  exact (proj2 (proj2 (C6_asset_examples SB.new new_wf eq_refl))).
Defined.
Lemma getType_alias_chain h types : forall n name r,
  alias_chain h types name r n ->
  forall fuel, (n < fuel)%nat -> getType fuel h types name = Ok (r, h).
Proof.
  intros n name r H. induction H as [name r t Hm Hd Ha|name r t target n Hm Hd Ha Hc IH];
    intros fuel Hf; (destruct fuel as [|fuel]; [lia|]); cbn [getType];
    rewrite Hm, Hd.
  - rewrite Ha. reflexivity.
  - destruct (TypeObj.aliasOfName t) as [|c s] eqn:E; [congruence|].
    cbn [String.length Nat.eqb negb]. apply IH. lia.
Qed.

Theorem C7_alias_resolution (h : heap) (types : TypeMap) :
  (forall x y u rX rY rU tX tY tU,
     map_get types x = Some rX -> deref h rX = Some tX -> TypeObj.aliasOfName tX = y ->
     map_get types y = Some rY -> deref h rY = Some tY -> TypeObj.aliasOfName tY = u ->
     map_get types u = Some rU -> deref h rU = Some tU ->
     TypeObj.aliasOfName tU = EmptyString ->
     y <> EmptyString -> u <> EmptyString ->
     forall fuel,
       getType (3 + fuel) h types x = Ok (rU, h) /\
       getType (1 + fuel) h types u = Ok (rU, h)) /\
  (forall n name r, alias_chain h types name r n ->
     forall fuel, (n < fuel)%nat -> getType fuel h types name = Ok (r, h)).
Proof.
  split.
  - intros x y u rX rY rU tX tY tU HX DX AX HY DY AY HU DU AU Ny Nu fuel.
    assert (CU : alias_chain h types u rU 0) by (eapply alias_chain_end; eauto).
    assert (CY : alias_chain h types y rU 1).
    { eapply alias_chain_step; eauto; rewrite AY; assumption. }
    assert (CX : alias_chain h types x rU 2).
    { eapply alias_chain_step; eauto; rewrite AX; assumption. }
    split; eapply getType_alias_chain; eauto; lia.
  - apply getType_alias_chain.
Qed.

Theorem C9_unknown_names :
  (forall fuel h contract account name data,
     map_get (actions contract) name = None ->
     serializeActionData fuel h contract account name data =
       Throw (UnknownAction name account)) /\
  (forall fuel h contract account name data,
     map_get (actions contract) name = None ->
     deserializeActionData fuel h contract account name data =
       Throw (UnknownAction name account)) /\
  (forall fuel h types name,
     map_get types name = None ->
     JSString.endsWith name "[]" = false ->
     JSString.endsWith name "?" = false ->
     getType (S fuel) h types name = Throw (UnknownType name)).
Proof.
  split; [|split].
  - intros fuel h contract account name data H.
    unfold serializeActionData. rewrite H. reflexivity.
  - intros fuel h contract account name data H.
    unfold deserializeActionData. rewrite H. reflexivity.
  - intros fuel h types name H1 H2 H3. cbn [getType]. rewrite H1, H2, H3.
    reflexivity.
Qed.
(** ** Structs, arrays and optionals *)

Lemma push_spec b v : SB.wf b ->
  exists b', SB.push b v = Ok b' /\
    SB.asUint8Array b' = SB.asUint8Array b ++ map JS.toUint8 v /\
    SB.readPos b' = SB.readPos b /\ SB.wf b'.
Proof.
  intros Hwf. destruct (pushArray_ok b v Hwf) as (b' & E & _ & Hr & Hv & W).
  exists b'. auto.
Qed.

Lemma encodes_array_empty h r t :
  deref h r = Some t -> TypeObj.serialize t = serializeArray ->
  encodes h r (VArr []) [0].
Proof.
  intros Hd Hs. exists 1%nat. intros fuel b Hf Hwf.
  destruct fuel as [|fuel]; [lia|]. cbn [serialize]. rewrite Hd, Hs.
  cbn [List.length Z.of_nat].
  destruct (pushVaruint32_spec b 0 Hwf) as (b' & E & Hv & _ & Hr & W).
  rewrite E. cbn [bind]. exists b'.
  split; [destruct (TypeObj.arrayOf t); reflexivity|].
  split; [exact Hv|]. split; assumption.
Qed.

Lemma encodes_optional_absent h r t v :
  deref h r = Some t -> TypeObj.serialize t = serializeOptional ->
  v = VNull \/ v = VUndefined ->
  encodes h r v [0].
Proof.
  intros Hd Hs Hv. exists 1%nat. intros fuel b Hf Hwf.
  destruct fuel as [|fuel]; [lia|]. cbn [serialize]. rewrite Hd, Hs.
  destruct (push_spec b [0] Hwf) as (b' & E & Hb & Hr & W).
  exists b'. split; [destruct Hv as [->| ->]; exact E|]. auto.
Qed.

Lemma encodes_optional_present h r t inner v bs :
  deref h r = Some t -> TypeObj.serialize t = serializeOptional ->
  TypeObj.optionalOf t = Some inner -> v <> VNull -> v <> VUndefined ->
  encodes h inner v bs -> encodes h r v (1 :: bs).
Proof.
  intros Hd Hs Ho Hn Hu (n & Hin). exists (S n). intros fuel b Hf Hwf.
  destruct fuel as [|fuel]; [lia|]. cbn [serialize]. rewrite Hd, Hs.
  destruct (push_spec b [1] Hwf) as (b1 & E1 & Hb1 & Hr1 & W1).
  destruct (Hin fuel b1 ltac:(lia) W1) as (b2 & E2 & Hb2 & Hr2 & W2).
  exists b2.
  split.
  - destruct v; try congruence; rewrite E1; cbn [bind]; rewrite Ho; exact E2.
  - split; [|split; [congruence|exact W2]].
    rewrite Hb2, Hb1, <- app_assoc. reflexivity.
Qed.

(** C5. For every array type (whatever its element type), the empty array
    is encoded as the single byte 0; for every optional type, null and
    undefined are encoded as the single byte 0, and a present value is
    encoded as the byte 1 followed by the inner type's encoding of the
    value. *)
Theorem C5_empty_array_and_optional (h : heap) (r : ref) (t : TypeObj.t) :
  deref h r = Some t ->
  (TypeObj.serialize t = serializeArray -> encodes h r (VArr []) [0]) /\
  (TypeObj.serialize t = serializeOptional ->
     encodes h r VNull [0] /\ encodes h r VUndefined [0]) /\
  (TypeObj.serialize t = serializeOptional ->
     forall inner v bs,
       TypeObj.optionalOf t = Some inner -> v <> VNull -> v <> VUndefined ->
       encodes h inner v bs -> encodes h r v (1 :: bs)).
Proof.
  intros Hd. split; [|split].
  - intros Hs. eapply encodes_array_empty; eauto.
  - intros Hs. split; eapply encodes_optional_absent; eauto.
  - intros Hs inner v bs Ho Hn Hu He. eapply encodes_optional_present; eauto.
Qed.

Lemma serializeFields_ok h props owner : forall fs bss,
  Forall2 (field_encodes h props) fs bss ->
  exists n, forall fuel b, (n <= fuel)%nat -> SB.wf b ->
    exists b',
      serializeFields (serialize fuel h) owner fs b (VObj props) = Ok b' /\
      SB.asUint8Array b' = SB.asUint8Array b ++ List.concat bss /\
      SB.readPos b' = SB.readPos b /\ SB.wf b'.
Proof.
  induction 1 as [|f bs fs bss (ft & Ht & Hp & (n1 & He)) HF (n2 & IH)].
  - exists 0%nat. intros fuel b _ Hwf. exists b. cbn [serializeFields List.concat].
    rewrite app_nil_r. auto.
  - exists (Nat.max n1 n2). intros fuel b Hf Hwf. cbn [serializeFields List.concat].
    rewrite Hp, Ht. cbn [negb].
    destruct (He fuel b ltac:(lia) Hwf) as (b1 & E1 & Hb1 & Hr1 & W1).
    rewrite E1. cbn [bind].
    destruct (IH fuel b1 ltac:(lia) W1) as (b2 & E2 & Hb2 & Hr2 & W2).
    exists b2. split; [exact E2|]. split; [|split; [congruence|exact W2]].
    rewrite Hb2, Hb1, <- app_assoc. reflexivity.
Qed.

Lemma serializeFields_missing h props owner f fs2 : forall fs1 bss,
  Forall2 (field_encodes h props) fs1 bss ->
  prop_in props (Field.name f) = false -> Field.type f <> None ->
  exists n, forall fuel b, (n <= fuel)%nat -> SB.wf b ->
    serializeFields (serialize fuel h) owner (fs1 ++ f :: fs2) b (VObj props) =
      Throw (MissingField owner (Field.name f)).
Proof.
  induction 1 as [|f1 bs fs1 bss (ft & Ht & Hp & (n1 & He)) HF IH]; intros Hm Hty.
  - exists 0%nat. intros fuel b _ Hwf. cbn [app serializeFields]. rewrite Hm.
    cbn [negb]. destruct (Field.type f); [reflexivity|congruence].
  - destruct (IH Hm Hty) as (n2 & IH2).
    exists (Nat.max n1 n2). intros fuel b Hf Hwf.
    cbn [app serializeFields]. rewrite Hp, Ht. cbn [negb].
    destruct (He fuel b ltac:(lia) Hwf) as (b1 & E1 & Hb1 & Hr1 & W1).
    rewrite E1. cbn [bind]. apply IH2; [lia|exact W1].
Qed.

Lemma advance_advance b n m : advance (advance b n) m = advance b (n + m).
Proof. unfold advance; simpl. f_equal. lia. Qed.

Lemma advance_0 b : advance b 0 = b.
Proof. destruct b. unfold advance; simpl. f_equal. lia. Qed.

Lemma advance_unread_wf b bs rest : SB.wf b -> SB.unread b = bs ++ rest ->
  SB.wf (advance b (List.length bs)) /\
  SB.unread (advance b (List.length bs)) = rest.
Proof.
  intros Hwf Hun. pose proof (unread_length b Hwf) as Hl.
  pose proof Hwf as (W1 & _). rewrite Hun, length_app in Hl.
  split.
  - apply advance_wf; [exact Hwf|lia].
  - rewrite unread_advance, Hun, skipn_app, skipn_all, Nat.sub_diag. reflexivity.
Qed.

Lemma prop_assign_primitive props f v :
  (Field.name f = "__proto__"%string -> primitive v) ->
  prop_assign props (Field.name f) v = Ok (assigned props (Field.name f) v).
Proof.
  intros Hp. unfold prop_assign, assigned.
  destruct (prop_get props (Field.name f)); [reflexivity|].
  destruct (String.eqb_spec (Field.name f) "__proto__") as [E|]; [|reflexivity].
  specialize (Hp E). destruct v; cbn in Hp; try contradiction; reflexivity.
Qed.

Lemma deserializeFields_ok h : forall fs items,
  Forall2 (field_decodes h) fs items ->
  exists n, forall fuel b rest pb, (n <= fuel)%nat -> SB.wf b ->
    SB.unread b = List.concat (map fst items) ++ rest ->
    deserializeFields (deserialize fuel h) fs (VObj pb) b =
      Ok (VObj (set_fields pb fs items),
          advance b (List.length (List.concat (map fst items)))).
Proof.
  induction 1 as [|f item fs items (ft & Ht & (n1 & Hd) & Hp) HF (n2 & IH)].
  - exists 0%nat. intros fuel b rest pb _ Hwf Hun.
    cbn [deserializeFields set_fields map List.concat List.length].
    rewrite advance_0. reflexivity.
  - exists (Nat.max n1 n2). intros fuel b rest pb Hf Hwf Hun.
    cbn [deserializeFields set_fields map List.concat]. rewrite Ht.
    cbn [map List.concat] in Hun. rewrite <- app_assoc in Hun.
    rewrite (Hd fuel b _ ltac:(lia) Hwf Hun). cbn [bind].
    rewrite (prop_assign_primitive pb f (snd item) Hp). cbn [bind].
    destruct (advance_unread_wf b _ _ Hwf Hun) as (W1 & Hu1).
    rewrite (IH fuel _ rest _ ltac:(lia) W1 Hu1).
    rewrite advance_advance, length_app. reflexivity.
Qed.

Lemma prop_get_set_same props k v : prop_get (prop_set props k v) k = Some v.
Proof.
  induction props as [|[k0 v0] props IH]; cbn [prop_set prop_get].
  - rewrite String.eqb_refl. reflexivity.
  - destruct (String.eqb k0 k) eqn:E; cbn [prop_get]; rewrite E; auto.
Qed.

Lemma prop_get_set_other props k v k' : k' <> k ->
  prop_get (prop_set props k v) k' = prop_get props k'.
Proof.
  intros Hne. induction props as [|[k0 v0] props IH]; cbn [prop_set prop_get].
  - destruct (String.eqb_spec k k'); [congruence|reflexivity].
  - destruct (String.eqb_spec k0 k) as [->|Hk]; cbn [prop_get].
    + destruct (String.eqb_spec k k'); [congruence|reflexivity].
    + destruct (String.eqb_spec k0 k'); [reflexivity|exact IH].
Qed.

Lemma has_key_set props k v k' :
  has_key props k' \/ k' = k -> has_key (prop_set props k v) k'.
Proof.
  unfold has_key. intros H. destruct (String.eqb_spec k' k) as [->|Hne].
  - rewrite prop_get_set_same. discriminate.
  - rewrite prop_get_set_other by exact Hne. destruct H; [assumption|contradiction].
Qed.

Lemma assigned_keeps props k v k' :
  has_key props k' -> has_key (assigned props k v) k'.
Proof.
  intros H. unfold assigned.
  destruct (prop_get props k); [apply has_key_set; auto|].
  destruct (String.eqb k "__proto__"); [exact H|apply has_key_set; auto].
Qed.

Lemma assigned_key props k v :
  k <> "__proto__"%string -> has_key (assigned props k v) k.
Proof.
  intros H. unfold assigned.
  destruct (prop_get props k); [apply has_key_set; auto|].
  destruct (String.eqb_spec k "__proto__"); [contradiction|apply has_key_set; auto].
Qed.

Lemma assigned_proto props k v :
  ~ has_key props "__proto__" -> ~ has_key (assigned props k v) "__proto__".
Proof.
  unfold has_key, assigned. intros H.
  destruct (String.eqb_spec k "__proto__") as [->|Hne].
  - destruct (prop_get props "__proto__") eqn:E.
    + exfalso. apply H. discriminate.
    + rewrite E. exact H.
  - destruct (prop_get props k); rewrite prop_get_set_other by congruence; exact H.
Qed.

Lemma set_fields_keeps : forall fs items pb k,
  has_key pb k -> has_key (set_fields pb fs items) k.
Proof.
  induction fs as [|f fs IH]; intros [|item items] pb k Hk; cbn [set_fields]; auto.
  apply IH. apply assigned_keeps. exact Hk.
Qed.

Lemma set_fields_keys h : forall fs items, Forall2 (field_decodes h) fs items ->
  forall pb,
    Forall (fun f => Field.name f <> "__proto__"%string ->
                     has_key (set_fields pb fs items) (Field.name f)) fs.
Proof.
  induction 1 as [|f item fs items Hf HF IH]; intros pb; cbn [set_fields];
    constructor.
  - intros Hne. apply set_fields_keeps. apply assigned_key. exact Hne.
  - apply IH.
Qed.

Lemma set_fields_proto : forall fs items pb,
  ~ has_key pb "__proto__" -> ~ has_key (set_fields pb fs items) "__proto__".
Proof.
  induction fs as [|f fs IH]; intros [|item items] pb Hk; cbn [set_fields]; auto.
  apply IH. apply assigned_proto. exact Hk.
Qed.

Lemma struct_codec (h : heap) (r : ref) (t : TypeObj.t)
  (props : list (string * value)) :
  deref h r = Some t ->
  TypeObj.serialize t = serializeStruct ->
  TypeObj.deserialize t = deserializeStruct ->
  (forall B bss,
     base_encodes h (TypeObj.base t) (VObj props) B ->
     Forall2 (field_encodes h props) (TypeObj.fields t) bss ->
     encodes h r (VObj props) (B ++ List.concat bss)) /\
  (forall B fs1 f fs2 bss,
     base_encodes h (TypeObj.base t) (VObj props) B ->
     TypeObj.fields t = fs1 ++ f :: fs2 ->
     Forall2 (field_encodes h props) fs1 bss ->
     prop_in props (Field.name f) = false ->
     Field.type f <> None ->
     encode_fails h r (VObj props)
       (MissingField (TypeObj.name t) (Field.name f))) /\
  (forall B pb items,
     base_decodes h (TypeObj.base t) B pb ->
     Forall2 (field_decodes h) (TypeObj.fields t) items ->
     decodes h r (B ++ List.concat (map fst items))
       (VObj (set_fields pb (TypeObj.fields t) items)) /\
     (forall k, has_key pb k ->
        has_key (set_fields pb (TypeObj.fields t) items) k) /\
     Forall (fun f => Field.name f <> "__proto__"%string ->
                      has_key (set_fields pb (TypeObj.fields t) items) (Field.name f))
       (TypeObj.fields t) /\
     (~ has_key pb "__proto__" ->
      ~ has_key (set_fields pb (TypeObj.fields t) items) "__proto__")) /\
  (forall v f fs,
     TypeObj.base t = None -> TypeObj.fields t = f :: fs ->
     primitive v \/ v = VNull ->
     encode_fails h r v JsTypeError).
Proof.
  intros Hd Hs Hds. split; [|split; [|split]].
  - intros B bss HB HF.
    destruct (serializeFields_ok h props (TypeObj.name t) _ _ HF) as (n2 & Hfs).
    unfold base_encodes in HB. destruct (TypeObj.base t) as [rb|] eqn:Eb.
    + destruct HB as (n1 & Hb). exists (S (Nat.max n1 n2)). intros fuel b Hf Hwf.
      destruct fuel as [|fuel]; [lia|]. cbn [serialize]. rewrite Hd, Hs, Eb.
      destruct (Hb fuel b ltac:(lia) Hwf) as (b1 & E1 & Hb1 & Hr1 & W1).
      rewrite E1. cbn [bind].
      destruct (Hfs fuel b1 ltac:(lia) W1) as (b2 & E2 & Hb2 & Hr2 & W2).
      exists b2. split; [exact E2|]. split; [|split; [congruence|exact W2]].
      rewrite Hb2, Hb1, <- app_assoc. reflexivity.
    + subst B. exists (S n2). intros fuel b Hf Hwf.
      destruct fuel as [|fuel]; [lia|]. cbn [serialize]. rewrite Hd, Hs, Eb.
      cbn [bind]. apply Hfs; [lia|exact Hwf].
  - intros B fs1 f fs2 bss HB Hfields HF Hm Hty.
    destruct (serializeFields_missing h props (TypeObj.name t) f fs2 _ _ HF Hm Hty)
      as (n2 & Hfs).
    unfold base_encodes in HB. destruct (TypeObj.base t) as [rb|] eqn:Eb.
    + destruct HB as (n1 & Hb). exists (S (Nat.max n1 n2)). intros fuel b Hf Hwf.
      destruct fuel as [|fuel]; [lia|]. cbn [serialize]. rewrite Hd, Hs, Eb.
      destruct (Hb fuel b ltac:(lia) Hwf) as (b1 & E1 & Hb1 & Hr1 & W1).
      rewrite E1. cbn [bind]. rewrite Hfields. apply Hfs; [lia|exact W1].
    + exists (S n2). intros fuel b Hf Hwf.
      destruct fuel as [|fuel]; [lia|]. cbn [serialize]. rewrite Hd, Hs, Eb.
      cbn [bind]. rewrite Hfields. apply Hfs; [lia|exact Hwf].
  - intros B pb items HB HF. split; [|split; [|split]].
    + destruct (deserializeFields_ok h _ _ HF) as (n2 & Hfs).
      unfold base_decodes in HB. destruct (TypeObj.base t) as [rb|] eqn:Eb.
      * destruct HB as (n1 & Hb). exists (S (Nat.max n1 n2)).
        intros fuel b rest Hf Hwf Hun.
        destruct fuel as [|fuel]; [lia|]. cbn [deserialize]. rewrite Hd, Hds, Eb.
        rewrite <- app_assoc in Hun.
        rewrite (Hb fuel b _ ltac:(lia) Hwf Hun). cbn [bind].
        destruct (advance_unread_wf b _ _ Hwf Hun) as (W1 & Hu1).
        rewrite (Hfs fuel _ rest pb ltac:(lia) W1 Hu1).
        rewrite advance_advance, length_app. reflexivity.
      * destruct HB as (-> & ->). exists (S n2).
        intros fuel b rest Hf Hwf Hun.
        destruct fuel as [|fuel]; [lia|]. cbn [deserialize]. rewrite Hd, Hds, Eb.
        cbn [bind app] in *.
        apply (Hfs fuel b rest []); [lia|exact Hwf|exact Hun].
    + intros k. apply set_fields_keeps.
    + apply (set_fields_keys h _ _ HF).
    + apply set_fields_proto.
  - intros v f fs Hb Hf Hv. exists 1%nat. intros fuel b Hfuel Hwf.
    destruct fuel as [|fuel]; [lia|]. cbn [serialize]. rewrite Hd, Hs, Hb, Hf.
    cbn [bind serializeFields].
    destruct Hv as [Hv| ->]; [|reflexivity].
    destruct v; cbn in Hv; try contradiction; reflexivity.
Qed.

(** ** The claims on example schemas *)

Lemma encodes_uint8_coerced h r t v n :
  deref h r = Some t -> TypeObj.serialize t = serializePrim P_uint8 ->
  intOperand v = Ok n ->
  encodes h r v [JS.toUint8 n].
Proof.
  intros Hd Hs Hn. exists 1%nat. intros fuel b Hf Hwf.
  destruct fuel as [|fuel]; [lia|]. cbn [serialize]. rewrite Hd, Hs.
  cbn [serializePrimitive]. rewrite Hn. cbn [bind]. apply push_spec. exact Hwf.
Qed.

Lemma encodes_uint8 h r t n :
  deref h r = Some t -> TypeObj.serialize t = serializePrim P_uint8 ->
  encodes h r (VNum n) [JS.toUint8 n].
Proof. intros Hd Hs. eapply encodes_uint8_coerced; eauto. Qed.

Lemma decodes_uint8 h r t x :
  deref h r = Some t -> TypeObj.deserialize t = deserializePrim P_uint8 ->
  0 <= x < 256 -> decodes h r [x] (VNum x).
Proof.
  intros Hd Hs Hx. exists 1%nat. intros fuel b rest Hf Hwf Hun.
  destruct fuel as [|fuel]; [lia|]. cbn [deserialize]. rewrite Hd, Hs.
  cbn [deserializePrimitive]. cbn [app] in Hun.
  destruct (get_cons b x rest Hwf Hun) as (G & _). rewrite G. reflexivity.
Qed.



(** C3. Compiling a schema changes a Type object of the bootstrap registry:
    the fields of the shared [extended_asset] object refer to the bootstrap
    objects of [asset] and [name] before the compilation of a schema that
    declares a struct named [asset], and to that struct's object after it,
    although the bootstrap map still maps [asset] to the primitive. *)
Theorem C3_bootstrap_object_mutated :
  field_types (snd initialTypes) extended_asset_ref = [Some 24%nat; Some 18%nat] /\
  map_get (fst initialTypes) "asset" = Some 24%nat /\
  map_get (fst initialTypes) "extended_asset" = Some extended_asset_ref /\
  exists types h,
    compile 4 abi_shadow = Ok (types, h) /\
    map_get types "extended_asset" = Some extended_asset_ref /\
    map_get types "asset" = Some 32%nat /\
    field_types h extended_asset_ref = [Some 32%nat; Some 18%nat].
Proof.
  split; [reflexivity|]. split; [reflexivity|]. split; [reflexivity|].
  eexists. eexists. split; [vm_compute; reflexivity|].
  split; [reflexivity|]. split; reflexivity.
Qed.

Lemma C5_empty_array_and_optional_witness :
  encodes (snd (resolved "uint8[]")) (fst (resolved "uint8[]")) (VArr []) [0].
Proof.
  refine (proj1 (C5_empty_array_and_optional (snd (resolved "uint8[]"))
                   (fst (resolved "uint8[]")) _ _) _).
  - vm_compute. reflexivity.
  - reflexivity.
Defined.

Lemma C7_alias_resolution_witness :
  getType (3 + 0) (snd (compiled abi_alias)) (fst (compiled abi_alias)) "X" =
    Ok (1%nat, snd (compiled abi_alias)).
Proof.
  refine (proj1 (proj1 (C7_alias_resolution (snd (compiled abi_alias))
                          (fst (compiled abi_alias)))
                   "X"%string "Y"%string "uint8"%string 32%nat 33%nat 1%nat _ _ _
                   _ _ _ _ _ _ _ _ _ _ _ 0%nat)).
  - vm_compute. reflexivity.
  - vm_compute. reflexivity.
  - reflexivity.
  - vm_compute. reflexivity.
  - vm_compute. reflexivity.
  - reflexivity.
  - vm_compute. reflexivity.
  - vm_compute. reflexivity.
  - reflexivity.
  - discriminate.
  - discriminate.
Defined.

Lemma C9_unknown_names_witness :
  getType 1 (snd initialTypes) (fst initialTypes) "account_name" =
    Throw (UnknownType "account_name").
Proof.
  refine (proj2 (proj2 C9_unknown_names) 0%nat _ _ "account_name"%string _ _ _);
    vm_compute; reflexivity.
Defined.
(** ** Fixed-width integers *)

Lemma shl_const x k : 0 <= k < 32 -> JS.shl x k = JS.toInt32 (JS.toInt32 x * 2 ^ k).
Proof.
  intros Hk. unfold JS.shl.
  rewrite (toUint32_small k) by lia. rewrite (Z.mod_small k 32) by lia.
  rewrite Z.shiftl_mul_pow2 by lia. reflexivity.
Qed.

Lemma shr_const x k : 0 <= k < 32 -> JS.shr x k = JS.toInt32 x / 2 ^ k.
Proof.
  intros Hk. unfold JS.shr.
  rewrite (toUint32_small k) by lia. rewrite (Z.mod_small k 32) by lia.
  apply Z.shiftr_div_pow2. lia.
Qed.

Lemma band_ff x : JS.band x 255 = x mod 256.
Proof.
  unfold JS.band. change (JS.toInt32 255) with (Z.ones 8).
  rewrite Z.land_ones by lia. change (2 ^ 8) with 256.
  destruct (toInt32_eqm x) as (k & ->).
  replace (x + k * 2 ^ 32) with (x + (k * 2 ^ 24) * 256) by lia.
  apply Z_mod_plus_full.
Qed.

(** The byte [k] of the 32-bit pattern of [v], as [pushUint16] and
    [pushUint32] compute it. *)
Lemma byte_of_word v k : 0 <= k <= 3 ->
  JS.band (JS.shr v (8 * k)) 255 = (JS.toUint32 v / 2 ^ (8 * k)) mod 256.
Proof.
  intros Hk. rewrite band_ff, shr_const by lia.
  assert (E : JS.toInt32 v = JS.toUint32 v + (JS.toInt32 v - JS.toUint32 v)) by lia.
  destruct (toInt32_eqm v) as (i & Hi). destruct (toUint32_eqm v) as (j & Hj).
  assert (Hd : JS.toInt32 v = JS.toUint32 v + (i - j) * 2 ^ 32) by lia.
  rewrite Hd.
  assert (Hk' : k = 0 \/ k = 1 \/ k = 2 \/ k = 3) by lia.
  destruct Hk' as [->|[->|[->| ->]]].
  - change (2 ^ (8 * 0)) with 1. rewrite !Z.div_1_r.
    replace ((i - j) * 2 ^ 32) with (((i - j) * 2 ^ 24) * 256) by lia.
    apply Z_mod_plus_full.
  - change (2 ^ (8 * 1)) with 256.
    replace ((i - j) * 2 ^ 32) with (((i - j) * 2 ^ 24) * 256) by lia.
    rewrite Z.div_add by lia.
    replace ((i - j) * 2 ^ 24) with (((i - j) * 2 ^ 16) * 256) by lia.
    apply Z_mod_plus_full.
  - change (2 ^ (8 * 2)) with 65536.
    replace ((i - j) * 2 ^ 32) with (((i - j) * 2 ^ 16) * 65536) by lia.
    rewrite Z.div_add by lia.
    replace ((i - j) * 2 ^ 16) with (((i - j) * 2 ^ 8) * 256) by lia.
    apply Z_mod_plus_full.
  - change (2 ^ (8 * 3)) with 16777216.
    replace ((i - j) * 2 ^ 32) with (((i - j) * 2 ^ 8) * 16777216) by lia.
    rewrite Z.div_add by lia.
    replace ((i - j) * 2 ^ 8) with ((i - j) * 256) by lia.
    apply Z_mod_plus_full.
Qed.

Lemma toBytes_bytes n : forall v, Forall (fun x => 0 <= x < 256) (numeric.toBytes n v).
Proof.
  induction n as [|n IH]; intros v; cbn [numeric.toBytes]; constructor; auto.
  apply Z.mod_pos_bound. lia.
Qed.

Lemma map_toUint8_bytes l : Forall (fun x => 0 <= x < 256) l -> map JS.toUint8 l = l.
Proof.
  induction 1 as [|x l Hx Hl IH]; [reflexivity|].
  cbn [map]. rewrite toUint8_id by lia. rewrite IH. reflexivity.
Qed.

Lemma pushArray_bytes b v : SB.wf b -> Forall (fun x => 0 <= x < 256) v ->
  exists b', SB.pushArray b v = Ok b' /\
    SB.asUint8Array b' = SB.asUint8Array b ++ v /\
    SB.unread b' = SB.unread b ++ v /\
    SB.readPos b' = SB.readPos b /\ SB.wf b'.
Proof.
  intros Hwf Hv. destruct (pushArray_ok b v Hwf) as (b' & E & _ & Hr & Ha & W).
  exists b'. rewrite (map_toUint8_bytes v Hv) in Ha.
  split; [exact E|]. split; [exact Ha|]. split; [|split; assumption].
  rewrite (pushArray_unread b v b' Hwf E), (map_toUint8_bytes v Hv). reflexivity.
Qed.

Lemma pushUint16_spec b v : SB.wf b ->
  exists b', SB.pushUint16 b v = Ok b' /\
    SB.asUint8Array b' = SB.asUint8Array b ++ numeric.toBytes 2 (v mod 2 ^ 16) /\
    SB.unread b' = SB.unread b ++ numeric.toBytes 2 (v mod 2 ^ 16) /\
    SB.readPos b' = SB.readPos b /\ SB.wf b'.
Proof.
  intros Hwf. unfold SB.pushUint16, SB.push.
  change 0 with (8 * 0) at 1. change 8 with (8 * 1) at 2.
  rewrite !byte_of_word by lia.
  replace [(JS.toUint32 v / 2 ^ (8 * 0)) mod 256; (JS.toUint32 v / 2 ^ (8 * 1)) mod 256]
    with (numeric.toBytes 2 (v mod 2 ^ 16)).
  - apply pushArray_bytes; [exact Hwf|apply toBytes_bytes].
  - cbn [numeric.toBytes]. unfold JS.toUint32.
    change (2 ^ (8 * 0)) with 1. change (2 ^ (8 * 1)) with 256.
    change (2 ^ 16) with 65536. change (2 ^ 32) with 4294967296.
    repeat match goal with |- _ :: _ = _ :: _ => apply (f_equal2 (@cons Z)) end;
      try reflexivity; Z.div_mod_to_equations; lia.
Qed.

Lemma pushUint32_spec b v : SB.wf b ->
  exists b', SB.pushUint32 b v = Ok b' /\
    SB.asUint8Array b' = SB.asUint8Array b ++ numeric.toBytes 4 (JS.toUint32 v) /\
    SB.unread b' = SB.unread b ++ numeric.toBytes 4 (JS.toUint32 v) /\
    SB.readPos b' = SB.readPos b /\ SB.wf b'.
Proof.
  intros Hwf. unfold SB.pushUint32, SB.push.
  change 0 with (8 * 0) at 1. change 8 with (8 * 1) at 2.
  change 16 with (8 * 2). change 24 with (8 * 3).
  rewrite !byte_of_word by lia.
  replace [(JS.toUint32 v / 2 ^ (8 * 0)) mod 256; (JS.toUint32 v / 2 ^ (8 * 1)) mod 256;
           (JS.toUint32 v / 2 ^ (8 * 2)) mod 256; (JS.toUint32 v / 2 ^ (8 * 3)) mod 256]
    with (numeric.toBytes 4 (JS.toUint32 v)).
  - apply pushArray_bytes; [exact Hwf|apply toBytes_bytes].
  - cbn [numeric.toBytes]. generalize (JS.toUint32 v). intros u.
    change (2 ^ (8 * 0)) with 1. change (2 ^ (8 * 1)) with 256.
    change (2 ^ (8 * 2)) with 65536. change (2 ^ (8 * 3)) with 16777216.
    repeat match goal with |- _ :: _ = _ :: _ => apply (f_equal2 (@cons Z)) end;
      try reflexivity; Z.div_mod_to_equations; lia.
Qed.
Lemma shl_byte x k : 0 <= x < 256 -> 0 <= k <= 16 -> JS.shl x k = x * 2 ^ k.
Proof.
  intros Hx Hk. rewrite shl_const by lia. rewrite (toInt32_small x) by lia.
  apply toInt32_small.
  assert (0 < 2 ^ k) by (apply Z.pow_pos_nonneg; lia).
  assert (2 ^ k <= 2 ^ 16) by (apply Z.pow_le_mono_r; lia).
  nia.
Qed.

Lemma bor_disjoint a c n : 0 <= n -> 0 <= a < 2 ^ n -> - 2 ^ 31 <= c * 2 ^ n < 2 ^ 31 ->
  2 ^ n <= 2 ^ 31 ->
  JS.bor a (c * 2 ^ n) = a + c * 2 ^ n.
Proof.
  intros Hn Ha Hc Hle. unfold JS.bor.
  rewrite (toInt32_small a) by lia. rewrite (toInt32_small (c * 2 ^ n)) by lia.
  apply lor_disjoint; lia.
Qed.

Lemma getUint16_spec b x0 x1 rest : SB.wf b -> SB.unread b = x0 :: x1 :: rest ->
  SB.getUint16 b = Ok (x0 + 256 * x1, advance b 2) /\
  SB.wf (advance b 2) /\ SB.unread (advance b 2) = rest.
Proof.
  intros Hwf Hun. unfold SB.getUint16.
  destruct (get_cons b x0 _ Hwf Hun) as (G0 & Hr0 & W0 & Hx0).
  rewrite G0. cbn [bind].
  destruct (get_cons _ x1 _ W0 Hr0) as (G1 & Hr1 & W1 & Hx1).
  rewrite G1. cbn [bind].
  rewrite advance_advance in *. change (1 + 1)%nat with 2%nat in *.
  split; [|split; assumption].
  f_equal. f_equal.
  rewrite !shl_byte by lia. change (2 ^ 0) with 1. rewrite Z.mul_1_r.
  replace (JS.bor 0 x0) with x0
    by (unfold JS.bor; rewrite (toInt32_small x0) by lia; reflexivity).
  rewrite bor_disjoint; lia.
Qed.

Lemma toInt32_top x : 0 <= x < 256 ->
  exists c, (c = 0 \/ c = 1) /\ JS.toInt32 (x * 2 ^ 24) = (x - 256 * c) * 2 ^ 24.
Proof.
  intros Hx. destruct (Z.lt_ge_cases x 128).
  - exists 0. split; [auto|]. rewrite toInt32_small by lia. f_equal. lia.
  - exists 1. split; [auto|]. unfold JS.toInt32.
    replace (x * 2 ^ 24 + 2 ^ 31) with ((x - 256) * 2 ^ 24 + 2 ^ 31 + 1 * 2 ^ 32) by lia.
    rewrite Z_mod_plus_full, Z.mod_small by lia. lia.
Qed.

Lemma getUint32_spec b x0 x1 x2 x3 rest : SB.wf b ->
  SB.unread b = x0 :: x1 :: x2 :: x3 :: rest ->
  SB.getUint32 b = Ok (x0 + 256 * x1 + 65536 * x2 + 16777216 * x3, advance b 4) /\
  SB.wf (advance b 4) /\ SB.unread (advance b 4) = rest.
Proof.
  intros Hwf Hun. unfold SB.getUint32.
  destruct (get_cons b x0 _ Hwf Hun) as (G0 & Hr0 & W0 & Hx0).
  rewrite G0. cbn [bind].
  destruct (get_cons _ x1 _ W0 Hr0) as (G1 & Hr1 & W1 & Hx1).
  rewrite G1. cbn [bind].
  destruct (get_cons _ x2 _ W1 Hr1) as (G2 & Hr2 & W2 & Hx2).
  rewrite G2. cbn [bind].
  destruct (get_cons _ x3 _ W2 Hr2) as (G3 & Hr3 & W3 & Hx3).
  rewrite G3. cbn [bind].
  rewrite !advance_advance in *. change (1 + 1 + 1 + 1)%nat with 4%nat in *.
  split; [|split; assumption].
  f_equal. f_equal.
  rewrite !shl_byte by lia. change (2 ^ 0) with 1. rewrite Z.mul_1_r.
  replace (JS.bor 0 x0) with x0
    by (unfold JS.bor; rewrite (toInt32_small x0) by lia; reflexivity).
  rewrite (bor_disjoint x0 x1 8) by lia.
  rewrite (bor_disjoint (x0 + x1 * 2 ^ 8) x2 16) by lia.
  rewrite ushr_0, toUint32_bor.
  rewrite (shl_const x3 24) by lia. rewrite (toInt32_small x3) by lia.
  rewrite toUint32_toInt32.
  rewrite (toUint32_small (x0 + x1 * 2 ^ 8 + x2 * 2 ^ 16)) by lia.
  rewrite (toUint32_small (x3 * 2 ^ 24)) by lia.
  rewrite lor_disjoint by lia. lia.
Qed.

Lemma toBytes_2 u : numeric.toBytes 2 u = [u mod 256; (u / 256) mod 256].
Proof. reflexivity. Qed.

Lemma toBytes_4 u :
  numeric.toBytes 4 u =
    [u mod 256; (u / 256) mod 256; (u / 256 / 256) mod 256;
     (u / 256 / 256 / 256) mod 256].
Proof. reflexivity. Qed.

(** X1. Writing a number with [pushUint16] (respectively [pushUint32]) on a
    buffer whose earlier contents have been read and reading it back with
    [getUint16] ([getUint32]) yields the number modulo 2^16 (2^32): the
    value itself when it is in the unsigned range.  The bytes written are
    the little-endian bytes of that residue. *)
Theorem X1_fixed_width_roundtrip (b : SB.t) (v : Z) :
  SB.wf b -> SB.unread b = [] ->
  (exists b1, SB.pushUint16 b v = Ok b1 /\
     SB.asUint8Array b1 = SB.asUint8Array b ++ numeric.toBytes 2 (v mod 2 ^ 16) /\
     SB.getUint16 b1 = Ok (v mod 2 ^ 16, advance b1 2)) /\
  (exists b1, SB.pushUint32 b v = Ok b1 /\
     SB.asUint8Array b1 = SB.asUint8Array b ++ numeric.toBytes 4 (v mod 2 ^ 32) /\
     SB.getUint32 b1 = Ok (v mod 2 ^ 32, advance b1 4)).
Proof.
  intros Hwf Hun. split.
  - destruct (pushUint16_spec b v Hwf) as (b1 & E & Ha & Hu & _ & W).
    exists b1. split; [exact E|]. split; [exact Ha|].
    rewrite Hun, app_nil_l, toBytes_2 in Hu.
    destruct (getUint16_spec b1 _ _ [] W Hu) as (G & _). rewrite G.
    f_equal. f_equal. change (2 ^ 16) with 65536.
    Z.div_mod_to_equations. lia.
  - destruct (pushUint32_spec b v Hwf) as (b1 & E & Ha & Hu & _ & W).
    exists b1. split; [exact E|]. split; [exact Ha|].
    rewrite Hun, app_nil_l, toBytes_4 in Hu.
    destruct (getUint32_spec b1 _ _ _ _ [] W Hu) as (G & _). rewrite G.
    f_equal. f_equal. unfold JS.toUint32. change (2 ^ 32) with 4294967296.
    Z.div_mod_to_equations. lia.
Qed.

Lemma X1_fixed_width_roundtrip_witness :
  exists b1, SB.pushUint32 SB.new 305419896 = Ok b1 /\
    SB.asUint8Array b1 =
      SB.asUint8Array SB.new ++ numeric.toBytes 4 (305419896 mod 2 ^ 32) /\
    SB.getUint32 b1 = Ok (305419896 mod 2 ^ 32, advance b1 4).
Proof.
  exact (proj2 (X1_fixed_width_roundtrip SB.new 305419896 new_wf eq_refl)).
Defined.
Lemma sign_extend8 x : 0 <= x < 256 ->
  JS.shr (JS.shl x 24) 24 = if x <? 128 then x else x - 256.
Proof.
  intros Hx. apply Z.eqb_eq.
  apply (byte_forall (fun x => JS.shr (JS.shl x 24) 24 =? if x <? 128 then x else x - 256));
    [vm_compute; reflexivity|exact Hx].
Qed.

Lemma sign_extend16 u : 0 <= u < 65536 ->
  JS.shr (JS.shl u 16) 16 = if u <? 32768 then u else u - 65536.
Proof.
  intros Hu. rewrite shr_const, shl_const by lia.
  rewrite (toInt32_small u) by lia.
  rewrite (toInt32_small (JS.toInt32 _)) by apply toInt32_range.
  destruct (Z.ltb_spec u 32768).
  - rewrite toInt32_small by lia. apply Z.div_mul. lia.
  - replace (JS.toInt32 (u * 2 ^ 16)) with ((u - 65536) * 2 ^ 16).
    + apply Z.div_mul. lia.
    + unfold JS.toInt32.
      replace (u * 2 ^ 16 + 2 ^ 31) with ((u - 65536) * 2 ^ 16 + 2 ^ 31 + 1 * 2 ^ 32) by lia.
      rewrite Z_mod_plus_full, Z.mod_small by lia. lia.
Qed.

Lemma bor_0_r x : JS.bor x 0 = JS.toInt32 x.
Proof. unfold JS.bor. change (JS.toInt32 0) with 0. apply Z.lor_0_r. Qed.

Lemma toInt32_mod x : JS.toInt32 (x mod 2 ^ 32) = JS.toInt32 x.
Proof. apply (toInt32_toUint32 x). Qed.

(** X2. The six fixed-width integer types of the registry decode what they
    encode: for a value in the type's range, the [serialize] method followed
    by the [deserialize] method returns the value (sign included) and reads
    exactly the bytes written. *)
Theorem X2_integer_types_roundtrip (p : prim) (lo hi : Z) (k : nat) (b : SB.t) (v : Z) :
  int_range p = Some (lo, hi, k) -> lo <= v < hi ->
  SB.wf b -> SB.unread b = [] ->
  exists b1, serializePrimitive p b (VNum v) = Ok b1 /\
    deserializePrimitive p b1 = Ok (VNum v, advance b1 k).
Proof.
  intros Hp Hv Hwf Hun.
  destruct p; try discriminate Hp; cbn [int_range] in Hp;
    injection Hp as <- <- <-; cbn [serializePrimitive deserializePrimitive].
  - (* uint8 *)
    destruct (pushArray_ok b [v] Hwf) as (b1 & E & _ & _ & _ & W).
    pose proof (pushArray_unread b [v] b1 Hwf E) as Hu.
    rewrite Hun, app_nil_l in Hu. cbn [map] in Hu.
    exists b1. split; [exact E|].
    destruct (get_cons b1 _ _ W Hu) as (G & _). rewrite G. cbn [bind].
    rewrite toUint8_id by (change (2 ^ 8) with 256 in Hv; lia). reflexivity.
  - (* int8 *)
    destruct (pushArray_ok b [v] Hwf) as (b1 & E & _ & _ & _ & W).
    pose proof (pushArray_unread b [v] b1 Hwf E) as Hu.
    rewrite Hun, app_nil_l in Hu. cbn [map] in Hu.
    exists b1. split; [exact E|].
    destruct (get_cons b1 _ _ W Hu) as (G & _ & _ & Hx). rewrite G. cbn [bind].
    rewrite sign_extend8 by exact Hx. unfold JS.toUint8 in *.
    change (2 ^ 7) with 128 in Hv.
    do 3 f_equal. destruct (Z.ltb_spec (v mod 256) 128);
      Z.div_mod_to_equations; lia.
  - (* uint16 *)
    destruct (pushUint16_spec b v Hwf) as (b1 & E & _ & Hu & _ & W).
    exists b1. split; [exact E|].
    rewrite Hun, app_nil_l, toBytes_2 in Hu.
    destruct (getUint16_spec b1 _ _ [] W Hu) as (G & _). rewrite G. cbn [bind].
    do 3 f_equal. change (2 ^ 16) with 65536 in *.
    Z.div_mod_to_equations. lia.
  - (* int16 *)
    destruct (pushUint16_spec b v Hwf) as (b1 & E & _ & Hu & _ & W).
    exists b1. split; [exact E|].
    rewrite Hun, app_nil_l, toBytes_2 in Hu.
    destruct (getUint16_spec b1 _ _ [] W Hu) as (G & _). rewrite G. cbn [bind].
    change (2 ^ 16) with 65536 in *. change (2 ^ 15) with 32768 in *.
    assert (Eu : v mod 65536 mod 256 + 256 * ((v mod 65536 / 256) mod 256) = v mod 65536)
      by (Z.div_mod_to_equations; lia).
    rewrite Eu.
    rewrite sign_extend16 by (apply Z.mod_pos_bound; lia).
    do 3 f_equal. destruct (Z.ltb_spec (v mod 65536) 32768);
      Z.div_mod_to_equations; lia.
  - (* uint32 *)
    destruct (pushUint32_spec b v Hwf) as (b1 & E & _ & Hu & _ & W).
    exists b1. split; [exact E|].
    rewrite Hun, app_nil_l, toBytes_4 in Hu.
    destruct (getUint32_spec b1 _ _ _ _ [] W Hu) as (G & _). rewrite G. cbn [bind].
    do 3 f_equal. unfold JS.toUint32. change (2 ^ 32) with 4294967296 in *.
    Z.div_mod_to_equations. lia.
  - (* int32 *)
    destruct (pushUint32_spec b v Hwf) as (b1 & E & _ & Hu & _ & W).
    exists b1. split; [exact E|].
    rewrite Hun, app_nil_l, toBytes_4 in Hu.
    destruct (getUint32_spec b1 _ _ _ _ [] W Hu) as (G & _). rewrite G. cbn [bind].
    rewrite bor_0_r.
    assert (Eu : JS.toUint32 v mod 256 + 256 * ((JS.toUint32 v / 256) mod 256)
                 + 65536 * ((JS.toUint32 v / 256 / 256) mod 256)
                 + 16777216 * ((JS.toUint32 v / 256 / 256 / 256) mod 256)
                 = JS.toUint32 v).
    { pose proof (toUint32_range v) as Hr. change (2 ^ 32) with 4294967296 in Hr.
      set (u := JS.toUint32 v) in *. clearbody u. clear - Hr.
      Z.div_mod_to_equations. lia. }
    rewrite Eu, toInt32_toUint32, toInt32_small by lia. reflexivity.
Qed.

Lemma X2_integer_types_roundtrip_witness :
  exists b1, serializePrimitive P_int16 SB.new (VNum (-2)) = Ok b1 /\
    deserializePrimitive P_int16 b1 = Ok (VNum (-2), advance b1 2).
Proof.
  refine (X2_integer_types_roundtrip P_int16 _ _ _ SB.new (-2) eq_refl _ new_wf eq_refl).
  vm_compute. split; [discriminate|reflexivity].
Defined.
Lemma sum_bytes4 u : 0 <= u < 2 ^ 32 ->
  u mod 256 + 256 * ((u / 256) mod 256) + 65536 * ((u / 256 / 256) mod 256)
    + 16777216 * ((u / 256 / 256 / 256) mod 256) = u.
Proof.
  intros Hu. change (2 ^ 32) with 4294967296 in Hu.
  Z.div_mod_to_equations. lia.
Qed.

Lemma toBytes_app n : forall m v,
  numeric.toBytes (n + m) v =
    numeric.toBytes n (v mod 256 ^ Z.of_nat n) ++ numeric.toBytes m (v / 256 ^ Z.of_nat n).
Proof.
  induction n as [|n IH]; intros m v.
  - cbn [numeric.toBytes Nat.add app Z.of_nat]. change (256 ^ 0) with 1.
    rewrite Z.div_1_r. reflexivity.
  - cbn [Nat.add numeric.toBytes app]. rewrite IH.
    rewrite Nat2Z.inj_succ, Z.pow_succ_r by lia.
    assert (Hp : 0 < 256 ^ Z.of_nat n) by (apply Z.pow_pos_nonneg; lia).
    f_equal; [|f_equal].
    + rewrite Z.rem_mul_r by lia.
      replace (v mod 256 + 256 * ((v / 256) mod 256 ^ Z.of_nat n))
        with (v mod 256 + ((v / 256) mod 256 ^ Z.of_nat n) * 256) by lia.
      rewrite Z_mod_plus_full. symmetry. apply Z.mod_mod. lia.
    + f_equal. rewrite Z.rem_mul_r by lia.
      replace (v mod 256 + 256 * ((v / 256) mod 256 ^ Z.of_nat n))
        with (v mod 256 + ((v / 256) mod 256 ^ Z.of_nat n) * 256) by lia.
      rewrite Z.div_add by lia.
      rewrite (Z.div_small (v mod 256)) by (apply Z.mod_pos_bound; lia).
      reflexivity.
    + f_equal. rewrite Z.div_div by lia. reflexivity.
Qed.

(** X3. A non-negative integer below 2^53 written with
    [pushNumberAsUint64] is stored as its eight little-endian bytes, and
    [getUint64AsNumber] reads the same number back. *)
Theorem X3_uint64_number_roundtrip (b : SB.t) (v : Z) :
  SB.wf b -> SB.unread b = [] -> 0 <= v < 2 ^ 53 ->
  exists b1, SB.pushNumberAsUint64 b v = Ok b1 /\
    SB.asUint8Array b1 = SB.asUint8Array b ++ numeric.toBytes 8 v /\
    SB.getUint64AsNumber b1 = Ok (v, advance b1 8).
Proof.
  intros Hwf Hun Hv. unfold SB.pushNumberAsUint64, SB.getUint64AsNumber.
  rewrite !ushr_0.
  destruct (pushUint32_spec b (JS.toUint32 v) Hwf) as (b1 & E1 & Ha1 & Hu1 & _ & W1).
  rewrite E1. cbn [bind].
  destruct (pushUint32_spec b1 (JS.toUint32 (v / 4294967296)) W1)
    as (b2 & E2 & Ha2 & Hu2 & _ & W2).
  rewrite E2. exists b2. split; [reflexivity|].
  assert (Hlo : JS.toUint32 (JS.toUint32 v) = v mod 2 ^ 32)
    by (unfold JS.toUint32; apply Z.mod_mod; lia).
  assert (Hq : 0 <= v / 4294967296 < 2 ^ 21).
  { split; [apply Z.div_pos; lia|apply Z.div_lt_upper_bound; lia]. }
  assert (Hhi : JS.toUint32 (JS.toUint32 (v / 4294967296)) = v / 4294967296)
    by (rewrite (toUint32_small (v / 4294967296)) by lia;
        rewrite toUint32_small by lia; reflexivity).
  rewrite Hlo in Ha1, Hu1. rewrite Hhi in Ha2, Hu2.
  split.
  - rewrite Ha2, Ha1, <- app_assoc. f_equal.
    change 8%nat with (4 + 4)%nat. rewrite toBytes_app.
    change (256 ^ Z.of_nat 4) with 4294967296. reflexivity.
  - rewrite Hu1, Hun, app_nil_l in Hu2.
    rewrite !toBytes_4 in Hu2. cbn [app] in Hu2.
    destruct (getUint32_spec b2 _ _ _ _ _ W2 Hu2) as (G1 & W3 & Hu3).
    rewrite G1. cbn [bind].
    destruct (getUint32_spec _ _ _ _ _ [] W3 Hu3) as (G2 & _).
    rewrite G2. cbn [bind]. rewrite !ushr_0.
    rewrite (sum_bytes4 (v mod 2 ^ 32)) by (apply Z.mod_pos_bound; lia).
    rewrite (sum_bytes4 (v / 4294967296)) by lia.
    rewrite (toUint32_small (v / 4294967296)) by lia.
    rewrite (toUint32_small (v mod 2 ^ 32)) by (apply Z.mod_pos_bound; lia).
    replace (v / 4294967296 * 4294967296 + v mod 2 ^ 32) with v
      by (change (2 ^ 32) with 4294967296; Z.div_mod_to_equations; lia).
    destruct (Z.ltb_spec v (2 ^ 53)); [|lia].
    rewrite advance_advance. reflexivity.
Qed.

Lemma X3_uint64_number_roundtrip_witness :
  exists b1, SB.pushNumberAsUint64 SB.new 1500000000000000 = Ok b1 /\
    SB.asUint8Array b1 =
      SB.asUint8Array SB.new ++ numeric.toBytes 8 1500000000000000 /\
    SB.getUint64AsNumber b1 = Ok (1500000000000000, advance b1 8).
Proof.
  refine (X3_uint64_number_roundtrip SB.new 1500000000000000 new_wf eq_refl _).
  vm_compute. split; [discriminate|reflexivity].
Defined.
(** ** Bytes, strings and hex *)

Lemma pushBytes_spec b v : SB.wf b -> Z.of_nat (List.length v) < 2 ^ 32 ->
  exists b', SB.pushBytes b v = Ok b' /\
    SB.asUint8Array b' =
      SB.asUint8Array b ++ leb128 5 (Z.of_nat (List.length v)) ++ map JS.toUint8 v /\
    SB.unread b' =
      SB.unread b ++ leb128 5 (Z.of_nat (List.length v)) ++ map JS.toUint8 v /\
    SB.readPos b' = SB.readPos b /\ SB.wf b'.
Proof.
  intros Hwf Hl. unfold SB.pushBytes.
  destruct (pushVaruint32_spec b (Z.of_nat (List.length v)) Hwf)
    as (b1 & E1 & Ha1 & Hu1 & Hr1 & W1).
  rewrite toUint32_small in Ha1, Hu1 by lia.
  rewrite E1. cbn [bind].
  destruct (pushArray_ok b1 v W1) as (b2 & E2 & _ & Hr2 & Ha2 & W2).
  exists b2. split; [exact E2|].
  rewrite (pushArray_unread b1 v b2 W1 E2), Ha2, Ha1, Hu1, <- !app_assoc.
  split; [reflexivity|]. split; [reflexivity|]. split; [congruence|exact W2].
Qed.

Lemma getBytes_spec b v rest : SB.wf b -> Z.of_nat (List.length v) < 2 ^ 32 ->
  SB.unread b = leb128 5 (Z.of_nat (List.length v)) ++ v ++ rest ->
  SB.getBytes b =
    Ok (v, advance b (List.length (leb128 5 (Z.of_nat (List.length v))) + List.length v)) /\
  SB.wf (advance b (List.length (leb128 5 (Z.of_nat (List.length v))) + List.length v)) /\
  SB.unread (advance b (List.length (leb128 5 (Z.of_nat (List.length v))) + List.length v))
    = rest.
Proof.
  intros Hwf Hl Hun. unfold SB.getBytes.
  destruct (getVaruint32_leb b (Z.of_nat (List.length v)) (v ++ rest) Hwf Hun ltac:(lia))
    as (G & W & Hu).
  rewrite G. cbn [bind]. rewrite Nat2Z.id.
  destruct (getUint8Array_spec _ v rest W Hu) as (G2 & W2 & Hu2).
  rewrite advance_advance in *. auto.
Qed.

Lemma pushBytes_getBytes (b : SB.t) (v : list Z) :
  SB.wf b -> SB.unread b = [] -> Z.of_nat (List.length v) < 2 ^ 32 ->
  exists b1 n, SB.pushBytes b v = Ok b1 /\
    SB.asUint8Array b1 =
      SB.asUint8Array b ++ leb128 5 (Z.of_nat (List.length v)) ++ map JS.toUint8 v /\
    SB.getBytes b1 = Ok (map JS.toUint8 v, advance b1 n) /\
    SB.unread (advance b1 n) = [].
Proof.
  intros Hwf Hun Hl.
  destruct (pushBytes_spec b v Hwf Hl) as (b1 & E & Ha & Hu & _ & W).
  rewrite Hun, app_nil_l in Hu.
  rewrite <- (length_map JS.toUint8 v) in Hu, Hl.
  rewrite <- (app_nil_r (map JS.toUint8 v)) in Hu at 2.
  destruct (getBytes_spec b1 (map JS.toUint8 v) [] W Hl Hu) as (G & _ & Hr).
  eexists b1, _. split; [exact E|]. split; [exact Ha|]. split; [exact G|exact Hr].
Qed.

(** X6. [pushBytes] writes the length as a varuint32 and then the elements,
    each converted to a byte; [getBytes] on the result returns exactly those
    bytes and moves the cursor past them. *)
Theorem X6_bytes_roundtrip (b : SB.t) (v : list Z) :
  SB.wf b -> SB.unread b = [] -> Z.of_nat (List.length v) < 2 ^ 32 ->
  exists b1 n, SB.pushBytes b v = Ok b1 /\
    SB.asUint8Array b1 =
      SB.asUint8Array b ++ leb128 5 (Z.of_nat (List.length v)) ++ map JS.toUint8 v /\
    SB.getBytes b1 = Ok (map JS.toUint8 v, advance b1 n) /\
    SB.unread (advance b1 n) = [].
Proof. apply pushBytes_getBytes. Qed.

Lemma X6_bytes_roundtrip_witness :
  exists b1 n, SB.pushBytes SB.new [1; 2; 300] = Ok b1 /\
    SB.asUint8Array b1 =
      SB.asUint8Array SB.new ++ leb128 5 (Z.of_nat (List.length [1; 2; 300]))
        ++ map JS.toUint8 [1; 2; 300] /\
    SB.getBytes b1 = Ok (map JS.toUint8 [1; 2; 300], advance b1 n) /\
    SB.unread (advance b1 n) = [].
Proof.
  refine (X6_bytes_roundtrip SB.new [1; 2; 300] new_wf eq_refl _).
  vm_compute. reflexivity.
Defined.
Lemma code_range c : 0 <= JSString.code c < 256.
Proof.
  unfold JSString.code. pose proof (N_ascii_bounded c). lia.
Qed.

Lemma fromCharCode_code c : JSString.fromCharCode (JSString.code c) = c.
Proof.
  unfold JSString.fromCharCode, JSString.code. rewrite N2Z.id. apply ascii_N_embedding.
Qed.

Lemma utf8_two_bytes c : 128 <= c < 256 ->
  exists b1 b2, utf8_encode_unit c = [b1; b2] /\
    (b1 <? 128) = false /\ (b1 =? 194) || (b1 =? 195) = true /\
    (128 <=? b2) && (b2 <? 192) = true /\
    (b1 - 192) * 64 + (b2 - 128) = c.
Proof.
  intros Hc.
  pose (P := fun c => (c <? 128) ||
    match utf8_encode_unit c with
    | [b1; b2] => negb (b1 <? 128) && ((b1 =? 194) || (b1 =? 195))
                  && ((128 <=? b2) && (b2 <? 192)) && ((b1 - 192) * 64 + (b2 - 128) =? c)
    | _ => false
    end).
  assert (H : P c = true) by (apply byte_forall; [vm_compute; reflexivity|lia]).
  unfold P in H. destruct (Z.ltb_spec c 128); [lia|]. cbn [orb] in H.
  destruct (utf8_encode_unit c) as [|b1 [|b2 [|? ?]]]; try discriminate.
  apply andb_true_iff in H as [H H4]. apply andb_true_iff in H as [H H3].
  apply andb_true_iff in H as [H1 H2].
  exists b1, b2. split; [reflexivity|].
  split; [destruct (b1 <? 128); [discriminate|reflexivity]|].
  split; [exact H2|]. split; [exact H3|]. apply Z.eqb_eq. exact H4.
Qed.

Lemma utf8_decode_encode_unit c rest : 0 <= c < 256 ->
  utf8_decode (utf8_encode_unit c ++ rest) =
    (s <- utf8_decode rest ;; Ok (String (JSString.fromCharCode c) s)).
Proof.
  intros Hc. destruct (Z.lt_ge_cases c 128) as [Hlt|Hge].
  - unfold utf8_encode_unit. destruct (Z.ltb_spec c 128); [|lia].
    cbn [app utf8_decode]. destruct (Z.ltb_spec c 128); [|lia]. reflexivity.
  - destruct (utf8_two_bytes c ltac:(lia)) as (b1 & b2 & E & H1 & H2 & H3 & H4).
    rewrite E. cbn [app utf8_decode]. rewrite H1, H2, H3, H4. reflexivity.
Qed.

Lemma utf8_decode_encode s : utf8_decode (textEncoder_encode s) = Ok s.
Proof.
  unfold textEncoder_encode. induction s as [|c s IH]; [reflexivity|].
  cbn [JSString.codes flat_map].
  rewrite utf8_decode_encode_unit by apply code_range.
  rewrite IH. cbn [bind]. rewrite fromCharCode_code. reflexivity.
Qed.

(** The encoding of a string of these code units never starts with a byte
    order mark: its first byte is below 128, or 194 or 195. *)
Lemma textEncoder_no_mark s : hd 0 (textEncoder_encode s) <> 239.
Proof.
  unfold textEncoder_encode. destruct s as [|c s]; [cbn; lia|].
  cbn [JSString.codes flat_map]. pose proof (code_range c) as Hc.
  destruct (Z.lt_ge_cases (JSString.code c) 128) as [Hlt|Hge].
  - unfold utf8_encode_unit. destruct (Z.ltb_spec (JSString.code c) 128); [|lia].
    cbn [app hd]. lia.
  - destruct (utf8_two_bytes (JSString.code c) ltac:(lia))
      as (b1 & b2 & E & H1 & H2 & H3 & H4).
    rewrite E. cbn [app hd].
    apply orb_true_iff in H2 as [H2|H2]; apply Z.eqb_eq in H2; lia.
Qed.

Lemma textDecoder_no_mark bs : hd 0 bs <> 239 ->
  textDecoder_decode bs = utf8_decode bs.
Proof.
  intros H. unfold textDecoder_decode.
  destruct bs as [|b0 [|b1 [|b2 rest]]]; try reflexivity.
  cbn [hd] in H. destruct (Z.eqb_spec b0 239); [contradiction|reflexivity].
Qed.

Lemma textDecoder_encode s : textDecoder_decode (textEncoder_encode s) = Ok s.
Proof.
  rewrite textDecoder_no_mark by apply textEncoder_no_mark.
  apply utf8_decode_encode.
Qed.

Lemma utf8_encode_unit_bytes c : 0 <= c < 256 ->
  Forall (fun x => 0 <= x < 256) (utf8_encode_unit c).
Proof.
  intros Hc. destruct (Z.lt_ge_cases c 128) as [Hlt|Hge].
  - unfold utf8_encode_unit. destruct (Z.ltb_spec c 128); [|lia].
    constructor; [lia|constructor].
  - destruct (utf8_two_bytes c ltac:(lia)) as (b1 & b2 & E & H1 & H2 & H3 & H4).
    rewrite E. apply andb_true_iff in H3 as [H3 H5].
    apply Z.leb_le in H3. apply Z.ltb_lt in H5.
    apply orb_true_iff in H2 as [H2|H2]; apply Z.eqb_eq in H2;
      (constructor; [lia|constructor; [lia|constructor]]).
Qed.

Lemma textEncoder_bytes s : Forall (fun x => 0 <= x < 256) (textEncoder_encode s).
Proof.
  unfold textEncoder_encode. induction s as [|c s IH]; [constructor|].
  cbn [JSString.codes flat_map]. apply Forall_app. split; [|exact IH].
  apply utf8_encode_unit_bytes. apply code_range.
Qed.

(** X7. A string all of whose code units are below 256 (Latin-1 text),
    written with [pushString], is stored as its UTF-8 bytes (one byte for a
    code unit below 128, two for one in 128..255) behind a varuint32
    length, and is read back unchanged by [getString]. *)
Theorem X7_string_roundtrip (b : SB.t) (s : string) :
  SB.wf b -> SB.unread b = [] ->
  Z.of_nat (List.length (textEncoder_encode s)) < 2 ^ 32 ->
  exists b1 n, SB.pushString b s = Ok b1 /\
    SB.asUint8Array b1 =
      SB.asUint8Array b ++ leb128 5 (Z.of_nat (List.length (textEncoder_encode s)))
        ++ textEncoder_encode s /\
    SB.getString b1 = Ok (s, advance b1 n) /\
    SB.unread (advance b1 n) = [].
Proof.
  intros Hwf Hun Hl. unfold SB.pushString, SB.getString.
  destruct (pushBytes_getBytes b (textEncoder_encode s) Hwf Hun Hl)
    as (b1 & n & E & Ha & G & Hr).
  rewrite (map_toUint8_bytes _ (textEncoder_bytes s)) in Ha, G.
  exists b1, n. split; [exact E|]. split; [exact Ha|].
  rewrite G. cbn [bind]. rewrite textDecoder_encode. cbn [bind]. auto.
Qed.

Lemma X7_string_roundtrip_witness :
  exists b1 n, SB.pushString SB.new (String (ascii_of_nat 233) "te") = Ok b1 /\
    SB.asUint8Array b1 =
      SB.asUint8Array SB.new
        ++ leb128 5 (Z.of_nat (List.length
                       (textEncoder_encode (String (ascii_of_nat 233) "te"))))
        ++ textEncoder_encode (String (ascii_of_nat 233) "te") /\
    SB.getString b1 = Ok (String (ascii_of_nat 233) "te", advance b1 n) /\
    SB.unread (advance b1 n) = [].
Proof.
  refine (X7_string_roundtrip SB.new (String (ascii_of_nat 233) "te") new_wf eq_refl _).
  vm_compute. reflexivity.
Defined.
Lemma fold_append {A} (f : A -> string) (l : list A) : forall acc : string,
  fold_left (fun r x => (r ++ f x)%string) l acc =
    (acc ++ fold_left (fun r x => (r ++ f x)%string) l EmptyString)%string.
Proof.
  induction l as [|x l IH]; intros acc; cbn [fold_left].
  - rewrite append_nil_r. reflexivity.
  - rewrite IH. rewrite (IH (EmptyString ++ f x)%string).
    cbn [append]. rewrite append_assoc. reflexivity.
Qed.

Lemma ofCodes_app l1 l2 :
  JSString.ofCodes (l1 ++ l2) = (JSString.ofCodes l1 ++ JSString.ofCodes l2)%string.
Proof. induction l1 as [|c l1 IH]; simpl; [reflexivity|rewrite IH; reflexivity]. Qed.

Lemma toUpperCase_app s1 s2 :
  toUpperCase (s1 ++ s2) = (toUpperCase s1 ++ toUpperCase s2)%string.
Proof. unfold toUpperCase. rewrite codes_app, map_app, ofCodes_app. reflexivity. Qed.

(** The two characters [arrayToHex] produces for one byte. *)
Lemma arrayToHex_cons x data :
  arrayToHex (x :: data) =
    (toUpperCase (JSString.substr ("00" ++ toString16 x) (-2) None) ++ arrayToHex data)%string.
Proof.
  unfold arrayToHex. cbn [fold_left]. rewrite fold_append.
  rewrite toUpperCase_app. reflexivity.
Qed.

Lemma hex_pair x : 0 <= x < 256 ->
  exists c1 c2,
    toUpperCase (JSString.substr ("00" ++ toString16 x) (-2) None) =
      String c1 (String c2 EmptyString) /\
    parseInt16 (String c1 (String c2 EmptyString)) = Some x.
Proof.
  intros Hx.
  pose (P := fun x =>
    match toUpperCase (JSString.substr ("00" ++ toString16 x) (-2) None) with
    | String c1 (String c2 EmptyString) =>
        match parseInt16 (String c1 (String c2 EmptyString)) with
        | Some y => y =? x
        | None => false
        end
    | _ => false
    end).
  assert (H : P x = true) by (apply byte_forall; [vm_compute; reflexivity|exact Hx]).
  unfold P in H.
  destruct (toUpperCase _) as [|c1 [|c2 [|? ?]]]; try discriminate.
  exists c1, c2. split; [reflexivity|].
  destruct (parseInt16 _) as [y|]; [|discriminate].
  apply Z.eqb_eq in H. subst y. reflexivity.
Qed.

Lemma substr_pair_head c1 c2 s :
  JSString.substr (String c1 (String c2 s)) (Z.of_nat 0 * 2) (Some 2) =
    String c1 (String c2 EmptyString).
Proof.
  unfold JSString.substr, JSString.len. cbn [String.length Z.of_nat Z.mul Z.ltb Z.compare].
  rewrite Z.min_l by lia. rewrite Z.sub_0_r.
  rewrite Z.min_l by lia. change (Z.to_nat (Z.max 2 0)) with 2%nat.
  change (Z.to_nat 0) with 0%nat. cbn [substring]. destruct s; reflexivity.
Qed.

Lemma substr_pair_tail c1 c2 s i :
  JSString.substr (String c1 (String c2 s)) (Z.of_nat (S i) * 2) (Some 2) =
    JSString.substr s (Z.of_nat i * 2) (Some 2).
Proof.
  unfold JSString.substr, JSString.len. cbn [String.length].
  destruct (Z.ltb_spec (Z.of_nat (S i) * 2) 0); [lia|].
  destruct (Z.ltb_spec (Z.of_nat i * 2) 0); [lia|].
  set (n := String.length s).
  replace (Z.to_nat (Z.min (Z.of_nat (S i) * 2) (Z.of_nat (S (S n)))))
    with (S (S (Z.to_nat (Z.min (Z.of_nat i * 2) (Z.of_nat n))))) by lia.
  replace (Z.of_nat (S (S n)) - Z.min (Z.of_nat (S i) * 2) (Z.of_nat (S (S n))))
    with (Z.of_nat n - Z.min (Z.of_nat i * 2) (Z.of_nat n)) by lia.
  reflexivity.
Qed.

Lemma hexToUint8Array_pair c1 c2 s :
  hexToUint8Array (String c1 (String c2 s)) =
    JS.toUint8 match parseInt16 (String c1 (String c2 EmptyString)) with
               | Some v => v
               | None => 0
               end :: hexToUint8Array s.
Proof.
  unfold hexToUint8Array. cbn [String.length].
  replace (S (S (String.length s)) / 2)%nat with (S (String.length s / 2))
    by (change (S (S (String.length s))) with (1 * 2 + String.length s)%nat;
        rewrite Nat.div_add_l by lia; reflexivity).
  rewrite <- cons_seq, <- seq_shift. cbn [map]. rewrite map_map.
  rewrite substr_pair_head. f_equal.
  apply map_ext. intros i. rewrite substr_pair_tail. reflexivity.
Qed.

Lemma hexToUint8Array_arrayToHex data : Forall (fun x => 0 <= x < 256) data ->
  hexToUint8Array (arrayToHex data) = data.
Proof.
  induction 1 as [|x data Hx Hd IH]; [reflexivity|].
  rewrite arrayToHex_cons.
  destruct (hex_pair x Hx) as (c1 & c2 & E & Hp).
  rewrite E. cbn [append]. rewrite hexToUint8Array_pair, Hp, IH.
  rewrite toUint8_id by lia. reflexivity.
Qed.

Lemma hex_pair_upper x : 0 <= x < 256 ->
  toUpperCase (JSString.substr ("00" ++ toString16 x) (-2) None) =
    JSString.ofCodes [upper_hex_digit (x / 16); upper_hex_digit (x mod 16)].
Proof.
  intros Hx.
  pose (P := fun x =>
    String.eqb (toUpperCase (JSString.substr ("00" ++ toString16 x) (-2) None))
      (JSString.ofCodes [upper_hex_digit (x / 16); upper_hex_digit (x mod 16)])).
  assert (H : P x = true) by (apply byte_forall; [vm_compute; reflexivity|exact Hx]).
  apply String.eqb_eq. exact H.
Qed.

Lemma arrayToHex_hex_text data : Forall (fun x => 0 <= x < 256) data ->
  arrayToHex data = hex_text data.
Proof.
  induction 1 as [|x data Hx Hd IH]; [reflexivity|].
  rewrite arrayToHex_cons, (hex_pair_upper x Hx), IH.
  unfold hex_text. cbn [flat_map]. rewrite ofCodes_app. reflexivity.
Qed.

(** X4. For every byte array, [arrayToHex(data)] is the text with two hex
    digits per byte, the high digit first, the digits above 9 written as the
    upper-case letters A..F; and [hexToUint8Array] applied to that text
    gives [data] back. *)
Theorem X4_hex_roundtrip (data : list Z) :
  Forall (fun x => 0 <= x < 256) data ->
  arrayToHex data = hex_text data /\
  hexToUint8Array (arrayToHex data) = data /\
  String.length (arrayToHex data) = (2 * List.length data)%nat.
Proof.
  intros H. split; [apply arrayToHex_hex_text; exact H|].
  split; [apply hexToUint8Array_arrayToHex; exact H|].
  induction H as [|x data Hx Hd IH]; [reflexivity|].
  rewrite arrayToHex_cons. destruct (hex_pair x Hx) as (c1 & c2 & E & _).
  rewrite E. cbn [append String.length List.length]. rewrite IH. lia.
Qed.

Lemma X4_hex_roundtrip_witness :
  arrayToHex [0; 171; 255] = "00ABFF"%string /\
  hexToUint8Array (arrayToHex [0; 171; 255]) = [0; 171; 255] /\
  String.length (arrayToHex [0; 171; 255]) = (2 * List.length [0; 171; 255])%nat.
Proof.
  refine (X4_hex_roundtrip [0; 171; 255] _). repeat constructor; lia.
Defined.
(** ** Encoding only appends *)

Lemma extends_refl b : SB.wf b -> extends b b.
Proof.
  intros H. split; [exact H|]. split; [reflexivity|].
  exists []. rewrite app_nil_r. reflexivity.
Qed.

Lemma extends_trans b1 b2 b3 : extends b1 b2 -> extends b2 b3 -> extends b1 b3.
Proof.
  intros (W2 & R2 & bs2 & A2) (W3 & R3 & bs3 & A3).
  split; [exact W3|]. split; [congruence|].
  exists (bs2 ++ bs3). rewrite A3, A2, app_assoc. reflexivity.
Qed.

Lemma extends_wf b b' : extends b b' -> SB.wf b'.
Proof. intros (W & _). exact W. Qed.

Lemma pushArray_extends b v b' : SB.wf b -> SB.pushArray b v = Ok b' -> extends b b'.
Proof.
  intros Hwf E. destruct (pushArray_ok b v Hwf) as (b2 & E2 & _ & Hr & Ha & W).
  rewrite E in E2. injection E2 as <-.
  split; [exact W|]. split; [exact Hr|]. eexists. exact Ha.
Qed.

Lemma pushVaruint32_extends b v b' : SB.wf b -> SB.pushVaruint32 b v = Ok b' -> extends b b'.
Proof.
  intros Hwf E. destruct (pushVaruint32_spec b v Hwf) as (b2 & E2 & Ha & _ & Hr & W).
  rewrite E in E2. injection E2 as <-.
  split; [exact W|]. split; [exact Hr|]. eexists. exact Ha.
Qed.

Lemma pushBytes_extends b v b' : SB.wf b -> SB.pushBytes b v = Ok b' -> extends b b'.
Proof.
  intros Hwf E. unfold SB.pushBytes in E. bind_ok E.
  apply pushVaruint32_extends in E0; [|exact Hwf].
  eapply extends_trans; [exact E0|].
  eapply pushArray_extends; [eapply extends_wf; exact E0|exact E].
Qed.

Lemma pushChecked_extends b v n b' :
  SB.wf b -> SB.pushUint8ArrayChecked b v n = Ok b' -> extends b b'.
Proof.
  intros Hwf E. unfold SB.pushUint8ArrayChecked in E.
  destruct (negb _); [discriminate|]. eapply pushArray_extends; eassumption.
Qed.

Lemma pushSymbol_extends b s b' : SB.wf b -> SB.pushSymbol b s = Ok b' -> extends b b'.
Proof. intros Hwf E. eapply pushArray_extends; eassumption. Qed.

Lemma pushAsset_extends b s b' : SB.wf b -> SB.pushAsset b s = Ok b' -> extends b b'.
Proof.
  intros Hwf E. unfold SB.pushAsset in E.
  destruct (JSString.trim s) as [|c s0]; cbn zeta iota in E.
  - revert E.
    repeat match goal with
      | |- context [let '(_, _) := ?x in _] => destruct x
      end.
    destruct (negb _); [discriminate|].
    repeat match goal with
      | |- context [let '(_, _) := ?x in _] => destruct x
      end.
    intros E. bind_ok E. bind_ok E.
    apply pushArray_extends in E1; [|exact Hwf].
    eapply extends_trans; [exact E1|].
    eapply pushSymbol_extends; [eapply extends_wf; exact E1|exact E].
  - revert E.
    repeat match goal with
      | |- context [let '(_, _) := ?x in _] => destruct x
      end.
    destruct (negb _); [discriminate|].
    repeat match goal with
      | |- context [let '(_, _) := ?x in _] => destruct x
      end.
    intros E. bind_ok E. bind_ok E.
    apply pushArray_extends in E1; [|exact Hwf].
    eapply extends_trans; [exact E1|].
    eapply pushSymbol_extends; [eapply extends_wf; exact E1|exact E].
Qed.
Lemma serializePrimitive_extends p b data b' :
  SB.wf b -> serializePrimitive p b data = Ok b' -> extends b b'.
Proof.
  intros Hwf E.
  destruct p, data; cbn [serializePrimitive intOperand bind] in E; try discriminate E;
    unfold SB.push, SB.pushUint16, SB.pushUint32, SB.pushVarint32, SB.pushString,
      SB.pushName, SB.pushSymbolCode in E;
    try (eapply pushArray_extends; eassumption);
    try (eapply pushVaruint32_extends; eassumption);
    try (eapply pushBytes_extends; eassumption);
    try (eapply pushChecked_extends; eassumption);
    try (eapply pushAsset_extends; eassumption);
    try (destruct (_ <? _); [|discriminate E]);
    try (bind_ok E;
         first [eapply pushArray_extends; eassumption
               |eapply pushSymbol_extends; eassumption]).
Qed.

Lemma serializeFields_extends (ser : ref -> SB.t -> value -> result SB.t) owner data :
  (forall r b v b', SB.wf b -> ser r b v = Ok b' -> extends b b') ->
  forall fs b b', SB.wf b -> serializeFields ser owner fs b data = Ok b' -> extends b b'.
Proof.
  intros Hser. induction fs as [|f fs IH]; intros b b' Hwf E; cbn [serializeFields] in E.
  - injection E as <-. apply extends_refl. exact Hwf.
  - destruct data; try discriminate E.
    destruct (negb (prop_in props (Field.name f)));
      [destruct (Field.type f); discriminate E|].
    destruct (Field.type f) as [ft|]; [|discriminate E].
    bind_ok E. apply Hser in E0; [|exact Hwf].
    eapply extends_trans; [exact E0|].
    eapply IH; [eapply extends_wf; exact E0|exact E].
Qed.

Lemma serializeItems_extends (ser : SB.t -> value -> result SB.t) :
  (forall b v b', SB.wf b -> ser b v = Ok b' -> extends b b') ->
  forall items b b', SB.wf b -> serializeItems ser items b = Ok b' -> extends b b'.
Proof.
  intros Hser. induction items as [|item items IH]; intros b b' Hwf E;
    cbn [serializeItems] in E.
  - injection E as <-. apply extends_refl. exact Hwf.
  - bind_ok E. apply Hser in E0; [|exact Hwf].
    eapply extends_trans; [exact E0|].
    eapply IH; [eapply extends_wf; exact E0|exact E].
Qed.

Lemma serialize_extends fuel h : forall r b data b',
  SB.wf b -> serialize fuel h r b data = Ok b' -> extends b b'.
Proof.
  induction fuel as [|fuel IH]; intros r b data b' Hwf E; [discriminate E|].
  cbn [serialize] in E.
  destruct (deref h r) as [t|]; [|discriminate E].
  destruct (TypeObj.serialize t).
  - discriminate E.
  - bind_ok E.
    assert (X : extends b a).
    { destruct (TypeObj.base t) as [base|].
      - eapply IH; eassumption.
      - injection E0 as <-. apply extends_refl. exact Hwf. }
    eapply extends_trans; [exact X|].
    eapply serializeFields_extends; [|eapply extends_wf; exact X|exact E].
    intros. eapply IH; eassumption.
  - destruct data; try discriminate E.
    bind_ok E. apply pushVaruint32_extends in E0; [|exact Hwf].
    eapply extends_trans; [exact E0|].
    destruct (TypeObj.arrayOf t) as [inner|].
    + eapply serializeItems_extends; [|eapply extends_wf; exact E0|exact E].
      intros. eapply IH; eassumption.
    + destruct items; [|discriminate E]. injection E as <-.
      apply extends_refl. eapply extends_wf; exact E0.
  - assert (Habs : forall b1, SB.push b [0] = Ok b1 -> extends b b1)
      by (intros; eapply pushArray_extends; eassumption).
    assert (Hpres : forall b1,
               (b0 <- SB.push b [1] ;;
                match TypeObj.optionalOf t with
                | Some inner => serialize fuel h inner b0 data
                | None => Throw JsTypeError
                end) = Ok b1 -> extends b b1).
    { intros b1 E1. bind_ok E1.
      apply pushArray_extends in E0; [|exact Hwf].
      eapply extends_trans; [exact E0|].
      destruct (TypeObj.optionalOf t) as [inner|]; [|discriminate E1].
      eapply IH; [eapply extends_wf; exact E0|exact E1]. }
    destruct data; auto.
  - eapply serializePrimitive_extends; eassumption.
Qed.

(** X8. Encoding only appends: whenever [serialize] returns, the buffer's
    earlier bytes are a prefix of its new contents, the read cursor has not
    moved and the buffer's invariant holds.  This covers struct, array and
    optional types at any nesting over the primitives other than [float32],
    [float64], [time_point], [time_point_sec], [block_timestamp_type],
    [public_key], [private_key] and [signature], on these values (a string
    being one of code units below 256): plain objects for structs; arrays
    for arrays; any value for optionals and [bool]; integers, booleans,
    [null] and [undefined] for the integer types of up to 32 bits and the
    two varints; strings, or integers below 2^53 in magnitude, for [uint64]
    and [int64]; strings for the remaining primitives (for [symbol], with a
    precision below 2^53). *)
Theorem X8_serialize_appends (fuel : nat) (h : heap) (r : ref) (b b' : SB.t)
  (data : value) :
  SB.wf b -> serialize fuel h r b data = Ok b' -> extends b b'.
Proof. apply serialize_extends. Qed.

Lemma X8_serialize_appends_witness :
  extends SB.new
    (match serialize 3 (snd (compiled abi_point)) 32%nat SB.new
             (VObj [("x"%string, VNum 1); ("y"%string, VNum 2)]) with
     | Ok b' => b'
     | _ => SB.new
     end).
Proof.
  refine (X8_serialize_appends 3 (snd (compiled abi_point)) 32%nat SB.new _
            (VObj [("x"%string, VNum 1); ("y"%string, VNum 2)]) new_wf _).
  vm_compute. reflexivity.
Defined.
(** ** Decoding stays inside the written part *)

Lemma read_within_le b b' : read_within b b' -> (SB.readPos b' <= SB.length b')%nat.
Proof. intros (L & _ & P). lia. Qed.

Lemma deserializePrimitive_within p b v b' :
  deserializePrimitive p b = Ok (v, b') -> read_within b b'.
Proof.
  intros E. destruct p; cbn [deserializePrimitive] in E; try discriminate E;
    bind_ok E; destruct a as [x b1]; injection E as _ <-;
    first [eapply get_within; eassumption
          |eapply getUint16_within; eassumption
          |eapply getUint32_within; eassumption
          |eapply getUint8Array_within; eassumption
          |eapply getVaruint32_within; eassumption
          |eapply getVarint32_within; eassumption
          |eapply getBytes_within; eassumption
          |eapply getString_within; eassumption
          |eapply getName_within; eassumption
          |eapply getSymbolCode_within; eassumption
          |eapply getSymbol_within; eassumption
          |eapply getAsset_within; eassumption].
Qed.

Lemma deserializeFields_within (des : ref -> SB.t -> result (value * SB.t)) :
  (forall r b v b', (SB.readPos b <= SB.length b)%nat ->
     des r b = Ok (v, b') -> read_within b b') ->
  forall fs res b v b', (SB.readPos b <= SB.length b)%nat ->
    deserializeFields des fs res b = Ok (v, b') -> read_within b b'.
Proof.
  intros Hdes. induction fs as [|f fs IH]; intros res b v b' Hb E;
    cbn [deserializeFields] in E.
  - injection E as _ <-. apply read_within_refl. exact Hb.
  - destruct (Field.type f) as [ft|]; [|discriminate E].
    bind_ok E. destruct a as [x b1]. apply Hdes in E0; [|exact Hb].
    assert (K : forall res', deserializeFields des fs res' b1 = Ok (v, b') ->
                read_within b b').
    { intros res' E'. eapply read_within_trans; [exact E0|].
      eapply IH; [eapply read_within_le; exact E0|exact E']. }
    destruct res; try discriminate E;
      try (destruct (String.eqb (Field.name f) "__proto__");
           [eapply K; exact E|discriminate E]).
    bind_ok E. eapply K; exact E.
Qed.

Lemma deserializeItems_within (des : SB.t -> result (value * SB.t)) :
  (forall b v b', (SB.readPos b <= SB.length b)%nat ->
     des b = Ok (v, b') -> read_within b b') ->
  forall n acc b vs b', (SB.readPos b <= SB.length b)%nat ->
    deserializeItems des n acc b = Ok (vs, b') -> read_within b b'.
Proof.
  intros Hdes. induction n as [|n IH]; intros acc b vs b' Hb E;
    cbn [deserializeItems] in E.
  - injection E as _ <-. apply read_within_refl. exact Hb.
  - bind_ok E. destruct a as [x b1]. apply Hdes in E0; [|exact Hb].
    eapply read_within_trans; [exact E0|].
    eapply IH; [eapply read_within_le; exact E0|exact E].
Qed.

Lemma deserialize_within fuel h : forall r b v b',
  (SB.readPos b <= SB.length b)%nat ->
  deserialize fuel h r b = Ok (v, b') -> read_within b b'.
Proof.
  induction fuel as [|fuel IH]; intros r b v b' Hb E; [discriminate E|].
  cbn [deserialize] in E.
  destruct (deref h r) as [t|]; [|discriminate E].
  destruct (TypeObj.deserialize t).
  - discriminate E.
  - bind_ok E. destruct a as [res b1].
    assert (X : read_within b b1).
    { destruct (TypeObj.base t) as [base|].
      - eapply IH; eassumption.
      - injection E0 as _ <-. apply read_within_refl. exact Hb. }
    eapply read_within_trans; [exact X|].
    eapply deserializeFields_within; [|eapply read_within_le; exact X|exact E].
    intros. eapply IH; eassumption.
  - bind_ok E. destruct a as [len b1]. apply getVaruint32_within in E0.
    eapply read_within_trans; [exact E0|].
    destruct (TypeObj.arrayOf t) as [inner|].
    + bind_ok E. destruct a as [items b2]. injection E as _ <-.
      eapply deserializeItems_within; [|eapply read_within_le; exact E0|exact E1].
      intros. eapply IH; eassumption.
    + destruct (len =? 0); [|discriminate E]. injection E as _ <-.
      apply read_within_refl. eapply read_within_le; exact E0.
  - bind_ok E. destruct a as [x b1]. apply get_within in E0.
    destruct (JS.truthy x).
    + destruct (TypeObj.optionalOf t) as [inner|]; [|discriminate E].
      eapply read_within_trans; [exact E0|].
      eapply IH; [eapply read_within_le; exact E0|exact E].
    + injection E as _ <-. exact E0.
  - eapply deserializePrimitive_within; eassumption.
Qed.

(** X9. Decoding never writes and never reads past the written bytes:
    whenever [deserialize] returns, the storage and the written length are
    unchanged and the read cursor has moved forward to a position not
    beyond the written length.  This covers struct, array and optional
    types at any nesting over the primitives other than [float32],
    [float64], [time_point], [time_point_sec], [block_timestamp_type],
    [public_key], [private_key] and [signature], with text on the wire
    whose code points are below 256; a struct whose base is an array type,
    or whose field [__proto__] decodes to an object, an array or [null], is
    not covered. *)
Theorem X9_deserialize_within (fuel : nat) (h : heap) (r : ref) (b b' : SB.t)
  (v : value) :
  (SB.readPos b <= SB.length b)%nat ->
  deserialize fuel h r b = Ok (v, b') -> read_within b b'.
Proof. apply deserialize_within. Qed.

Lemma X9_deserialize_within_witness :
  read_within (SB.mk 2 [7; 9; 0; 0] 0) (advance (SB.mk 2 [7; 9; 0; 0] 0) 2).
Proof.
  refine (X9_deserialize_within 3 (snd (compiled abi_point)) 32%nat
            (SB.mk 2 [7; 9; 0; 0] 0) _
            (VObj [("x"%string, VNum 7); ("y"%string, VNum 9)]) _ _).
  - simpl. lia.
  - vm_compute. reflexivity.
Defined.
(** ** Synthesized and cyclic types *)

Lemma substring_all s : substring 0 (String.length s) s = s.
Proof. induction s as [|c s IH]; cbn; [reflexivity|rewrite IH; reflexivity]. Qed.

Lemma substring_app_r a b :
  substring (String.length a) (String.length b) (a ++ b) = b.
Proof. induction a as [|c a IH]; cbn; [apply substring_all|exact IH]. Qed.

Lemma substring_app_l a b : substring 0 (String.length a) (a ++ b) = a.
Proof.
  induction a as [|c a IH]; cbn; [destruct b; reflexivity|rewrite IH; reflexivity].
Qed.

Lemma endsWith_app name suffix : JSString.endsWith (name ++ suffix) suffix = true.
Proof.
  unfold JSString.endsWith. rewrite length_append.
  destruct (Nat.leb_spec (String.length suffix) (String.length name + String.length suffix));
    [|lia].
  replace (String.length name + String.length suffix - String.length suffix)%nat
    with (String.length name) by lia.
  rewrite substring_app_r. apply String.eqb_refl.
Qed.

Lemma substr_strip name suffix :
  JSString.substr (name ++ suffix) 0
    (Some (JSString.len (name ++ suffix) - Z.of_nat (String.length suffix))) = name.
Proof.
  unfold JSString.substr, JSString.len. rewrite length_append.
  cbn [Z.ltb Z.compare]. rewrite Z.min_l by lia. rewrite Z.sub_0_r.
  rewrite Z.max_l by lia. rewrite Z.min_l by lia.
  change (Z.to_nat 0) with 0%nat.
  replace (Z.to_nat (Z.of_nat (String.length name + String.length suffix)
                     - Z.of_nat (String.length suffix)))
    with (String.length name) by lia.
  apply substring_app_l.
Qed.

Lemma endsWith_brackets_cons c s :
  JSString.endsWith (String c s) "[]" =
    match s with
    | EmptyString => false
    | String c' EmptyString => String.eqb (String c (String c' EmptyString)) "[]"
    | _ => JSString.endsWith s "[]"
    end.
Proof.
  unfold JSString.endsWith. cbn [String.length].
  destruct s as [|c1 [|c2 s]]; try reflexivity.
  cbn [String.length Nat.leb Nat.sub substring]. rewrite ?Nat.sub_0_r. reflexivity.
Qed.

Lemma endsWith_question name : JSString.endsWith (name ++ "?") "[]" = false.
Proof.
  induction name as [|c name IH]; [reflexivity|].
  cbn [append]. rewrite endsWith_brackets_cons.
  destruct name as [|c1 name]; cbn [append] in *.
  - cbn. destruct (Ascii.eqb c "["%char); reflexivity.
  - destruct name as [|c2 name]; cbn [append] in *; exact IH.
Qed.

Lemma deref_app h x r t : deref h r = Some t -> deref (h ++ x) r = Some t.
Proof.
  unfold deref. intros H. rewrite nth_error_app1; [exact H|].
  apply nth_error_Some. congruence.
Qed.

Lemma getType_appends fuel : forall h types name r h',
  getType fuel h types name = Ok (r, h') -> exists x, h' = h ++ x.
Proof.
  induction fuel as [|fuel IH]; intros h types name r h' E; [discriminate E|].
  cbn [getType] in E.
  destruct (match map_get types name with
            | Some r0 => match deref h r0 with
                         | Some t => Some (r0, t)
                         | None => None
                         end
            | None => None
            end) as [[r0 t]|].
  - destruct (negb _).
    + eapply IH; exact E.
    + injection E as _ <-. exists []. rewrite app_nil_r. reflexivity.
  - destruct (JSString.endsWith name "[]").
    + bind_ok E. destruct a as [inner h1]. apply IH in E0 as (x & ->).
      unfold alloc in E. injection E as _ <-.
      eexists. rewrite <- app_assoc. reflexivity.
    + destruct (JSString.endsWith name "?"); [|discriminate E].
      bind_ok E. destruct a as [inner h1]. apply IH in E0 as (x & ->).
      unfold alloc in E. injection E as _ <-.
      eexists. rewrite <- app_assoc. reflexivity.
Qed.

(** X10. A name ending in [[]] (respectively [?]) that is not itself in
    the registry, and whose prefix resolves to an object [r] (through
    aliases, or by synthesizing in turn), resolves to a new array
    (optional) type around [r].  The new object is appended to the heap the
    prefix's resolution left, at an address that was free before the call,
    so that no lookup of such a name returns an object an earlier call
    returned; the objects that existed are unchanged. *)
Theorem X10_synthesized_types (fuel : nat) (h h1 : heap) (types : TypeMap)
  (name : string) (r : ref) :
  getType fuel h types name = Ok (r, h1) ->
  (map_get types (name ++ "[]") = None ->
   getType (S fuel) h types (name ++ "[]") =
     Ok (List.length h1,
         h1 ++ [createType [a_name (name ++ "[]"); a_arrayOf r;
                            a_serialize serializeArray;
                            a_deserialize deserializeArray]])) /\
  (map_get types (name ++ "?") = None ->
   getType (S fuel) h types (name ++ "?") =
     Ok (List.length h1,
         h1 ++ [createType [a_name (name ++ "?"); a_optionalOf r;
                            a_serialize serializeOptional;
                            a_deserialize deserializeOptional]])) /\
  (exists x, h1 = h ++ x) /\
  deref h (List.length h1) = None.
Proof.
  intros E. split; [|split; [|split]].
  - intros Hm. cbn [getType]. rewrite Hm.
    rewrite endsWith_app.
    change 2 with (Z.of_nat (String.length "[]")). rewrite substr_strip.
    rewrite E. reflexivity.
  - intros Hm. cbn [getType]. rewrite Hm.
    rewrite endsWith_question, endsWith_app.
    change 1 with (Z.of_nat (String.length "?")). rewrite substr_strip.
    rewrite E. reflexivity.
  - eapply getType_appends. exact E.
  - apply getType_appends in E as (x & ->).
    unfold deref. apply nth_error_None. rewrite length_app. lia.
Qed.

Lemma X10_synthesized_types_witness :
  getType 3 (snd initialTypes) (fst initialTypes) ("uint8[]" ++ "[]") =
    Ok (33%nat,
        (snd initialTypes ++
           [createType [a_name "uint8[]"; a_arrayOf 1%nat;
                        a_serialize serializeArray;
                        a_deserialize deserializeArray]]) ++
          [createType [a_name ("uint8[]" ++ "[]"); a_arrayOf 32%nat;
                       a_serialize serializeArray;
                       a_deserialize deserializeArray]]).
Proof.
  refine (proj1 (X10_synthesized_types 2 (snd initialTypes)
                   (snd initialTypes ++
                      [createType [a_name "uint8[]"; a_arrayOf 1%nat;
                                   a_serialize serializeArray;
                                   a_deserialize deserializeArray]])
                   (fst initialTypes) "uint8[]" 32%nat _) _).
  - vm_compute. reflexivity.
  - vm_compute. reflexivity.
Defined.

(** X11. Alias cycles are not detected: when every name reachable from
    [name] through alias entries is again an alias, [getType] never
    returns, whatever the amount of fuel. *)
Theorem X11_alias_cycle_diverges (h : heap) (types : TypeMap) (P : string -> Prop) :
  (forall x, P x ->
     exists r t, map_get types x = Some r /\ deref h r = Some t /\
       TypeObj.aliasOfName t <> EmptyString /\ P (TypeObj.aliasOfName t)) ->
  forall fuel name, P name -> getType fuel h types name = OutOfFuel.
Proof.
  intros Hstep. induction fuel as [|fuel IH]; intros name Hn; [reflexivity|].
  cbn [getType]. destruct (Hstep name Hn) as (r & t & Hm & Hd & Ha & Hp).
  rewrite Hm, Hd. destruct (TypeObj.aliasOfName t) as [|c s] eqn:E; [congruence|].
  cbn [String.length Nat.eqb negb]. apply IH. exact Hp.
Qed.

Lemma X11_alias_cycle_diverges_witness :
  getType 100 [createType [a_name "loop"; a_aliasOfName "loop"]]
    [("loop"%string, 0%nat)] "loop" = OutOfFuel.
Proof.
  refine (X11_alias_cycle_diverges _ _ (fun x => x = "loop"%string) _ 100%nat _ eq_refl).
  intros x ->. eexists. eexists.
  split; [reflexivity|]. split; [reflexivity|]. split; [discriminate|reflexivity].
Defined.
(** ** What schema compilation leaves alone *)

Lemma firstn_app_le {A} (n : nat) (l x : list A) :
  (n <= List.length l)%nat -> firstn n (l ++ x) = firstn n l.
Proof.
  intros H. rewrite firstn_app. replace (n - List.length l)%nat with 0%nat by lia.
  cbn [firstn]. apply app_nil_r.
Qed.

Lemma store_length h : forall r t, List.length (store h r t) = List.length h.
Proof. induction h as [|x h IH]; intros [|r] t; simpl; auto. Qed.

Lemma store_firstn n : forall h r t, (n <= r)%nat -> firstn n (store h r t) = firstn n h.
Proof.
  induction n as [|n IH]; intros h r t Hr; [reflexivity|].
  destruct h as [|x h]; [reflexivity|]. destruct r as [|r]; [lia|].
  cbn [store firstn]. rewrite IH by lia. reflexivity.
Qed.

Lemma store_same h : forall r t, deref h r = Some t -> store h r t = h.
Proof.
  unfold deref. induction h as [|x h IH]; intros [|r] t E; cbn in *; try discriminate.
  - injection E as ->. reflexivity.
  - rewrite IH by exact E. reflexivity.
Qed.

Lemma deref_prefix n h h0 r :
  firstn n h = h0 -> (r < n)%nat -> deref h r = deref h0 r.
Proof.
  intros <- Hr. unfold deref. revert h r Hr.
  induction n as [|n IH]; intros h r Hr; [lia|].
  destruct h as [|x h]; [destruct r; reflexivity|].
  destruct r as [|r]; [reflexivity|]. cbn [firstn nth_error]. apply IH. lia.
Qed.

(** The invariant: the bootstrap objects are in place, followed by the
    schema's. *)
Lemma prefix_app h x :
  firstn 32 h = snd initialTypes -> firstn 32 (h ++ x) = snd initialTypes.
Proof.
  intros H. rewrite firstn_app_le; [exact H|].
  assert (L : List.length (firstn 32 h) = 32%nat) by (rewrite H; reflexivity).
  rewrite length_firstn in L. lia.
Qed.

Lemma resolveFields_high fuel types r : (32 <= r)%nat ->
  forall fs i h h', firstn 32 h = snd initialTypes ->
    resolveFields fuel types r fs i h = Ok h' ->
    firstn 32 h' = snd initialTypes.
Proof.
  intros Hr. induction fs as [|f fs IH]; intros i h h' Hh E; cbn [resolveFields] in E.
  - injection E as <-. exact Hh.
  - bind_ok E. destruct a as [ft h1]. apply getType_appends in E0 as (x & ->).
    apply IH in E; [exact E|].
    destruct (deref (h ++ x) r).
    + rewrite store_firstn by exact Hr. apply prefix_app. exact Hh.
    + apply prefix_app. exact Hh.
Qed.

Lemma resolveEntry_high fuel types r h h' : (32 <= r)%nat ->
  firstn 32 h = snd initialTypes ->
  resolveEntry fuel types h r = Ok h' -> firstn 32 h' = snd initialTypes.
Proof.
  intros Hr Hh E. unfold resolveEntry in E.
  destruct (deref h r) as [t|]; [|discriminate E].
  bind_ok E. apply (resolveFields_high fuel types r Hr) in E; [exact E|].
  destruct (negb _).
  - bind_ok E0. destruct a0 as [bs h1]. apply getType_appends in E1 as (x & ->).
    destruct (deref (h ++ x) r); injection E0 as <-.
    + rewrite store_firstn by exact Hr. apply prefix_app. exact Hh.
    + apply prefix_app. exact Hh.
  - injection E0 as <-. exact Hh.
Qed.

Lemma resolveEntry_plain fuel types r h t :
  deref h r = Some t -> TypeObj.baseName t = EmptyString -> TypeObj.fields t = [] ->
  resolveEntry fuel types h r = Ok h.
Proof.
  intros Hd Hb Hf. unfold resolveEntry. rewrite Hd, Hb, Hf. reflexivity.
Qed.

Lemma bootstrap_plain r t : (r < 31)%nat -> deref (snd initialTypes) r = Some t ->
  TypeObj.baseName t = EmptyString /\ TypeObj.fields t = [].
Proof.
  intros Hr Hd.
  assert (F : Forall (fun t => TypeObj.baseName t = EmptyString /\ TypeObj.fields t = [])
                (firstn 31 (snd initialTypes)))
    by (vm_compute; repeat constructor).
  rewrite Forall_forall in F. apply F.
  rewrite (deref_prefix 31 (snd initialTypes) (firstn 31 (snd initialTypes)) r eq_refl Hr) in Hd.
  eapply nth_error_In. exact Hd.
Qed.

Lemma getType_bootstrap fuel types h name r t :
  map_get types name = Some r -> deref h r = Some t ->
  TypeObj.aliasOfName t = EmptyString ->
  forall r' h', getType fuel h types name = Ok (r', h') -> r' = r /\ h' = h.
Proof.
  intros Hm Hd Ha r' h' E. destruct fuel as [|fuel]; [discriminate E|].
  cbn [getType] in E. rewrite Hm, Hd, Ha in E. cbn in E.
  injection E as <- <-. auto.
Qed.

Lemma resolveEntry_extended_asset fuel types h h' :
  firstn 32 h = snd initialTypes ->
  map_get types "asset" = Some 24%nat -> map_get types "name" = Some 18%nat ->
  resolveEntry fuel types h extended_asset_ref = Ok h' -> h' = h.
Proof.
  intros Hh Ha Hn E. unfold resolveEntry in E.
  pose proof (deref_prefix 32 h _ 31%nat Hh ltac:(lia)) as D31.
  pose proof (deref_prefix 32 h _ 24%nat Hh ltac:(lia)) as D24.
  pose proof (deref_prefix 32 h _ 18%nat Hh ltac:(lia)) as D18.
  assert (X31 : deref (snd initialTypes) 31%nat =
    Some (createType
            [a_name "extended_asset"; a_baseName "";
             a_fields [ {| Field.name := "quantity"; Field.typeName := "asset";
                           Field.type := Some 24%nat |};
                        {| Field.name := "contract"; Field.typeName := "name";
                           Field.type := Some 18%nat |} ];
             a_serialize serializeStruct; a_deserialize deserializeStruct]))
    by reflexivity.
  rewrite X31 in D31. clear X31.
  unfold extended_asset_ref in E. rewrite D31 in E.
  cbn [createType fold_left apply_attr TypeObj.baseName TypeObj.fields String.length
         Nat.eqb negb bind resolveFields Field.typeName Field.name] in E.
  bind_ok E. destruct a as [r1 h1].
  eapply getType_bootstrap in E0 as [Q1 Q2]; [|exact Ha|rewrite D24; reflexivity|reflexivity].
  subst r1 h1.
  rewrite D31 in E.
  cbn [createType fold_left apply_attr TypeObj.fields firstn skipn app] in E.
  rewrite store_same in E by exact D31.
  bind_ok E. destruct a as [r2 h2].
  eapply getType_bootstrap in E0 as [Q1 Q2]; [|exact Hn|rewrite D18; reflexivity|reflexivity].
  subst r2 h2.
  rewrite D31 in E.
  cbn [createType fold_left apply_attr TypeObj.fields firstn skipn app] in E.
  rewrite store_same in E by exact D31.
  injection E as <-. reflexivity.
Qed.

Lemma resolveEntry_frame fuel types h h' r :
  firstn 32 h = snd initialTypes ->
  map_get types "asset" = Some 24%nat -> map_get types "name" = Some 18%nat ->
  resolveEntry fuel types h r = Ok h' -> firstn 32 h' = snd initialTypes.
Proof.
  intros Hh Ha Hn E.
  destruct (Nat.le_gt_cases 32 r) as [Hr|Hr].
  - eapply resolveEntry_high; eassumption.
  - destruct (Nat.eq_dec r 31%nat) as [->|Hne].
    + apply resolveEntry_extended_asset in E; auto. subst h'. exact Hh.
    + destruct (deref h r) as [t|] eqn:Hd.
      * pose proof Hd as Hd0. rewrite (deref_prefix 32 h _ r Hh Hr) in Hd0.
        destruct (bootstrap_plain r t ltac:(lia) Hd0) as (Hb & Hf).
        rewrite (resolveEntry_plain fuel types r h t Hd Hb Hf) in E.
        injection E as <-. exact Hh.
      * unfold resolveEntry in E. rewrite Hd in E. discriminate E.
Qed.

Lemma resolveEntries_frame fuel types :
  map_get types "asset" = Some 24%nat -> map_get types "name" = Some 18%nat ->
  forall entries h h', firstn 32 h = snd initialTypes ->
    resolveEntries fuel types entries h = Ok h' ->
    firstn 32 h' = snd initialTypes.
Proof.
  intros Ha Hn. induction entries as [|[k r] entries IH]; intros h h' Hh E;
    cbn [resolveEntries] in E.
  - injection E as <-. exact Hh.
  - bind_ok E. eapply IH; [|exact E].
    eapply resolveEntry_frame; eassumption.
Qed.

Lemma map_get_set_other m k r k' : k <> k' ->
  map_get (map_set m k r) k' = map_get m k'.
Proof.
  intros Hne. induction m as [|[k0 r0] m IH]; cbn [map_set map_get].
  - destruct (String.eqb_spec k k'); [congruence|reflexivity].
  - destruct (String.eqb_spec k0 k) as [->|Hk]; cbn [map_get].
    + destruct (String.eqb_spec k k'); [congruence|reflexivity].
    + destruct (String.eqb_spec k0 k'); [reflexivity|exact IH].
Qed.
Lemma declare_fold {D : Type} (key : D -> string) (obj : D -> TypeObj.t) (k : string) :
  forall l types h,
    Forall (fun d => key d <> k) l ->
    firstn 32 h = snd initialTypes ->
    let res := fold_left
                 (fun '(types, h) d =>
                    let '(r, h) := alloc h (obj d) in (map_set types (key d) r, h))
                 l (types, h) in
    map_get (fst res) k = map_get types k /\ firstn 32 (snd res) = snd initialTypes.
Proof.
  induction l as [|d l IH]; intros types h Hl Hh; cbv zeta; cbn [fold_left].
  - cbn. auto.
  - apply Forall_cons_iff in Hl as [Hd Hl].
    change (let '(r, h0) := alloc h (obj d) in (map_set types (key d) r, h0))
      with (map_set types (key d) (List.length h), h ++ [obj d]).
    destruct (IH (map_set types (key d) (List.length h)) (h ++ [obj d]) Hl
                (prefix_app h _ Hh)) as (I1 & I2).
    split; [|exact I2].
    rewrite I1. apply map_get_set_other. exact Hd.
Qed.

(** X12. When a schema declares no alias and no struct named [asset] or
    [name], compiling it against the bootstrap registry leaves every
    bootstrap Type object as it was (the first 32 heap objects are those of
    [createInitialTypes]), and every bootstrap name the schema does not
    redeclare still maps to its bootstrap object. *)
Theorem X12_bootstrap_untouched (fuel : nat) (abi : Abi.t) (types : TypeMap) (h : heap) :
  undeclared abi "asset" -> undeclared abi "name" ->
  compile fuel abi = Ok (types, h) ->
  firstn 32 h = snd initialTypes /\
  forall n, undeclared abi n -> map_get types n = map_get (fst initialTypes) n.
Proof.
  intros (A1 & A2) (N1 & N2) E. unfold compile, getTypesFromAbi in E.
  set (F1 := fun '(types, h) d =>
               let '(r, h) := alloc h (createType [a_name (Abi.new_type_name d);
                                                   a_aliasOfName (Abi.type d)]) in
               (map_set types (Abi.new_type_name d) r, h)) in E.
  set (F2 := fun '(types, h) s =>
               let '(r, h) :=
                 alloc h (createType
                            [a_name (Abi.name s); a_baseName (Abi.base s);
                             a_fields
                               (map (fun f => {| Field.name := Abi.field_name f;
                                                 Field.typeName := Abi.field_type f;
                                                 Field.type := None |})
                                  (Abi.fields s));
                             a_serialize serializeStruct;
                             a_deserialize deserializeStruct]) in
               (map_set types (Abi.name s) r, h)) in E.
  assert (H0 : firstn 32 (snd initialTypes) = snd initialTypes) by reflexivity.
  destruct (fold_left F1 (Abi.types abi) (fst initialTypes, snd initialTypes))
    as [types1 h1] eqn:E1.
  destruct (fold_left F2 (Abi.structs abi) (types1, h1)) as [types2 h2] eqn:E2.
  assert (K1 : forall k, Forall (fun d => Abi.new_type_name d <> k) (Abi.types abi) ->
             map_get types1 k = map_get (fst initialTypes) k /\
             firstn 32 h1 = snd initialTypes).
  { intros k Hk.
    assert (X : map_get (fst (fold_left F1 (Abi.types abi)
                                (fst initialTypes, snd initialTypes))) k =
                  map_get (fst initialTypes) k /\
                firstn 32 (snd (fold_left F1 (Abi.types abi)
                                  (fst initialTypes, snd initialTypes))) =
                  snd initialTypes)
      by exact (declare_fold Abi.new_type_name
                  (fun d => createType [a_name (Abi.new_type_name d);
                                        a_aliasOfName (Abi.type d)])
                  k (Abi.types abi) (fst initialTypes) (snd initialTypes) Hk H0).
    rewrite E1 in X. exact X. }
  assert (P1 : firstn 32 h1 = snd initialTypes) by (apply (K1 "asset"%string A1)).
  assert (K2 : forall k, Forall (fun s => Abi.name s <> k) (Abi.structs abi) ->
             map_get types2 k = map_get types1 k /\
             firstn 32 h2 = snd initialTypes).
  { intros k Hk.
    assert (X : map_get (fst (fold_left F2 (Abi.structs abi) (types1, h1))) k =
                  map_get types1 k /\
                firstn 32 (snd (fold_left F2 (Abi.structs abi) (types1, h1))) =
                  snd initialTypes)
      by exact (declare_fold Abi.name
                  (fun s => createType
                            [a_name (Abi.name s); a_baseName (Abi.base s);
                             a_fields
                               (map (fun f => {| Field.name := Abi.field_name f;
                                                 Field.typeName := Abi.field_type f;
                                                 Field.type := None |})
                                  (Abi.fields s));
                             a_serialize serializeStruct;
                             a_deserialize deserializeStruct])
                  k (Abi.structs abi) types1 h1 Hk P1).
    rewrite E2 in X. exact X. }
  bind_ok E. injection E as <- <-.
  assert (Ha : map_get types2 "asset" = Some 24%nat).
  { rewrite (proj1 (K2 _ A2)), (proj1 (K1 _ A1)). reflexivity. }
  assert (Hn : map_get types2 "name" = Some 18%nat).
  { rewrite (proj1 (K2 _ N2)), (proj1 (K1 _ N1)). reflexivity. }
  split.
  - eapply resolveEntries_frame; [exact Ha|exact Hn| |exact E0].
    apply (K2 "asset"%string A2).
  - intros n (U1 & U2). rewrite (proj1 (K2 _ U2)), (proj1 (K1 _ U1)). reflexivity.
Qed.

Lemma X12_bootstrap_untouched_witness :
  firstn 32 (snd (compiled abi_point)) = snd initialTypes.
Proof.
  refine (proj1 (X12_bootstrap_untouched 4 abi_point (fst (compiled abi_point))
                   (snd (compiled abi_point)) _ _ _)).
  - split; repeat constructor; discriminate.
  - split; repeat constructor; discriminate.
  - vm_compute. reflexivity.
Defined.
(** ** More on packed names *)

Lemma pushName_bit_length c a p j :
  List.length (fst (SB.pushName_bit c (a, p) j)) = List.length a.
Proof.
  unfold SB.pushName_bit. destruct (0 <=? p); cbn [fst]; [|reflexivity].
  apply typed_store_length.
Qed.

Lemma pushName_char_length st ch :
  List.length (fst (SB.pushName_char st ch)) = List.length (fst st).
Proof.
  unfold SB.pushName_char.
  generalize (if snd st <? 5 then JS.shl (SB.charToSymbol ch) 1 else SB.charToSymbol ch).
  intros c. cbn [fold_left]. destruct st as [a p]. cbn [fst].
  destruct (SB.pushName_bit c (a, p) 4) as [a1 p1] eqn:E1.
  destruct (SB.pushName_bit c (a1, p1) 3) as [a2 p2] eqn:E2.
  destruct (SB.pushName_bit c (a2, p2) 2) as [a3 p3] eqn:E3.
  destruct (SB.pushName_bit c (a3, p3) 1) as [a4 p4] eqn:E4.
  rewrite pushName_bit_length.
  change a4 with (fst (a4, p4)). rewrite <- E4, pushName_bit_length.
  change a3 with (fst (a3, p3)). rewrite <- E3, pushName_bit_length.
  change a2 with (fst (a2, p2)). rewrite <- E2, pushName_bit_length.
  change a1 with (fst (a1, p1)). rewrite <- E1, pushName_bit_length.
  reflexivity.
Qed.

Lemma pushName_fold_length l : forall st,
  List.length (fst (fold_left SB.pushName_char l st)) = List.length (fst st).
Proof.
  induction l as [|ch l IH]; intros st; cbn [fold_left]; [reflexivity|].
  rewrite IH. apply pushName_char_length.
Qed.

Lemma packName_bytes8 s : bytes8 (SB.packName s).
Proof.
  unfold SB.packName. split.
  - rewrite pushName_fold_length. reflexivity.
  - apply pushName_fold_bytes. apply zeros_bytes8.
Qed.

Lemma pushName_fold_done l : forall a p, p < 0 ->
  fold_left SB.pushName_char l (a, p) = (a, p).
Proof.
  induction l as [|ch l IH]; intros a p Hp; cbn [fold_left]; [reflexivity|].
  rewrite pushName_char_done by exact Hp. apply IH. exact Hp.
Qed.

Lemma pushName_fold_cursor : forall l n a,
  bytes8 a -> List.length l = n -> (1 <= n <= 13)%nat ->
  snd (fold_left SB.pushName_char l (a, 5 * Z.of_nat n - 2)) = -1.
Proof.
  induction l as [|ch l IH]; intros n a Ha Hl Hn; cbn [List.length] in Hl; [lia|].
  cbn [fold_left]. destruct n as [|[|n]]; [lia| |].
  - change (5 * Z.of_nat 1 - 2) with 3.
    destruct (pushName_char_group4 a ch Ha) as (a1 & E1 & _).
    rewrite E1. destruct l; [reflexivity|discriminate Hl].
  - destruct (pushName_char_group5 a (5 * Z.of_nat (S (S n)) - 2) ch Ha ltac:(lia))
      as (a1 & E1 & B1 & _).
    rewrite E1.
    replace (5 * Z.of_nat (S (S n)) - 2 - 5) with (5 * Z.of_nat (S n) - 2) by lia.
    apply IH; [exact B1|lia|lia].
Qed.

(** X14. [pushName] always writes exactly eight bytes, whatever the length
    of the string, and only the first thirteen characters count: a longer
    string is packed like its first thirteen characters. *)
Theorem X14_name_fixed_width (s : string) (b : SB.t) :
  SB.wf b ->
  (exists b', SB.pushName b s = Ok b' /\
     SB.asUint8Array b' = SB.asUint8Array b ++ SB.packName s /\
     SB.length b' = (SB.length b + 8)%nat) /\
  (forall s1 s2, s = (s1 ++ s2)%string -> String.length s1 = 13%nat ->
     SB.packName s = SB.packName s1).
Proof.
  intros Hwf. split.
  - unfold SB.pushName.
    destruct (packName_bytes8 s) as (L8 & B8).
    destruct (pushArray_bytes b (SB.packName s) Hwf B8) as (b' & E & Ha & _ & _ & W).
    exists b'. split; [exact E|]. split; [exact Ha|].
    destruct (pushArray_ok b (SB.packName s) Hwf) as (b2 & E2 & Hlen & _).
    rewrite E in E2. injection E2 as <-. rewrite Hlen, L8. reflexivity.
  - intros s1 s2 -> Hl.
    unfold SB.packName. rewrite codes_app, fold_left_app.
    destruct (fold_left SB.pushName_char (JSString.codes s1) (repeat 0 8, 63))
      as [a p] eqn:E.
    assert (Hc : p = -1).
    { change p with (snd (a, p)). rewrite <- E.
      change 63 with (5 * Z.of_nat 13 - 2).
      apply pushName_fold_cursor; [apply zeros_bytes8| |lia].
      clear - Hl. revert Hl. generalize 13%nat.
      induction s1 as [|c s1 IH]; intros n Hn; cbn in *; [exact Hn|].
      destruct n; [discriminate|]. f_equal. apply IH. lia. }
    rewrite pushName_fold_done by lia. reflexivity.
Qed.

Lemma X14_name_fixed_width_witness :
  SB.packName "abcdefghijklmnop" = SB.packName "abcdefghijklm".
Proof.
  exact (proj2 (X14_name_fixed_width "abcdefghijklmnop" SB.new new_wf)
           "abcdefghijklm"%string "nop"%string eq_refl eq_refl).
Defined.

(** ** Exact reads *)

(** X16. [getUint8Array(len)] succeeds exactly when [len] unread bytes
    remain: it then returns the next [len] bytes in order and leaves the
    rest unread; with fewer bytes left it fails with BufferUnderrun. *)
Theorem X16_getUint8Array_exact (b : SB.t) (n : nat) :
  SB.wf b ->
  ((n <= List.length (SB.unread b))%nat ->
     SB.getUint8Array b n = Ok (firstn n (SB.unread b), advance b n) /\
     SB.unread (advance b n) = skipn n (SB.unread b)) /\
  ((List.length (SB.unread b) < n)%nat ->
     SB.getUint8Array b n = Throw BufferUnderrun).
Proof.
  intros Hwf. pose proof (unread_length b Hwf) as Hl. pose proof Hwf as (W1 & _).
  split.
  - intros Hn.
    destruct (getUint8Array_spec b (firstn n (SB.unread b)) (skipn n (SB.unread b)) Hwf
                (eq_sym (firstn_skipn n (SB.unread b)))) as (G & _ & Hu).
    rewrite length_firstn, Nat.min_l in G, Hu by exact Hn. auto.
  - intros Hn. unfold SB.getUint8Array.
    destruct (Nat.ltb_spec (SB.length b) (SB.readPos b + n)); [reflexivity|lia].
Qed.

Lemma X16_getUint8Array_exact_witness :
  SB.getUint8Array (SB.mk 3 [1; 2; 3; 0] 1) 5 = Throw BufferUnderrun.
Proof.
  refine (proj2 (X16_getUint8Array_exact (SB.mk 3 [1; 2; 3; 0] 1) 5 _) _).
  - unfold SB.wf; simpl. repeat split; try lia. repeat constructor; lia.
  - simpl. lia.
Defined.
(** ** Arrays and actions *)

Lemma serializeItems_ok h inner : forall items bss,
  Forall2 (fun v bs => encodes h inner v bs) items bss ->
  exists n, forall fuel b, (n <= fuel)%nat -> SB.wf b ->
    exists b', serializeItems (serialize fuel h inner) items b = Ok b' /\
      SB.asUint8Array b' = SB.asUint8Array b ++ List.concat bss /\
      SB.readPos b' = SB.readPos b /\ SB.wf b'.
Proof.
  induction 1 as [|v bs items bss (n1 & He) HF (n2 & IH)].
  - exists 0%nat. intros fuel b _ Hwf. exists b. cbn [serializeItems List.concat].
    rewrite app_nil_r. auto.
  - exists (Nat.max n1 n2). intros fuel b Hf Hwf. cbn [serializeItems List.concat].
    destruct (He fuel b ltac:(lia) Hwf) as (b1 & E1 & Hb1 & Hr1 & W1).
    rewrite E1. cbn [bind].
    destruct (IH fuel b1 ltac:(lia) W1) as (b2 & E2 & Hb2 & Hr2 & W2).
    exists b2. split; [exact E2|]. split; [|split; [congruence|exact W2]].
    rewrite Hb2, Hb1, <- app_assoc. reflexivity.
Qed.

Lemma deserializeItems_ok h inner : forall bss items,
  Forall2 (fun bs v => decodes h inner bs v) bss items ->
  exists n, forall fuel b rest acc, (n <= fuel)%nat -> SB.wf b ->
    SB.unread b = List.concat bss ++ rest ->
    deserializeItems (deserialize fuel h inner) (List.length items) acc b =
      Ok (acc ++ items, advance b (List.length (List.concat bss))).
Proof.
  induction 1 as [|bs v bss items (n1 & Hd) HF (n2 & IH)].
  - exists 0%nat. intros fuel b rest acc _ Hwf Hun.
    cbn [deserializeItems List.length List.concat]. rewrite advance_0, app_nil_r.
    reflexivity.
  - exists (Nat.max n1 n2). intros fuel b rest acc Hf Hwf Hun.
    cbn [deserializeItems List.length List.concat] in *.
    rewrite <- app_assoc in Hun.
    rewrite (Hd fuel b _ ltac:(lia) Hwf Hun). cbn [bind].
    destruct (advance_unread_wf b _ _ Hwf Hun) as (W1 & Hu1).
    rewrite (IH fuel _ rest (acc ++ [v]) ltac:(lia) W1 Hu1).
    rewrite advance_advance, length_app, <- app_assoc. reflexivity.
Qed.

(** X18. An array type encodes a list as the varuint32 of its length
    followed by the encodings of the items in order, and decodes such bytes
    back to the list: the count is read first, then that many items. *)
Theorem X18_array_codec (h : heap) (r inner : ref) (t : TypeObj.t)
  (items : list value) (bss : list (list Z)) :
  deref h r = Some t -> TypeObj.arrayOf t = Some inner ->
  Z.of_nat (List.length items) < 2 ^ 32 ->
  (TypeObj.serialize t = serializeArray ->
   Forall2 (fun v bs => encodes h inner v bs) items bss ->
   encodes h r (VArr items)
     (leb128 5 (Z.of_nat (List.length items)) ++ List.concat bss)) /\
  (TypeObj.deserialize t = deserializeArray ->
   Forall2 (fun bs v => decodes h inner bs v) bss items ->
   decodes h r (leb128 5 (Z.of_nat (List.length items)) ++ List.concat bss)
     (VArr items)).
Proof.
  intros Hd Ha Hl. split.
  - intros Hs HF. destruct (serializeItems_ok h inner _ _ HF) as (n & Hit).
    exists (S n). intros fuel b Hf Hwf.
    destruct fuel as [|fuel]; [lia|]. cbn [serialize]. rewrite Hd, Hs.
    destruct (pushVaruint32_spec b (Z.of_nat (List.length items)) Hwf)
      as (b1 & E1 & Hb1 & _ & Hr1 & W1).
    rewrite toUint32_small in Hb1 by lia.
    rewrite E1. cbn [bind]. rewrite Ha.
    destruct (Hit fuel b1 ltac:(lia) W1) as (b2 & E2 & Hb2 & Hr2 & W2).
    exists b2. split; [exact E2|]. split; [|split; [congruence|exact W2]].
    rewrite Hb2, Hb1, <- app_assoc. reflexivity.
  - intros Hs HF. destruct (deserializeItems_ok h inner _ _ HF) as (n & Hit).
    exists (S n). intros fuel b rest Hf Hwf Hun.
    destruct fuel as [|fuel]; [lia|]. cbn [deserialize]. rewrite Hd, Hs.
    rewrite <- app_assoc in Hun.
    destruct (getVaruint32_leb b (Z.of_nat (List.length items)) _ Hwf Hun ltac:(lia))
      as (G & W1 & Hu1).
    rewrite G. cbn [bind]. rewrite Ha, Nat2Z.id.
    rewrite (Hit fuel _ rest [] ltac:(lia) W1 Hu1). cbn [bind app].
    rewrite advance_advance, length_app. reflexivity.
Qed.

Lemma X18_array_codec_witness :
  decodes (snd (resolved "uint8[]")) (fst (resolved "uint8[]"))
    (leb128 5 (Z.of_nat (List.length [VNum 5; VNum 6])) ++ List.concat [[5]; [6]])
    (VArr [VNum 5; VNum 6]).
Proof.
  refine (proj2 (X18_array_codec (snd (resolved "uint8[]")) (fst (resolved "uint8[]"))
                   1%nat _ [VNum 5; VNum 6] [[5]; [6]] _ _ _) _ _).
  - vm_compute. reflexivity.
  - reflexivity.
  - vm_compute. reflexivity.
  - reflexivity.
  - constructor; [|constructor; [|constructor]].
    + eapply decodes_uint8; [vm_compute; reflexivity|reflexivity|lia].
    + eapply decodes_uint8; [vm_compute; reflexivity|reflexivity|lia].
Defined.

Lemma asUint8Array_bytes b : SB.wf b -> Forall (fun x => 0 <= x < 256) (SB.asUint8Array b).
Proof.
  intros (_ & _ & _ & H). unfold SB.asUint8Array.
  rewrite Forall_forall in *. intros x Hx. apply H.
  eapply In_firstn_incl. exact Hx.
Qed.

Lemma new_unread : SB.unread SB.new = [].
Proof. reflexivity. Qed.

(** X19. Action payloads round-trip: if the action's type encodes [v] as
    [bs] and decodes [bs] to [v'], then [serializeActionData] returns the
    upper-case hex text of [bs], and [deserializeActionData] applied to
    that text, or to the bytes themselves, returns [v']. *)
Theorem X19_action_roundtrip (h : heap) (contract : Contract) (account name : string)
  (r : ref) (v v' : value) (bs : list Z) :
  map_get (actions contract) name = Some r ->
  encodes h r v bs -> decodes h r bs v' ->
  exists n, forall fuel, (n <= fuel)%nat ->
    serializeActionData fuel h contract account name v = Ok (arrayToHex bs) /\
    deserializeActionData fuel h contract account name (HexString (arrayToHex bs)) = Ok v' /\
    deserializeActionData fuel h contract account name (ByteArray bs) = Ok v'.
Proof.
  intros Hm (n1 & He) (n2 & Hd). exists (Nat.max n1 n2). intros fuel Hf.
  destruct (He fuel SB.new ltac:(lia) new_wf) as (b1 & E1 & Hb1 & _ & W1).
  change (SB.asUint8Array SB.new) with (@nil Z) in Hb1. cbn [app] in Hb1.
  assert (Hbs : Forall (fun x => 0 <= x < 256) bs)
    by (rewrite <- Hb1; apply asUint8Array_bytes; exact W1).
  assert (Hdes : deserializeActionData fuel h contract account name (ByteArray bs) = Ok v').
  { unfold deserializeActionData. rewrite Hm.
    destruct (pushArray_bytes SB.new bs new_wf Hbs) as (b2 & E2 & _ & Hu2 & _ & W2).
    rewrite E2. cbn [bind]. rewrite new_unread, app_nil_l in Hu2.
    rewrite <- (app_nil_r bs) in Hu2.
    rewrite (Hd fuel b2 [] ltac:(lia) W2 Hu2). reflexivity. }
  split; [|split; [|exact Hdes]].
  - unfold serializeActionData. rewrite Hm, E1. cbn [bind]. rewrite Hb1. reflexivity.
  - unfold deserializeActionData in *. rewrite Hm in *.
    rewrite hexToUint8Array_arrayToHex by exact Hbs. exact Hdes.
Qed.

Lemma X19_action_roundtrip_witness :
  exists n, forall fuel, (n <= fuel)%nat ->
    serializeActionData fuel (snd (compiled abi_point))
      {| actions := [("move"%string, 32%nat)]; types := fst (compiled abi_point) |}
      "game" "move" (VObj [("x"%string, VNum 1); ("y"%string, VNum 2)]) =
      Ok (arrayToHex [1; 2]) /\
    deserializeActionData fuel (snd (compiled abi_point))
      {| actions := [("move"%string, 32%nat)]; types := fst (compiled abi_point) |}
      "game" "move" (HexString (arrayToHex [1; 2])) =
      Ok (VObj [("x"%string, VNum 1); ("y"%string, VNum 2)]) /\
    deserializeActionData fuel (snd (compiled abi_point))
      {| actions := [("move"%string, 32%nat)]; types := fst (compiled abi_point) |}
      "game" "move" (ByteArray [1; 2]) =
      Ok (VObj [("x"%string, VNum 1); ("y"%string, VNum 2)]).
Proof.
  refine (X19_action_roundtrip (snd (compiled abi_point))
            {| actions := [("move"%string, 32%nat)]; types := fst (compiled abi_point) |}
            "game" "move" 32%nat
            (VObj [("x"%string, VNum 1); ("y"%string, VNum 2)])
            (VObj [("x"%string, VNum 1); ("y"%string, VNum 2)]) [1; 2] eq_refl _ _).
  - refine (proj1 (struct_codec (snd (compiled abi_point)) 32%nat _ _ _ _ _)
              [] [[1]; [2]] _ _).
    + vm_compute. reflexivity.
    + reflexivity.
    + reflexivity.
    + reflexivity.
    + cbn [TypeObj.fields].
      constructor; [|constructor; [|constructor]].
      * exists 1%nat. split; [reflexivity|]. split; [reflexivity|].
        eapply (encodes_uint8 _ 1%nat _ 1); [vm_compute; reflexivity|reflexivity].
      * exists 1%nat. split; [reflexivity|]. split; [reflexivity|].
        eapply (encodes_uint8 _ 1%nat _ 2); [vm_compute; reflexivity|reflexivity].
  - refine (proj1 (proj1 (proj2 (proj2 (struct_codec (snd (compiled abi_point)) 32%nat
                                   (object_at (snd (compiled abi_point)) 32%nat) [] _ _ _)))
                     [] [] [([1], VNum 1); ([2], VNum 2)] _ _)).
    + vm_compute. reflexivity.
    + reflexivity.
    + reflexivity.
    + split; reflexivity.
    + cbn [TypeObj.fields].
      constructor; [|constructor; [|constructor]].
      * exists 1%nat. split; [reflexivity|]. split; [|discriminate].
        eapply decodes_uint8; [vm_compute; reflexivity|reflexivity|cbn; lia].
      * exists 1%nat. split; [reflexivity|]. split; [|discriminate].
        eapply decodes_uint8; [vm_compute; reflexivity|reflexivity|cbn; lia].
Defined.

(** ** What bounds a decode *)







(** ** More on varuint32 and symbols *)

Lemma leb128_length_le n : forall u, (List.length (leb128 n u) <= n)%nat.
Proof.
  induction n as [|n IH]; intros u; cbn [leb128]; [cbn; lia|].
  destruct (u <? 128); cbn [List.length]; [lia|]. specialize (IH (u / 128)). lia.
Qed.

(** X22. [pushVaruint32] accepts any integer: it writes the varuint form of
    the value reduced modulo 2^32, between one and five bytes, and
    [getVaruint32] reads that reduced value back. *)
Theorem X22_varuint32_wraps (b : SB.t) (v : Z) :
  SB.wf b -> SB.unread b = [] ->
  exists b1, SB.pushVaruint32 b v = Ok b1 /\
    SB.asUint8Array b1 = SB.asUint8Array b ++ leb128 5 (v mod 2 ^ 32) /\
    (1 <= List.length (leb128 5 (v mod 2 ^ 32)) <= 5)%nat /\
    SB.getVaruint32 b1 =
      Ok (v mod 2 ^ 32, advance b1 (List.length (leb128 5 (v mod 2 ^ 32)))).
Proof.
  intros Hwf Hun.
  destruct (pushVaruint32_spec b v Hwf) as (b1 & E & Ha & Hu & _ & W).
  change (JS.toUint32 v) with (v mod 2 ^ 32) in *.
  exists b1. split; [exact E|]. split; [exact Ha|]. split.
  - split; [|apply leb128_length_le].
    pose proof (leb128_nonempty 4 (v mod 2 ^ 32)) as Hne.
    destruct (leb128 5 (v mod 2 ^ 32)); [congruence|cbn; lia].
  - rewrite Hun, app_nil_l in Hu. rewrite <- (app_nil_r (leb128 _ _)) in Hu.
    apply (getVaruint32_leb b1 (v mod 2 ^ 32) [] W Hu).
    apply Z.mod_pos_bound. lia.
Qed.

Lemma X22_varuint32_wraps_witness :
  exists b1, SB.pushVaruint32 SB.new (-1) = Ok b1 /\
    SB.asUint8Array b1 = SB.asUint8Array SB.new ++ leb128 5 ((-1) mod 2 ^ 32) /\
    (1 <= List.length (leb128 5 ((-1) mod 2 ^ 32)) <= 5)%nat /\
    SB.getVaruint32 b1 =
      Ok ((-1) mod 2 ^ 32, advance b1 (List.length (leb128 5 ((-1) mod 2 ^ 32)))).
Proof. exact (X22_varuint32_wraps SB.new (-1) new_wf eq_refl). Defined.

Lemma encode_ascii s : Forall (fun c => c < 128) (JSString.codes s) ->
  textEncoder_encode s = JSString.codes s.
Proof.
  unfold textEncoder_encode. induction s as [|c s IH]; intros H; [reflexivity|].
  cbn [JSString.codes flat_map] in *. apply Forall_cons_iff in H as [Hc Hs].
  rewrite IH by exact Hs. unfold utf8_encode_unit.
  destruct (Z.ltb_spec (JSString.code c) 128); [reflexivity|lia].
Qed.

Lemma untilZero_pad l k : Forall (fun c => c <> 0) l ->
  SB.untilZero (l ++ repeat 0 k) = l.
Proof.
  induction 1 as [|c l Hc Hl IH]; cbn [app SB.untilZero].
  - destruct k; reflexivity.
  - unfold JS.truthy. destruct (Z.eqb_spec c 0); [contradiction|].
    cbn [negb]. rewrite IH. reflexivity.
Qed.

Lemma codes_length s : List.length (JSString.codes s) = String.length s.
Proof. induction s as [|c s IH]; cbn; [reflexivity|rewrite IH; reflexivity]. Qed.

Lemma padTo8_short l : (List.length l <= 8)%nat ->
  SB.padTo8 l = l ++ repeat 0 (8 - List.length l).
Proof.
  intros H. unfold SB.padTo8. apply firstn_all2.
  rewrite length_app, repeat_length. lia.
Qed.

(** X13. A symbol whose name has at most seven ASCII characters, none of
    them NUL, and whose precision is a byte, is written by [pushSymbol] as
    eight bytes (the precision, the name, zero padding) and read back
    unchanged by [getSymbol]. *)
Theorem X13_symbol_roundtrip (b : SB.t) (name : string) (precision : Z) :
  SB.wf b -> SB.unread b = [] ->
  (String.length name <= 7)%nat ->
  Forall (fun c => c <> 0 /\ c < 128) (JSString.codes name) ->
  0 <= precision < 256 ->
  exists b1,
    SB.pushSymbol b {| SB.name := name; SB.precision := precision |} = Ok b1 /\
    SB.asUint8Array b1 =
      SB.asUint8Array b ++ precision :: JSString.codes name
        ++ repeat 0 (7 - String.length name) /\
    SB.getSymbol b1 =
      Ok ({| SB.name := name; SB.precision := precision |}, advance b1 8).
Proof.
  intros Hwf Hun Hl Hc Hp.
  assert (Hlt : Forall (fun c => c < 128) (JSString.codes name))
    by (eapply Forall_impl; [|exact Hc]; cbn; intros; lia).
  assert (Hnz : Forall (fun c => c <> 0) (JSString.codes name))
    by (eapply Forall_impl; [|exact Hc]; cbn; intros; lia).
  assert (Hb : Forall (fun x => 0 <= x < 256) (JSString.codes name)).
  { clear. induction name as [|c s IH]; constructor; [|exact IH].
    pose proof (code_range c). lia. }
  destruct (pushSymbol_spec b {| SB.name := name; SB.precision := precision |} Hwf)
    as (b1 & E & Ha & Hu & W).
  cbn [SB.name SB.precision] in Ha, Hu.
  rewrite encode_ascii in Ha, Hu by exact Hlt.
  rewrite band_ff, (Z.mod_small precision 256) in Ha, Hu by lia.
  rewrite padTo8_short in Ha, Hu by (cbn [List.length]; rewrite codes_length; lia).
  cbn [List.length app] in Ha, Hu. rewrite codes_length in Ha, Hu.
  change (8 - S (String.length name))%nat with (7 - String.length name)%nat in Ha, Hu.
  assert (Hbytes : Forall (fun x => 0 <= x < 256)
                     (precision :: JSString.codes name ++ repeat 0 (7 - String.length name))).
  { constructor; [lia|]. apply Forall_app. split; [exact Hb|].
    apply Forall_forall. intros x Hx. apply repeat_spec in Hx. lia. }
  rewrite (map_toUint8_bytes _ Hbytes) in Ha, Hu.
  exists b1. split; [exact E|]. split; [exact Ha|].
  rewrite Hun, app_nil_l in Hu.
  rewrite <- (app_nil_r (JSString.codes name ++ repeat 0 (7 - String.length name))) in Hu.
  rewrite (getSymbol_spec b1 precision _ [] W Hu)
    by (rewrite length_app, repeat_length, codes_length; lia).
  rewrite untilZero_pad by exact Hnz.
  rewrite <- (encode_ascii name Hlt), textDecoder_encode. reflexivity.
Qed.

Lemma X13_symbol_roundtrip_witness :
  exists b1,
    SB.pushSymbol SB.new {| SB.name := "SYS"; SB.precision := 4 |} = Ok b1 /\
    SB.asUint8Array b1 =
      SB.asUint8Array SB.new ++ 4 :: JSString.codes "SYS"
        ++ repeat 0 (7 - String.length "SYS") /\
    SB.getSymbol b1 = Ok ({| SB.name := "SYS"; SB.precision := 4 |}, advance b1 8).
Proof.
  refine (X13_symbol_roundtrip SB.new "SYS" 4 new_wf eq_refl _ _ _).
  - simpl. lia.
  - vm_compute. repeat constructor; discriminate.
  - lia.
Defined.
(** ** Optionals, decoded *)

(** X20. An optional type decodes the flag byte 0 to [null] without reading
    further, and a flag byte other than 0 followed by an encoding of the
    inner type to the inner value. *)
Theorem X20_optional_decode (h : heap) (r inner : ref) (t : TypeObj.t) :
  deref h r = Some t -> TypeObj.deserialize t = deserializeOptional ->
  decodes h r [0] VNull /\
  (forall flag bs v,
     TypeObj.optionalOf t = Some inner -> 0 < flag < 256 ->
     decodes h inner bs v -> decodes h r (flag :: bs) v).
Proof.
  intros Hd Hs. split.
  - exists 1%nat. intros fuel b rest Hf Hwf Hun.
    destruct fuel as [|fuel]; [lia|]. cbn [deserialize]. rewrite Hd, Hs.
    destruct (get_cons b 0 rest Hwf Hun) as (G & _). rewrite G. reflexivity.
  - intros flag bs v Ho Hflag (n & Hin). exists (S n).
    intros fuel b rest Hf Hwf Hun.
    destruct fuel as [|fuel]; [lia|]. cbn [deserialize]. rewrite Hd, Hs.
    cbn [app] in Hun.
    destruct (get_cons b flag _ Hwf Hun) as (G & Hu1 & W1 & _). rewrite G. cbn [bind].
    unfold JS.truthy. destruct (Z.eqb_spec flag 0); [lia|]. cbn [negb].
    rewrite Ho. rewrite (Hin fuel _ rest ltac:(lia) W1 Hu1).
    rewrite advance_advance. reflexivity.
Qed.

Lemma X20_optional_decode_witness :
  decodes (snd (resolved "uint8?")) (fst (resolved "uint8?")) [0] VNull.
Proof.
  refine (proj1 (X20_optional_decode (snd (resolved "uint8?")) (fst (resolved "uint8?"))
                   1%nat _ _ _)).
  - vm_compute. reflexivity.
  - reflexivity.
Defined.

(** ** Resolved links *)

Lemma deref_lt h r t : deref h r = Some t -> (r < List.length h)%nat.
Proof. unfold deref. intros E. apply nth_error_Some. congruence. Qed.

Lemma deref_store_same h : forall r t, (r < List.length h)%nat ->
  deref (store h r t) r = Some t.
Proof.
  unfold deref. induction h as [|x h IH]; intros [|r] t Hr; cbn in *; try lia; auto.
  apply IH. lia.
Qed.

Lemma deref_store_other h : forall r r' t, r' <> r ->
  deref (store h r t) r' = deref h r'.
Proof.
  unfold deref. induction h as [|x h IH]; intros [|r] [|r'] t Hne; cbn; auto; try lia.
Qed.

Lemma deref_app_lt h x r : (r < List.length h)%nat -> deref (h ++ x) r = deref h r.
Proof. unfold deref. intros E. apply nth_error_app1. exact E. Qed.

Lemma getType_ref fuel : forall h types name r h',
  getType fuel h types name = Ok (r, h') -> (r < List.length h')%nat.
Proof.
  induction fuel as [|fuel IH]; intros h types name r h' E; [discriminate E|].
  cbn [getType] in E.
  destruct (map_get types name) as [r0|].
  - destruct (deref h r0) as [t|] eqn:Hd.
    + destruct (negb _).
      * eapply IH; exact E.
      * injection E as <- <-. eapply deref_lt; exact Hd.
    + destruct (JSString.endsWith name "[]").
      * bind_ok E. destruct a as [inner h1]. unfold alloc in E. injection E as <- <-.
        rewrite length_app. simpl. lia.
      * destruct (JSString.endsWith name "?"); [|discriminate E].
        bind_ok E. destruct a as [inner h1]. unfold alloc in E. injection E as <- <-.
        rewrite length_app. simpl. lia.
  - destruct (JSString.endsWith name "[]").
    + bind_ok E. destruct a as [inner h1]. unfold alloc in E. injection E as <- <-.
      rewrite length_app. simpl. lia.
    + destruct (JSString.endsWith name "?"); [|discriminate E].
      bind_ok E. destruct a as [inner h1]. unfold alloc in E. injection E as <- <-.
      rewrite length_app. simpl. lia.
Qed.

Lemma field_resolved_mono h h' f :
  (List.length h <= List.length h')%nat -> field_resolved h f -> field_resolved h' f.
Proof. intros L (ft & E & Hlt). exists ft. split; [exact E|lia]. Qed.

Lemma links_resolved_mono h h' t :
  (List.length h <= List.length h')%nat -> links_resolved h t -> links_resolved h' t.
Proof.
  intros L (F & B). split.
  - eapply Forall_impl; [|exact F]. intros f. apply field_resolved_mono. exact L.
  - intros Hb. destruct (B Hb) as (b & E & Hlt). exists b. split; [exact E|lia].
Qed.

Lemma fields_set t l : TypeObj.fields (apply_attr t (a_fields l)) = l.
Proof. destruct t. reflexivity. Qed.

Lemma fields_set_base t l :
  TypeObj.base (apply_attr t (a_fields l)) = TypeObj.base t /\
  TypeObj.baseName (apply_attr t (a_fields l)) = TypeObj.baseName t.
Proof. destruct t. split; reflexivity. Qed.

Lemma base_set t b :
  TypeObj.base (apply_attr t (a_base b)) = Some b /\
  TypeObj.baseName (apply_attr t (a_base b)) = TypeObj.baseName t /\
  TypeObj.fields (apply_attr t (a_base b)) = TypeObj.fields t.
Proof. destruct t. repeat split; reflexivity. Qed.

Lemma resolveFields_links fuel types r : forall fs i h h' t,
  resolveFields fuel types r fs i h = Ok h' ->
  deref h r = Some t ->
  List.length (TypeObj.fields t) = (i + List.length fs)%nat ->
  Forall (field_resolved h) (firstn i (TypeObj.fields t)) ->
  (List.length h <= List.length h')%nat /\
  (forall r', r' <> r -> (r' < List.length h)%nat -> deref h' r' = deref h r') /\
  exists t', deref h' r = Some t' /\
             Forall (field_resolved h') (TypeObj.fields t') /\
             TypeObj.base t' = TypeObj.base t /\
             TypeObj.baseName t' = TypeObj.baseName t.
Proof.
  induction fs as [|f fs IH]; intros i h h' t E Hd Hlen Hres; cbn [resolveFields] in E.
  - injection E as <-. split; [lia|]. split; [auto|].
    exists t. repeat split; auto.
    cbn [List.length] in Hlen. rewrite Nat.add_0_r in Hlen.
    rewrite <- Hlen, firstn_all in Hres. exact Hres.
  - bind_ok E. destruct a as [ft h1].
    pose proof (getType_ref _ _ _ _ _ _ E0) as Hft.
    apply getType_appends in E0 as (x & ->).
    rewrite (deref_app h x r t Hd) in E.
    pose proof (deref_lt _ _ _ Hd) as Hr.
    cbn [List.length] in Hlen.
    set (f' := {| Field.name := Field.name f; Field.typeName := Field.typeName f;
                  Field.type := Some ft |}) in E.
    set (t1 := apply_attr t (a_fields (firstn i (TypeObj.fields t) ++ f'
                                         :: skipn (S i) (TypeObj.fields t)))) in E.
    set (h2 := store (h ++ x) r t1) in E.
    assert (L2 : List.length h2 = List.length (h ++ x)) by apply store_length.
    assert (Lx : (List.length h <= List.length (h ++ x))%nat)
      by (rewrite length_app; lia).
    assert (D2 : deref h2 r = Some t1).
    { apply deref_store_same. lia. }
    assert (F1 : TypeObj.fields t1 =
                 firstn i (TypeObj.fields t) ++ f' :: skipn (S i) (TypeObj.fields t))
      by apply fields_set.
    assert (Lf : List.length (firstn i (TypeObj.fields t)) = i)
      by (rewrite length_firstn; lia).
    destruct (IH (S i) h2 h' t1 E D2) as (I1 & I2 & t' & I3 & I4 & I5 & I6).
    + rewrite F1, length_app. cbn [List.length]. rewrite length_skipn, Lf. lia.
    + rewrite F1.
      change (f' :: skipn (S i) (TypeObj.fields t))
        with ([f'] ++ skipn (S i) (TypeObj.fields t)).
      rewrite app_assoc, firstn_app.
      replace (List.length (firstn i (TypeObj.fields t) ++ [f'])) with (S i)
        by (rewrite length_app, Lf; simpl; lia).
      rewrite Nat.sub_diag.
      change (firstn 0 (skipn (S i) (TypeObj.fields t))) with (@nil Field.t).
      rewrite app_nil_r.
      rewrite (@firstn_all2 _ (S i) (firstn i (TypeObj.fields t) ++ [f']))
        by (rewrite length_app, Lf; simpl; lia).
      apply Forall_app. split.
      * eapply Forall_impl; [|exact Hres]. intros g. apply field_resolved_mono. lia.
      * constructor; [|constructor]. exists ft. split; [reflexivity|lia].
    + split; [lia|]. split.
      * intros r' Hne Hr'. rewrite I2 by (auto; lia).
        unfold h2. rewrite deref_store_other by exact Hne.
        apply deref_app_lt. exact Hr'.
      * exists t'. repeat split; auto.
        -- rewrite I5. apply (fields_set_base t).
        -- rewrite I6. apply (fields_set_base t).
Qed.

Lemma resolveEntry_links fuel types h h' r :
  resolveEntry fuel types h r = Ok h' ->
  (List.length h <= List.length h')%nat /\
  (forall r', r' <> r -> (r' < List.length h)%nat -> deref h' r' = deref h r') /\
  exists t', deref h' r = Some t' /\ links_resolved h' t'.
Proof.
  unfold resolveEntry. intros E.
  destruct (deref h r) as [t|] eqn:Hd; [|discriminate E].
  pose proof (deref_lt _ _ _ Hd) as Hr.
  bind_ok E. rename a into h1.
  assert (S1 : (List.length h <= List.length h1)%nat /\
               (forall r', r' <> r -> (r' < List.length h)%nat ->
                           deref h1 r' = deref h r') /\
               exists t1, deref h1 r = Some t1 /\
                          TypeObj.fields t1 = TypeObj.fields t /\
                          TypeObj.baseName t1 = TypeObj.baseName t /\
                          (TypeObj.baseName t <> EmptyString ->
                           exists b, TypeObj.base t1 = Some b /\
                                     (b < List.length h1)%nat)).
  { destruct (TypeObj.baseName t) as [|c bn] eqn:Hbn; cbn [String.length Nat.eqb negb] in E0.
    - injection E0 as <-. split; [lia|]. split; [auto|].
      exists t. repeat split; auto. congruence.
    - bind_ok E0. destruct a as [b h0].
      pose proof (getType_ref _ _ _ _ _ _ E1) as Hb.
      apply getType_appends in E1 as (x & ->).
      rewrite (deref_app h x r t Hd) in E0. injection E0 as <-.
      assert (Lx : (List.length h <= List.length (h ++ x))%nat)
        by (rewrite length_app; lia).
      rewrite store_length. split; [exact Lx|]. split.
      + intros r' Hne Hr'. rewrite deref_store_other by exact Hne.
        apply deref_app_lt. exact Hr'.
      + exists (apply_attr t (a_base b)). split; [apply deref_store_same; lia|].
        destruct (base_set t b) as (B1 & B2 & B3).
        split; [exact B3|]. split; [rewrite B2; exact Hbn|].
        intros _. exists b. split; [exact B1|exact Hb]. }
  destruct S1 as (L1 & O1 & t1 & D1 & Ff & Fb & Hbase).
  destruct (resolveFields_links fuel types r (TypeObj.fields t) 0 h1 h' t1 E D1)
    as (I1 & I2 & t' & I3 & I4 & I5 & I6).
  - rewrite Ff. reflexivity.
  - constructor.
  - split; [lia|]. split.
    + intros r' Hne Hr'. rewrite I2 by (auto; lia). apply O1; auto.
    + exists t'. split; [exact I3|]. split; [exact I4|].
      intros Hb. rewrite I6, Fb in Hb. destruct (Hbase Hb) as (b & B1 & B2).
      exists b. rewrite I5. split; [exact B1|lia].
Qed.

Lemma resolveEntries_links fuel types : forall entries h h',
  resolveEntries fuel types entries h = Ok h' ->
  (List.length h <= List.length h')%nat /\
  (forall r t, deref h r = Some t -> links_resolved h t ->
               exists t', deref h' r = Some t' /\ links_resolved h' t') /\
  (forall k r, In (k, r) entries ->
               exists t', deref h' r = Some t' /\ links_resolved h' t').
Proof.
  induction entries as [|[k0 r0] entries IH]; intros h h' E; cbn [resolveEntries] in E.
  - injection E as <-. split; [lia|]. split.
    + intros r t Hd Hl. exists t. auto.
    + intros k r [].
  - bind_ok E. rename a into h1.
    destruct (resolveEntry_links _ _ _ _ _ E0) as (L1 & O1 & t0 & D0 & R0).
    destruct (IH _ _ E) as (L2 & P2 & A2).
    assert (P1 : forall r t, deref h r = Some t -> links_resolved h t ->
                 exists t', deref h' r = Some t' /\ links_resolved h' t').
    { intros r t Hd Hl. destruct (Nat.eq_dec r r0) as [->|Hne].
      - apply (P2 r0 t0 D0 R0).
      - apply (P2 r t).
        + rewrite O1; auto. eapply deref_lt; exact Hd.
        + eapply links_resolved_mono; [exact L1|exact Hl]. }
    split; [lia|]. split; [exact P1|].
    intros k r [Q|Hin].
    + injection Q as _ <-. apply (P2 r0 t0 D0 R0).
    + apply (A2 k r Hin).
Qed.

Lemma map_get_In m k r : map_get m k = Some r -> In (k, r) m.
Proof.
  induction m as [|[k0 r0] m IH]; cbn [map_get]; [discriminate|].
  destruct (String.eqb_spec k0 k) as [->|Hne].
  - intros E. injection E as <-. left. reflexivity.
  - intros E. right. apply IH. exact E.
Qed.

(** X21. When [getTypesFromAbi] returns, every name of the resulting map
    refers to a Type object none of whose links is left unresolved: each
    field's [type] is an object of the heap, and so is [base] when the
    object has a base name. *)
Theorem X21_links_resolved (fuel : nat) (h0 : heap) (types0 : TypeMap) (abi : Abi.t)
    (types : TypeMap) (h : heap) :
  getTypesFromAbi fuel h0 types0 abi = Ok (types, h) ->
  forall k r, map_get types k = Some r ->
    exists t, deref h r = Some t /\ links_resolved h t.
Proof.
  unfold getTypesFromAbi. intros E k r Hk.
  destruct (fold_left _ (Abi.types abi) (types0, h0)) as [types1 h1].
  destruct (fold_left _ (Abi.structs abi) (types1, h1)) as [types2 h2].
  bind_ok E. injection E as <- <-.
  destruct (resolveEntries_links _ _ _ _ _ E0) as (_ & _ & A).
  apply (A k r). apply map_get_In. exact Hk.
Qed.

Lemma X21_links_resolved_witness :
  exists t, deref (snd (compiled abi_point)) 32%nat = Some t /\
            links_resolved (snd (compiled abi_point)) t.
Proof.
  refine (X21_links_resolved 4 (snd initialTypes) (fst initialTypes) abi_point
            (fst (compiled abi_point)) (snd (compiled abi_point)) _ "point"%string 32%nat _).
  - vm_compute. reflexivity.
  - vm_compute. reflexivity.
Defined.

(** ** The text form of a symbol *)

Lemma code_fromCharCode x : 0 <= x < 256 -> JSString.code (JSString.fromCharCode x) = x.
Proof.
  intros H. unfold JSString.code, JSString.fromCharCode.
  rewrite N_ascii_embedding; [apply Z2N.id; lia|].
  change 256%N with (Z.to_N 256). apply Z2N.inj_lt; lia.
Qed.

Lemma append_snoc ds c acc :
  ((ds ++ String c EmptyString) ++ acc = ds ++ String c acc)%string.
Proof. induction ds as [|d ds IH]; cbn; [reflexivity|rewrite IH; reflexivity]. Qed.

Lemma length_snoc ds c :
  String.length (ds ++ String c EmptyString) = S (String.length ds).
Proof. induction ds as [|d ds IH]; cbn; [reflexivity|rewrite IH; reflexivity]. Qed.

Lemma append_empty ds : (ds ++ EmptyString)%string = ds.
Proof. induction ds as [|d ds IH]; cbn; [reflexivity|rewrite IH; reflexivity]. Qed.

Lemma digitsValue_app l : forall a v m,
  JSString.digitsValue a l = Some v ->
  JSString.digitsValue a (l ++ m) = JSString.digitsValue v m.
Proof.
  induction l as [|c l IHl]; intros a v m Hv; cbn [JSString.digitsValue app] in *.
  - injection Hv as ->. reflexivity.
  - destruct (JSString.isDigit c); [|discriminate]. apply IHl. exact Hv.
Qed.

Lemma digitsValue_nonneg l : forall a v,
  0 <= a -> JSString.digitsValue a l = Some v -> 0 <= v.
Proof.
  induction l as [|c l IH]; intros a v Ha Hv; cbn [JSString.digitsValue] in Hv.
  - injection Hv as <-. exact Ha.
  - destruct (JSString.isDigit c) eqn:Hc; [|discriminate].
    unfold JSString.isDigit in Hc. apply andb_prop in Hc as [H1 H2].
    apply Z.leb_le in H1, H2. eapply IH; [|exact Hv]. lia.
Qed.

Lemma decimal_loop_numeral fuel : forall n acc,
  0 <= n < 2 ^ Z.of_nat fuel -> (0 < fuel)%nat ->
  exists ds, JSString.decimal_loop fuel n acc = (ds ++ acc)%string /\ numeral ds n.
Proof.
  induction fuel as [|fuel IH]; intros n acc Hn Hf; [lia|].
  cbn [JSString.decimal_loop].
  assert (Hd : 0 <= n mod 10 < 10) by (apply Z.mod_pos_bound; lia).
  assert (Hc : JSString.code (JSString.fromCharCode (48 + n mod 10)) = 48 + n mod 10)
    by (apply code_fromCharCode; lia).
  assert (Hdig : JSString.isDigit (48 + n mod 10) = true).
  { unfold JSString.isDigit. apply andb_true_intro. split; apply Z.leb_le; lia. }
  destruct (Z.eqb_spec (n / 10) 0) as [Hz|Hnz].
  - exists (String (JSString.fromCharCode (48 + n mod 10)) EmptyString).
    split; [reflexivity|]. split; [discriminate|]. split.
    + cbn [JSString.codes]. rewrite Hc. constructor; [exact Hdig|constructor].
    + intros a. cbn [JSString.codes JSString.digitsValue String.length]. rewrite Hc, Hdig.
      f_equal. change (10 ^ Z.of_nat 1) with 10.
      pose proof (Z.div_mod n 10 ltac:(lia)). lia.
  - assert (Hq : 0 <= n / 10 < 2 ^ Z.of_nat fuel).
    { rewrite Nat2Z.inj_succ, Z.pow_succ_r in Hn by lia.
      split; [apply Z.div_pos; lia|].
      apply Z.div_lt_upper_bound; lia. }
    assert (Hf' : (0 < fuel)%nat).
    { destruct fuel; [|lia]. change (2 ^ Z.of_nat 0) with 1 in Hq. lia. }
    destruct (IH (n / 10) (String (JSString.fromCharCode (48 + n mod 10)) acc) Hq Hf')
      as (ds & E & Hne & Hall & Hval).
    exists (ds ++ String (JSString.fromCharCode (48 + n mod 10)) EmptyString)%string.
    split.
    { rewrite E, append_snoc. reflexivity. }
    split; [destruct ds; [congruence|discriminate]|]. split.
    + rewrite codes_app. apply Forall_app. split; [exact Hall|].
      cbn [JSString.codes]. rewrite Hc. constructor; [exact Hdig|constructor].
    + intros a. rewrite codes_app. cbn [JSString.codes]. rewrite Hc.
      rewrite (digitsValue_app _ _ _ _ (Hval a)). cbn [JSString.digitsValue]. rewrite Hdig.
      f_equal.
      rewrite length_snoc, Nat2Z.inj_succ, Z.pow_succ_r by lia.
      pose proof (Z.div_mod n 10 ltac:(lia)). lia.
Qed.

Lemma ofNumber_numeral n : 0 <= n -> numeral (JSString.ofNumber n) n.
Proof.
  intros Hn. unfold JSString.ofNumber.
  destruct (Z.ltb_spec n 0); [lia|]. unfold JSString.decimal.
  destruct (decimal_loop_numeral (S (Z.to_nat (Z.log2 n))) n EmptyString) as (ds & E & Hnum).
  - split; [lia|]. rewrite Nat2Z.inj_succ, Z2Nat.id by apply Z.log2_nonneg.
    destruct (Z.eq_dec n 0) as [->|]; [reflexivity|].
    apply Z.log2_spec. lia.
  - lia.
  - rewrite E, append_empty. exact Hnum.
Qed.

Lemma spanDigits_app ds rest :
  Forall (fun c => JSString.isDigit c = true) (JSString.codes ds) ->
  match rest with
  | EmptyString => True
  | String c _ => JSString.isDigit (JSString.code c) = false
  end ->
  SB.spanDigits (ds ++ rest) = (ds, rest).
Proof.
  intros Hall Hrest. induction ds as [|c ds IH]; cbn [append SB.spanDigits].
  - destruct rest as [|c r]; [reflexivity|]. cbn [SB.spanDigits]. rewrite Hrest. reflexivity.
  - cbn [JSString.codes] in Hall. apply Forall_cons_iff in Hall as [Hc Hds].
    rewrite Hc, (IH Hds). reflexivity.
Qed.

(** X23. [stringToSymbol] undoes [symbolToString] on every symbol whose
    precision is an integer in [0, 2^53) and whose name is a non-empty
    string of the letters A..Z; and whatever text [stringToSymbol] accepts
    yields such a name and a precision that is not negative. *)
Theorem X23_symbol_text_roundtrip :
  (forall sym : SB.Symbol,
     0 <= SB.precision sym < 2 ^ 53 ->
     SB.name sym <> EmptyString ->
     Forall (fun c => 65 <= c <= 90) (JSString.codes (SB.name sym)) ->
     stringToSymbol (symbolToString sym) = Ok sym) /\
  (forall s sym,
     stringToSymbol s = Ok sym ->
     SB.name sym <> EmptyString /\
     Forall (fun c => 65 <= c <= 90) (JSString.codes (SB.name sym)) /\
     0 <= SB.precision sym).
Proof.
  split.
  - intros [name precision] Hp Hne Hup. cbn [SB.name SB.precision] in *.
    destruct (ofNumber_numeral precision ltac:(lia)) as (Dne & Dall & Dval).
    unfold stringToSymbol, symbolToString. cbn [SB.name SB.precision].
    rewrite (spanDigits_app (JSString.ofNumber precision) ("," ++ name) Dall)
      by reflexivity.
    cbn [append].
    destruct (JSString.ofNumber precision) as [|d ds] eqn:Ed; [congruence|].
    destruct name as [|c name]; [congruence|].
    cbn [String.length Nat.eqb negb andb].
    assert (F : forallb (fun c => (65 <=? c) && (c <=? 90)) (JSString.codes (String c name))
                = true).
    { apply forallb_forall. intros x Hx. rewrite Forall_forall in Hup.
      specialize (Hup x Hx). apply andb_true_intro. split; apply Z.leb_le; lia. }
    rewrite F. rewrite (Dval 0). cbn [Z.mul Z.add].
    destruct (Z.ltb_spec precision (2 ^ 53)); [reflexivity|lia].
  - intros s sym E. unfold stringToSymbol in E.
    destruct (SB.spanDigits s) as [digits rest].
    destruct rest as [|c letters]; [discriminate E|].
    destruct c as [[] [] [] [] [] [] [] []]; try discriminate E.
    destruct (negb (String.length digits =? 0)%nat); [|discriminate E].
    destruct (negb (String.length letters =? 0)%nat) eqn:Hl; [|discriminate E].
    cbn [andb] in E.
    destruct (forallb _ (JSString.codes letters)) eqn:F; [|discriminate E].
    destruct (JSString.digitsValue 0 (JSString.codes digits)) as [p|] eqn:V;
      [|discriminate E].
    destruct (Z.ltb_spec p (2 ^ 53)); [|discriminate E].
    injection E as <-. cbn [SB.name SB.precision]. split; [|split].
    + destruct letters; [discriminate Hl|discriminate].
    + apply Forall_forall. intros x Hx.
      rewrite forallb_forall in F. specialize (F x Hx).
      apply andb_prop in F as [F1 F2]. apply Z.leb_le in F1, F2. lia.
    + apply (digitsValue_nonneg _ 0 p ltac:(lia) V).
Qed.

Lemma X23_symbol_text_roundtrip_witness :
  stringToSymbol (symbolToString {| SB.name := "SYS"; SB.precision := 4 |})
  = Ok {| SB.name := "SYS"; SB.precision := 4 |}.
Proof.
  refine (proj1 X23_symbol_text_roundtrip {| SB.name := "SYS"; SB.precision := 4 |} _ _ _).
  - cbn. lia.
  - discriminate.
  - cbn. repeat constructor; lia.
Defined.
